(** * Random MP3 player: playback sequencer, track pool and silence synthesis

    A shallow embedding of [src/components/RandomMp3PlayerMobile.tsx].

    Conventions of the embedding.
    - JavaScript numbers that carry a duration or a random draw are
      modelled by their exact values, rationals ([Q]); [Math.floor] is
      [Qfloor].  In [createWavSilence] and [formatTime], where a count
      is the floor of a product or of a quotient, the rounding of that
      operation to an IEEE double is modelled by [Num.round64].  All
      other arithmetic is exact: the gap duration, the countdown, and
      the index that [pickRandom] draws.
    - [Math.random()], [performance.now()] and the outcome of the promise
      returned by [audio.play()] are inputs of the operation that consumes
      them.  An [async] function is modelled as one atomic transition that
      receives the outcome of the awaited promise.
    - React state ([useState]) and refs ([useRef]) are fields of one state
      record.  A callback closes over the state values of the render that
      created it ([Render]): buttons and audio listeners hold the
      callbacks of the latest render, the media-session handlers those of
      the render in which [running] last changed (the dependency list of
      [attachMediaHandlers]).  Refs are read when the callback runs.
    - The host objects the component touches (object URL registry,
      animation-frame queue, the audio element) are part of the state, and
      every host call is also appended to an effect log.
    - Rendering and styling are left out. *)

From Stdlib Require Import ZArith QArith Qround Qpower Lia Lqa List.
From stdpp Require Import base option list strings pretty gmap.

Local Open Scope Z_scope.

(** ** Numbers *)

Module Num.

(** [Math.min] and [Math.max] on numbers. *)
Definition min (a b : Q) : Q := if Qle_bool a b then a else b.
Definition max (a b : Q) : Q := if Qle_bool a b then b else a.

(** [clamp(value, min, max) = Math.min(max, Math.max(min, value))]. *)
Definition clamp (value lo hi : Q) : Q := min hi (max lo value).

(** [Math.floor]. *)
Definition floor (x : Q) : Z := Qfloor x.

(** [Math.random()] returns a number in the half-open unit interval. *)
Definition unit_draw (r : Q) : Prop := (0 <= r)%Q /\ (r < 1)%Q.

(** [Math.trunc]: rounding towards zero. *)
Definition trunc (x : Q) : Z :=
  if Qle_bool 0 x then Qfloor x else Qceiling x.

(** The remainder operator [a % b] on finite numbers with [b] non-zero:
    [a - b * trunc (a / b)], which has the sign of [a]. *)
Definition rem (a b : Q) : Q := a - b * inject_Z (trunc (a / b)).

(** *** IEEE 754 doubles

    A finite double is a rational number; an arithmetic operation of the
    program returns the double nearest to the exact result, ties going
    to the even significand. *)

Definition pow2 (z : Z) : Q := (2 ^ z)%Q.

(** The binary exponent of [x > 0]: [2 ^ ilog2 x <= x < 2 ^ (ilog2 x + 1)]. *)
Definition ilog2 (x : Q) : Z :=
  let e := Z.log2 (Qnum x) - Z.log2 (Z.pos (Qden x)) in
  if Qle_bool (pow2 e) x then e else e - 1.

(** The integer nearest to [m], the even one on a tie. *)
Definition roundEven (m : Q) : Z :=
  let f := Qfloor m in
  match Qcompare (m - inject_Z f) (1 # 2) with
  | Lt => f
  | Gt => f + 1
  | Eq => if Z.even f then f else f + 1
  end.

(** The unit in the last place of the doubles around [x > 0]: 53
    significant bits, and the exponent of the subnormal numbers below
    [2 ^ -1022]. *)
Definition ulp (x : Q) : Q := pow2 (Z.max (ilog2 x) (-1022) - 52).

(** The double nearest to [x > 0]. *)
Definition nearest (x : Q) : Q :=
  (inject_Z (roundEven (x / ulp x)) * ulp x)%Q.

(** The double nearest to [x], for [x] of a magnitude below [2 ^ 1024]
    (beyond, the program's result is an infinity; no number of the
    embedding gets there). *)
Definition round64 (x : Q) : Q :=
  let y := Qred x in
  match Qcompare y 0 with
  | Eq => 0%Q
  | Gt => nearest y
  | Lt => (- nearest (- y))%Q
  end.

(** [x] is the value of a double. *)
Definition double (x : Q) : Prop := (round64 x == x)%Q.

End Num.

(** ** Silent WAV synthesis *)

Module Wav.

(** A [Blob]: its bytes (each in 0..255) and its MIME type. *)
Record Blob := { blobBytes : list Z; blobType : string }.

(** [new ArrayBuffer(n)]: [n] zero bytes. *)
Definition ArrayBuffer (n : Z) : list Z := replicate (Z.to_nat n) 0.

(** [DataView] setters.  A write outside the buffer raises a
    [RangeError], modelled as [None]. *)
Definition setUint8 (off : nat) (v : Z) (view : list Z) : option (list Z) :=
  if decide (off + 1 <= length view)%nat
  then Some (<[off := v mod 256]> view)
  else None.

(** [setUint16(off, v, true)]: little endian. *)
Definition setUint16 (off : nat) (v : Z) (view : list Z) : option (list Z) :=
  if decide (off + 2 <= length view)%nat
  then
    let w := v mod 2 ^ 16 in
    Some (<[off + 1 := Z.land (Z.shiftr w 8) 255]>
            (<[off := Z.land w 255]> view))%nat
  else None.

(** [setUint32(off, v, true)]: little endian. *)
Definition setUint32 (off : nat) (v : Z) (view : list Z) : option (list Z) :=
  if decide (off + 4 <= length view)%nat
  then
    let w := v mod 2 ^ 32 in
    Some (<[off + 3 := Z.land (Z.shiftr w 24) 255]>
            (<[off + 2 := Z.land (Z.shiftr w 16) 255]>
               (<[off + 1 := Z.land (Z.shiftr w 8) 255]>
                  (<[off := Z.land w 255]> view))))%nat
  else None.

(** [setInt16(off, v, true)]: the two's complement encoding of a 16-bit
    value has the same bytes as the unsigned write of [v mod 2^16]. *)
Definition setInt16 (off : nat) (v : Z) (view : list Z) : option (list Z) :=
  setUint16 off v view.

(** The [DataView] together with the running [offset] that the three local
    writers of [createWavSilence] share. *)
Record Writer := { view : list Z; offset : nat }.

(** [s.charCodeAt(i)] for every [i], in order. *)
Definition charCodes (s : string) : list Z :=
  map (fun c => Z.of_N (Ascii.N_of_ascii c)) (String.list_ascii_of_string s).

(** The loop of [writeString]: [view.setUint8(offset + i, s.charCodeAt(i))]
    for [i] from the current index on. *)
Fixpoint writeChars (off i : nat) (codes : list Z) (v : list Z)
  : option (list Z) :=
  match codes with
  | [] => Some v
  | c :: rest => v' ← setUint8 (off + i) c v; writeChars off (S i) rest v'
  end.

Definition writeString (s : string) (w : Writer) : option Writer :=
  v ← writeChars (offset w) 0 (charCodes s) (view w);
  Some {| view := v; offset := offset w + String.length s |}.

Definition writeUint32 (x : Z) (w : Writer) : option Writer :=
  v ← setUint32 (offset w) x (view w);
  Some {| view := v; offset := offset w + 4 |}.

Definition writeUint16 (x : Z) (w : Writer) : option Writer :=
  v ← setUint16 (offset w) x (view w);
  Some {| view := v; offset := offset w + 2 |}.

(** The sample loop: [for (i = 0; i < frameCount; i++)
    view.setInt16(44 + i * 2, 0, true)], with [todo] iterations left. *)
Fixpoint writeSamples (i todo : nat) (v : list Z) : option (list Z) :=
  match todo with
  | O => Some v
  | S todo' => v' ← setInt16 (44 + i * 2) 0 v; writeSamples (S i) todo' v'
  end.

Definition sampleRate : Z := 44100.
Definition numChannels : Z := 1.
Definition bitsPerSample : Z := 16.

(** [frameCount = Math.max(0, Math.floor(seconds * sampleRate))]; the
    product is a double. *)
Definition frameCount (seconds : Q) : Z :=
  Z.max 0 (Num.floor (Num.round64 (seconds * inject_Z sampleRate))).

Definition byteRate : Z := sampleRate * numChannels * bitsPerSample / 8.
Definition blockAlign : Z := numChannels * bitsPerSample / 8.
Definition dataSize (seconds : Q) : Z := frameCount seconds * blockAlign.

(** [createWavSilence(seconds)]. *)
Definition createWavSilence (seconds : Q) : option Blob :=
  let buffer := ArrayBuffer (44 + dataSize seconds) in
  let w := {| view := buffer; offset := 0 |} in
  (* RIFF header *)
  w ← writeString "RIFF" w;
  w ← writeUint32 (36 + dataSize seconds) w;
  w ← writeString "WAVE" w;
  (* fmt subchunk *)
  w ← writeString "fmt " w;
  w ← writeUint32 16 w;
  w ← writeUint16 1 w;
  w ← writeUint16 numChannels w;
  w ← writeUint32 sampleRate w;
  w ← writeUint32 byteRate w;
  w ← writeUint16 blockAlign w;
  w ← writeUint16 bitsPerSample w;
  (* data subchunk *)
  w ← writeString "data" w;
  w ← writeUint32 (dataSize seconds) w;
  (* samples *)
  v ← writeSamples 0 (Z.to_nat (frameCount seconds)) (view w);
  Some {| blobBytes := v; blobType := "audio/wav" |}.

(** The four little-endian bytes of a 32-bit field. *)
Definition le32 (x : Z) : list Z :=
  let w := x mod 2 ^ 32 in
  [Z.land w 255; Z.land (Z.shiftr w 8) 255;
   Z.land (Z.shiftr w 16) 255; Z.land (Z.shiftr w 24) 255].

(** The two little-endian bytes of a 16-bit field. *)
Definition le16 (x : Z) : list Z :=
  let w := x mod 2 ^ 16 in [Z.land w 255; Z.land (Z.shiftr w 8) 255].

(** [bs] laid over [v] from index [off] on; the setters are stated with it
    in the proofs. *)
Fixpoint overlay (off : nat) (bs v : list Z) : list Z :=
  match bs with
  | [] => v
  | b :: rest => overlay (S off) rest (<[off := b]> v)
  end.

(** The 44 header bytes of a canonical PCM container with [n] data bytes:
    "RIFF", chunk size, "WAVE", "fmt ", 16, format 1 (PCM), 1 channel,
    44100 Hz, byte rate 88200, block align 2, 16 bits, "data", [n]. *)
Definition pcmHeader (n : Z) : list Z :=
  [82; 73; 70; 70] ++ le32 (36 + n) ++ [87; 65; 86; 69] ++
  [102; 109; 116; 32] ++ [16; 0; 0; 0] ++ [1; 0] ++ [1; 0] ++
  [68; 172; 0; 0] ++ [136; 88; 1; 0] ++ [2; 0] ++ [16; 0] ++
  [100; 97; 116; 97] ++ le32 n.

(** Readers used to decode header fields (little endian). *)
Definition getUint16 (off : nat) (v : list Z) : option Z :=
  b0 ← v !! off; b1 ← v !! (off + 1)%nat; Some (b0 + 256 * b1).

Definition getUint32 (off : nat) (v : list Z) : option Z :=
  b0 ← v !! off; b1 ← v !! (off + 1)%nat;
  b2 ← v !! (off + 2)%nat; b3 ← v !! (off + 3)%nat;
  Some (b0 + 256 * (b1 + 256 * (b2 + 256 * b3))).

End Wav.

(** ** The player component *)

Module Player.

(** [type Track = { name: string; url: string }]. *)
Record Track := { name : string; url : string }.

(** A user-supplied [File]: a [Blob] with a name. *)
Record File := { fileName : string; fileBlob : Wav.Blob }.

(** [type PlayOptions = { revokeOnEnd?: boolean; title?: string }];
    an absent [revokeOnEnd] is falsy. *)
Record PlayOptions := { revokeOnEnd : bool; title : option string }.

(** The part of the [<audio>] element the component reads or writes. *)
Record Audio := { src : string; paused : bool; audioVolume : Q }.

(** Host calls, in the order they are made. *)
Inductive Effect :=
| ECreateObjectURL (u : string)
| ERevokeObjectURL (u : string)
| ESetSrc (u : string)
| EPlay (accepted : bool)
| EPause
| ERequestAnimationFrame (id : positive)
| ECancelAnimationFrame (id : positive)
| ESetMetadata (t : string).

(** The [useState] values of the component. *)
Record Hooks := {
  tracks : list Track;
  running : bool;
  minGapSec : Q;
  maxGapSec : Q;
  volume : Q;
  currentTitle : string;
  silenceRemainingMs : Q;
  currentTime : Q;
  duration : Q;
  showGlitch : bool
}.

(** The [useRef] cells of the component. *)
Record Refs := {
  audioRef : option Audio;
  currentIsSilenceRef : bool;
  pendingRevokeRef : option string;
  currentMusicUrlRef : option string;
  lastPlayedUrlRef : option string;
  silenceStartRef : Q;
  silenceDurRef : Q;
  rafRef : option positive
}.

(** The state values a callback closes over: those of the render that
    created it. *)
Record Render := {
  r_tracks : list Track;
  r_running : bool;
  r_minGapSec : Q;
  r_maxGapSec : Q;
  r_volume : Q
}.

(** Host state: the object URL registry, the scheduled animation-frame
    callbacks (each [tick] closure with the [running] it captured), the
    counters from which fresh URLs and frame handles are minted, whether
    [navigator.mediaSession] exists, and the effect log.  Frame handles
    are positive, as the HTML standard requires. *)
Record Host := {
  objectUrls : gmap string Wav.Blob;
  frames : gmap positive bool;
  nextUrl : nat;
  nextFrame : positive;
  hasMediaSession : bool;
  log : list Effect
}.

Record State := {
  ui : Hooks;
  refs : Refs;
  host : Host;
  (** the render whose callbacks the media-session handlers hold:
      [attachMediaHandlers] is re-created only when [running] changes *)
  mediaHandlers : Render
}.

Inductive Phase := Idle | PlayingTrack | PlayingGap.

(** The phase is derived: not running is [Idle]; while running,
    [currentIsSilenceRef] tells a gap from a track. *)
Definition phase (st : State) : Phase :=
  if running (ui st)
  then if currentIsSilenceRef (refs st) then PlayingGap else PlayingTrack
  else Idle.

Definition render (u : Hooks) : Render :=
  {| r_tracks := tracks u; r_running := running u;
     r_minGapSec := minGapSec u; r_maxGapSec := maxGapSec u;
     r_volume := volume u |}.

(** *** Field updates *)

Definition upd_ui (f : Hooks -> Hooks) (st : State) : State :=
  {| ui := f (ui st); refs := refs st; host := host st;
     mediaHandlers := mediaHandlers st |}.
Definition upd_refs (f : Refs -> Refs) (st : State) : State :=
  {| ui := ui st; refs := f (refs st); host := host st;
     mediaHandlers := mediaHandlers st |}.
Definition upd_host (f : Host -> Host) (st : State) : State :=
  {| ui := ui st; refs := refs st; host := f (host st);
     mediaHandlers := mediaHandlers st |}.

Definition setTracks (v : list Track) : State -> State :=
  upd_ui (fun u =>
    {| tracks := v; running := running u; minGapSec := minGapSec u;
       maxGapSec := maxGapSec u; volume := volume u;
       currentTitle := currentTitle u;
       silenceRemainingMs := silenceRemainingMs u;
       currentTime := currentTime u; duration := duration u;
       showGlitch := showGlitch u |}).
Definition setRunningValue (v : bool) : State -> State :=
  upd_ui (fun u =>
    {| tracks := tracks u; running := v; minGapSec := minGapSec u;
       maxGapSec := maxGapSec u; volume := volume u;
       currentTitle := currentTitle u;
       silenceRemainingMs := silenceRemainingMs u;
       currentTime := currentTime u; duration := duration u;
       showGlitch := showGlitch u |}).
Definition setMinGapSec (v : Q) : State -> State :=
  upd_ui (fun u =>
    {| tracks := tracks u; running := running u; minGapSec := v;
       maxGapSec := maxGapSec u; volume := volume u;
       currentTitle := currentTitle u;
       silenceRemainingMs := silenceRemainingMs u;
       currentTime := currentTime u; duration := duration u;
       showGlitch := showGlitch u |}).
Definition setMaxGapSec (v : Q) : State -> State :=
  upd_ui (fun u =>
    {| tracks := tracks u; running := running u; minGapSec := minGapSec u;
       maxGapSec := v; volume := volume u;
       currentTitle := currentTitle u;
       silenceRemainingMs := silenceRemainingMs u;
       currentTime := currentTime u; duration := duration u;
       showGlitch := showGlitch u |}).
Definition setVolume (v : Q) : State -> State :=
  upd_ui (fun u =>
    {| tracks := tracks u; running := running u; minGapSec := minGapSec u;
       maxGapSec := maxGapSec u; volume := v;
       currentTitle := currentTitle u;
       silenceRemainingMs := silenceRemainingMs u;
       currentTime := currentTime u; duration := duration u;
       showGlitch := showGlitch u |}).
Definition setCurrentTitle (v : string) : State -> State :=
  upd_ui (fun u =>
    {| tracks := tracks u; running := running u; minGapSec := minGapSec u;
       maxGapSec := maxGapSec u; volume := volume u;
       currentTitle := v;
       silenceRemainingMs := silenceRemainingMs u;
       currentTime := currentTime u; duration := duration u;
       showGlitch := showGlitch u |}).
Definition setSilenceRemainingMs (v : Q) : State -> State :=
  upd_ui (fun u =>
    {| tracks := tracks u; running := running u; minGapSec := minGapSec u;
       maxGapSec := maxGapSec u; volume := volume u;
       currentTitle := currentTitle u;
       silenceRemainingMs := v;
       currentTime := currentTime u; duration := duration u;
       showGlitch := showGlitch u |}).
Definition setCurrentTime (v : Q) : State -> State :=
  upd_ui (fun u =>
    {| tracks := tracks u; running := running u; minGapSec := minGapSec u;
       maxGapSec := maxGapSec u; volume := volume u;
       currentTitle := currentTitle u;
       silenceRemainingMs := silenceRemainingMs u;
       currentTime := v; duration := duration u;
       showGlitch := showGlitch u |}).
Definition setDuration (v : Q) : State -> State :=
  upd_ui (fun u =>
    {| tracks := tracks u; running := running u; minGapSec := minGapSec u;
       maxGapSec := maxGapSec u; volume := volume u;
       currentTitle := currentTitle u;
       silenceRemainingMs := silenceRemainingMs u;
       currentTime := currentTime u; duration := v;
       showGlitch := showGlitch u |}).
Definition setShowGlitch (v : bool) : State -> State :=
  upd_ui (fun u =>
    {| tracks := tracks u; running := running u; minGapSec := minGapSec u;
       maxGapSec := maxGapSec u; volume := volume u;
       currentTitle := currentTitle u;
       silenceRemainingMs := silenceRemainingMs u;
       currentTime := currentTime u; duration := duration u;
       showGlitch := v |}).

Definition setAudio (v : option Audio) : State -> State :=
  upd_refs (fun r =>
    {| audioRef := v; currentIsSilenceRef := currentIsSilenceRef r;
       pendingRevokeRef := pendingRevokeRef r;
       currentMusicUrlRef := currentMusicUrlRef r;
       lastPlayedUrlRef := lastPlayedUrlRef r;
       silenceStartRef := silenceStartRef r;
       silenceDurRef := silenceDurRef r; rafRef := rafRef r |}).
Definition setCurrentIsSilence (v : bool) : State -> State :=
  upd_refs (fun r =>
    {| audioRef := audioRef r; currentIsSilenceRef := v;
       pendingRevokeRef := pendingRevokeRef r;
       currentMusicUrlRef := currentMusicUrlRef r;
       lastPlayedUrlRef := lastPlayedUrlRef r;
       silenceStartRef := silenceStartRef r;
       silenceDurRef := silenceDurRef r; rafRef := rafRef r |}).
Definition setPendingRevoke (v : option string) : State -> State :=
  upd_refs (fun r =>
    {| audioRef := audioRef r; currentIsSilenceRef := currentIsSilenceRef r;
       pendingRevokeRef := v;
       currentMusicUrlRef := currentMusicUrlRef r;
       lastPlayedUrlRef := lastPlayedUrlRef r;
       silenceStartRef := silenceStartRef r;
       silenceDurRef := silenceDurRef r; rafRef := rafRef r |}).
Definition setCurrentMusicUrl (v : option string) : State -> State :=
  upd_refs (fun r =>
    {| audioRef := audioRef r; currentIsSilenceRef := currentIsSilenceRef r;
       pendingRevokeRef := pendingRevokeRef r;
       currentMusicUrlRef := v;
       lastPlayedUrlRef := lastPlayedUrlRef r;
       silenceStartRef := silenceStartRef r;
       silenceDurRef := silenceDurRef r; rafRef := rafRef r |}).
Definition setLastPlayedUrl (v : option string) : State -> State :=
  upd_refs (fun r =>
    {| audioRef := audioRef r; currentIsSilenceRef := currentIsSilenceRef r;
       pendingRevokeRef := pendingRevokeRef r;
       currentMusicUrlRef := currentMusicUrlRef r;
       lastPlayedUrlRef := v;
       silenceStartRef := silenceStartRef r;
       silenceDurRef := silenceDurRef r; rafRef := rafRef r |}).
Definition setSilenceStart (v : Q) : State -> State :=
  upd_refs (fun r =>
    {| audioRef := audioRef r; currentIsSilenceRef := currentIsSilenceRef r;
       pendingRevokeRef := pendingRevokeRef r;
       currentMusicUrlRef := currentMusicUrlRef r;
       lastPlayedUrlRef := lastPlayedUrlRef r;
       silenceStartRef := v;
       silenceDurRef := silenceDurRef r; rafRef := rafRef r |}).
Definition setSilenceDur (v : Q) : State -> State :=
  upd_refs (fun r =>
    {| audioRef := audioRef r; currentIsSilenceRef := currentIsSilenceRef r;
       pendingRevokeRef := pendingRevokeRef r;
       currentMusicUrlRef := currentMusicUrlRef r;
       lastPlayedUrlRef := lastPlayedUrlRef r;
       silenceStartRef := silenceStartRef r;
       silenceDurRef := v; rafRef := rafRef r |}).
Definition setRaf (v : option positive) : State -> State :=
  upd_refs (fun r =>
    {| audioRef := audioRef r; currentIsSilenceRef := currentIsSilenceRef r;
       pendingRevokeRef := pendingRevokeRef r;
       currentMusicUrlRef := currentMusicUrlRef r;
       lastPlayedUrlRef := lastPlayedUrlRef r;
       silenceStartRef := silenceStartRef r;
       silenceDurRef := silenceDurRef r; rafRef := v |}).

Definition setObjectUrls (v : gmap string Wav.Blob) : State -> State :=
  upd_host (fun h =>
    {| objectUrls := v; frames := frames h; nextUrl := nextUrl h;
       nextFrame := nextFrame h; hasMediaSession := hasMediaSession h;
       log := log h |}).
Definition setFrames (v : gmap positive bool) : State -> State :=
  upd_host (fun h =>
    {| objectUrls := objectUrls h; frames := v; nextUrl := nextUrl h;
       nextFrame := nextFrame h; hasMediaSession := hasMediaSession h;
       log := log h |}).
Definition setNextUrl (v : nat) : State -> State :=
  upd_host (fun h =>
    {| objectUrls := objectUrls h; frames := frames h; nextUrl := v;
       nextFrame := nextFrame h; hasMediaSession := hasMediaSession h;
       log := log h |}).
Definition setNextFrame (v : positive) : State -> State :=
  upd_host (fun h =>
    {| objectUrls := objectUrls h; frames := frames h; nextUrl := nextUrl h;
       nextFrame := v; hasMediaSession := hasMediaSession h;
       log := log h |}).
Definition emit (e : Effect) : State -> State :=
  upd_host (fun h =>
    {| objectUrls := objectUrls h; frames := frames h; nextUrl := nextUrl h;
       nextFrame := nextFrame h; hasMediaSession := hasMediaSession h;
       log := log h ++ [e] |}).
Definition setMediaHandlers (v : Render) (st : State) : State :=
  {| ui := ui st; refs := refs st; host := host st; mediaHandlers := v |}.

(** *** Host calls *)

(** JavaScript truthiness of a [string | null]: [null] and the empty
    string are falsy. *)
Definition truthy (o : option string) : bool :=
  match o with
  | Some s => negb (String.eqb s "")
  | None => false
  end.

(** The URL minted by the [n]-th call of [URL.createObjectURL]: fresh and
    non-empty.  Browsers mint [blob:<origin>/<uuid>]; a counter stands for
    the unique part. *)
Definition blobUrl (n : nat) : string := "blob:" +:+ pretty n.

(** [URL.createObjectURL(blob)]. *)
Definition createObjectURL (b : Wav.Blob) (st : State) : string * State :=
  let u := blobUrl (nextUrl (host st)) in
  (u, emit (ECreateObjectURL u)
        (setNextUrl (S (nextUrl (host st)))
           (setObjectUrls (<[u := b]> (objectUrls (host st))) st))).

(** [URL.revokeObjectURL(url)]. *)
Definition revokeObjectURL (u : string) (st : State) : State :=
  emit (ERevokeObjectURL u)
    (setObjectUrls (delete u (objectUrls (host st))) st).

(** [requestAnimationFrame(tick)], where [tick] captured [captured] as its
    [running]. *)
Definition requestAnimationFrame (captured : bool) (st : State)
  : positive * State :=
  let id := nextFrame (host st) in
  (id, emit (ERequestAnimationFrame id)
         (setNextFrame (Pos.succ id)
            (setFrames (<[id := captured]> (frames (host st))) st))).

(** [cancelAnimationFrame(id)]. *)
Definition cancelAnimationFrame (id : positive) (st : State) : State :=
  emit (ECancelAnimationFrame id)
    (setFrames (delete id (frames (host st))) st).

(** [audio?.pause()]. *)
Definition pauseAudio (st : State) : State :=
  match audioRef (refs st) with
  | None => st
  | Some a =>
      emit EPause
        (setAudio (Some {| src := src a; paused := true;
                           audioVolume := audioVolume a |}) st)
  end.

(** [setRunning(v)].  When the value changes, the component re-renders
    with a new [running], and the effect that attaches the media-session
    handlers runs again with the callbacks of that render. *)
Definition setRunning (v : bool) (st : State) : State :=
  if Bool.eqb (running (ui st)) v then st
  else
    let st := setRunningValue v st in
    setMediaHandlers (render (ui st)) st.

(** *** Helpers of the source file *)

(** [pickRandom(items)] with [r] the value of [Math.random()]. *)
Definition pickRandom {T : Type} (items : list T) (r : Q) : option T :=
  if (length items =? 0)%nat then None
  else
    let idx := Num.floor (r * inject_Z (Z.of_nat (length items))) in
    if idx <? 0 then None else items !! Z.to_nat idx.

(** [x.toFixed(1)]: the decimal with one fractional digit nearest to [x],
    the larger one on a tie of the absolute value. *)
Definition toFixed1 (x : Q) : string :=
  let digits (y : Q) :=
    let n := Qfloor (y * inject_Z 10 + (1 # 2)) in
    pretty (n / 10) +:+ "." +:+ pretty (n mod 10) in
  if Qle_bool 0 x then digits x else "-" +:+ digits (- x)%Q.

(** [hay.includes(needle)]. *)
Fixpoint includes (needle hay : string) : bool :=
  String.prefix needle hay ||
  match hay with
  | EmptyString => false
  | String _ rest => includes needle rest
  end.

(** [makeSilenceWavUrl(seconds)].  [None] stands for an exception raised by
    [createWavSilence]. *)
Definition makeSilenceWavUrl (seconds : Q) (st : State)
  : option (string * State) :=
  let s := Num.clamp seconds 0 (inject_Z 3600) in
  blob ← Wav.createWavSilence s;
  Some (createObjectURL blob st).

(** The container behind the URL that [makeSilenceWavUrl] returns. *)
Definition silenceContainer (seconds : Q) (st : State) : option Wav.Blob :=
  '(u, st') ← makeSilenceWavUrl seconds st;
  objectUrls (host st') !! u.

(** *** Callbacks of the component *)

(** [cleanupPendingRevoke]. *)
Definition cleanupPendingRevoke (st : State) : State :=
  match pendingRevokeRef (refs st) with
  | Some u =>
      if truthy (Some u)
      then setPendingRevoke None (revokeObjectURL u st)
      else st
  | None => st
  end.

(** [setMediaMetadata(title)]. *)
Definition setMediaMetadata (t : string) (st : State) : State :=
  if hasMediaSession (host st) then emit (ESetMetadata t) st else st.

(** [playSrc(url, opts)], with [accepted] telling whether the promise of
    [audio.play()] resolves ([true]) or rejects ([false]).  The timer that
    clears the glitch effect two seconds later is the separate transition
    [glitchTimeout]. *)
Definition playSrc (rd : Render) (u : string) (opts : PlayOptions)
    (accepted : bool) (st : State) : State :=
  match audioRef (refs st) with
  | None => st
  | Some audio =>
      let st := cleanupPendingRevoke st in
      let st := emit (ESetSrc u)
                  (setAudio (Some {| src := u; paused := paused audio;
                                     audioVolume := r_volume rd |}) st) in
      let st := emit (EPlay accepted) st in
      if accepted then
        let st := setAudio (Some {| src := u; paused := false;
                                    audioVolume := r_volume rd |}) st in
        let st :=
          if match title opts with
             | Some t => includes "Silence" t
             | None => false
             end
          then st else setShowGlitch true st in
        let st :=
          if revokeOnEnd opts then setPendingRevoke (Some u) st else st in
        if truthy (title opts)
        then
          let t := default "" (title opts) in
          setMediaMetadata t (setCurrentTitle t st)
        else st
      else setRunning false st
  end.

(** [playRandomTrack()], with [r] the value of [Math.random()]. *)
Definition playRandomTrack (rd : Render) (r : Q) (accepted : bool)
    (st : State) : State :=
  if (length (r_tracks rd) =? 0)%nat then st
  else
    let lastUrl := lastPlayedUrlRef (refs st) in
    let pool :=
      if truthy lastUrl && (1 <? length (r_tracks rd))%nat
      then filter (fun tr => Some (url tr) ≠ lastUrl) (r_tracks rd)
      else r_tracks rd in
    match pickRandom pool r with
    | None => st
    | Some t =>
        let st := setCurrentIsSilence false st in
        let st := setCurrentMusicUrl (Some (url t)) st in
        let st := setLastPlayedUrl (Some (url t)) st in
        playSrc rd (url t)
          {| revokeOnEnd := false; title := Some (name t) |} accepted st
    end.

(** The gap duration of [playSilenceThenNext], in seconds. *)
Definition gapDuration (minGap maxGap r : Q) : Q :=
  let lo := Num.min minGap maxGap in
  let hi := Num.max minGap maxGap in
  Num.clamp (lo + r * (hi - lo)) 0 (inject_Z 3600).

(** [tick], the progress callback created by [playSilenceThenNext];
    [captured] is the [running] of the render that created the enclosing
    callback and [now] the value of [performance.now()]. *)
Definition tick (captured : bool) (now : Q) (st : State) : State :=
  let elapsed := (now - silenceStartRef (refs st))%Q in
  let remain := Num.max 0 (silenceDurRef (refs st) - elapsed) in
  let st := setSilenceRemainingMs remain st in
  if negb (Qle_bool remain 0) && currentIsSilenceRef (refs st) && captured
  then
    let '(id, st) := requestAnimationFrame captured st in
    setRaf (Some id) st
  else setRaf None st.

(** [playSilenceThenNext()], with [r] the value of [Math.random()] and
    [now] the value of [performance.now()]. *)
Definition playSilenceThenNext (rd : Render) (r now : Q) (accepted : bool)
    (st : State) : State :=
  let dur := gapDuration (r_minGapSec rd) (r_maxGapSec rd) r in
  match makeSilenceWavUrl dur st with
  | None => st
  | Some (silenceUrl, st) =>
      let st := setCurrentIsSilence true st in
      let st := setCurrentMusicUrl None st in
      let st := setSilenceStart now st in
      let st := setSilenceDur (dur * inject_Z 1000) st in
      let st := setSilenceRemainingMs (silenceDurRef (refs st)) st in
      let st :=
        match rafRef (refs st) with
        | Some id => cancelAnimationFrame id st
        | None => st
        end in
      let '(id, st) := requestAnimationFrame (r_running rd) st in
      let st := setRaf (Some id) st in
      playSrc rd silenceUrl
        {| revokeOnEnd := true;
           title := Some ("Silence " +:+ toFixed1 dur +:+ "s") |}
        accepted st
  end.

(** The ['ended'] listener.  It is attached only when the audio element
    exists, and closes over the current render. *)
Definition onEnded (r now : Q) (accepted : bool) (st : State) : State :=
  let rd := render (ui st) in
  match audioRef (refs st) with
  | None => st
  | Some _ =>
      if negb (r_running rd) then st
      else if currentIsSilenceRef (refs st)
      then playRandomTrack rd r accepted (setSilenceRemainingMs 0 st)
      else playSilenceThenNext rd r now accepted st
  end.

(** The ['timeupdate'] listener; [t] is [audio.currentTime] and [d] is
    [audio.duration || 0]. *)
Definition onTimeUpdate (t d : Q) (st : State) : State :=
  match audioRef (refs st) with
  | None => st
  | Some _ =>
      if negb (currentIsSilenceRef (refs st))
      then setDuration d (setCurrentTime t st)
      else st
  end.

(** The ['loadedmetadata'] listener; [d] is [audio.duration || 0]. *)
Definition onLoadedMetadata (d : Q) (st : State) : State :=
  match audioRef (refs st) with
  | None => st
  | Some _ => setDuration d st
  end.

(** [onStart]. *)
Definition onStart (r : Q) (accepted : bool) (st : State) : State :=
  let rd := render (ui st) in
  if r_running rd || (length (r_tracks rd) =? 0)%nat then st
  else
    let st := setRunning true st in
    match audioRef (refs st) with
    | None => st
    | Some _ => playRandomTrack rd r accepted st
    end.

(** [onStop]. *)
Definition onStop (st : State) : State :=
  let st := setRunning false st in
  let st := pauseAudio st in
  let st :=
    match rafRef (refs st) with
    | Some id => cancelAnimationFrame id st
    | None => st
    end in
  let st := setRaf None st in
  let st := setSilenceRemainingMs 0 st in
  let st := setCurrentTime 0 st in
  setDuration 0 st.

(** The loop of [onFiles]: a file whose name some track of the rendered
    pool carries is skipped; every other file gets an object URL and is
    pushed on [newTracks]. *)
Fixpoint collectNewTracks (pool : list Track) (fileList : list File)
    (newTracks : list Track) (st : State) : list Track * State :=
  match fileList with
  | [] => (newTracks, st)
  | f :: rest =>
      let isDuplicate :=
        existsb (fun track => String.eqb (name track) (fileName f)) pool in
      if negb isDuplicate
      then
        let '(u, st) := createObjectURL (fileBlob f) st in
        collectNewTracks pool rest
          (newTracks ++ [{| name := fileName f; url := u |}]) st
      else collectNewTracks pool rest newTracks st
  end.

(** [onFiles(files)]; [None] is [null]. *)
Definition onFiles (files : option (list File)) (st : State) : State :=
  match files with
  | None => st
  | Some fileList =>
      if (length fileList =? 0)%nat then st
      else
        let '(newTracks, st) :=
          collectNewTracks (r_tracks (render (ui st))) fileList [] st in
        setTracks (tracks (ui st) ++ newTracks) st
  end.

(** [for (const t of prev) URL.revokeObjectURL(t.url)]. *)
Definition revokeAll (ts : list Track) (st : State) : State :=
  fold_left (fun st t => revokeObjectURL (url t) st) ts st.

(** [clearFiles].  The updater of [setTracks] runs with the next render,
    after the other statements; it is placed first here, which gives the
    same state and differs only in the order of the host calls in the
    log. *)
Definition clearFiles (st : State) : State :=
  let st := setTracks [] (revokeAll (tracks (ui st)) st) in
  let st := setLastPlayedUrl None st in
  let st := setRunning false st in
  let st := pauseAudio st in
  let st :=
    match rafRef (refs st) with
    | Some id => cancelAnimationFrame id st
    | None => st
    end in
  let st := setRaf None st in
  setSilenceRemainingMs 0 st.

(** [skipTrack]. *)
Definition skipTrack (r now : Q) (accepted : bool) (st : State) : State :=
  let rd := render (ui st) in
  if negb (r_running rd) || negb (bool_decide (is_Some (audioRef (refs st))))
  then st
  else
    let st := pauseAudio st in
    if currentIsSilenceRef (refs st)
    then playRandomTrack rd r accepted st
    else playSilenceThenNext rd r now accepted st.

(** The number inputs: [setMinGapSec(clamp(Number(value), 0, 3600))] and
    the like; [v] is [Number(e.target.value)]. *)
Definition onChangeMinGap (v : Q) (st : State) : State :=
  setMinGapSec (Num.clamp v 0 (inject_Z 3600)) st.
Definition onChangeMaxGap (v : Q) (st : State) : State :=
  setMaxGapSec (Num.clamp v 0 (inject_Z 3600)) st.
Definition onChangeVolume (v : Q) (st : State) : State :=
  setVolume (Num.clamp v 0 1) st.

(** The timer started by [playSrc]: [setShowGlitch(false)]. *)
Definition glitchTimeout (st : State) : State := setShowGlitch false st.

(** An animation frame fires: the callback scheduled under [id], if any,
    leaves the queue and runs. *)
Definition animationFrame (id : positive) (now : Q) (st : State) : State :=
  match frames (host st) !! id with
  | None => st
  | Some captured =>
      tick captured now (setFrames (delete id (frames (host st))) st)
  end.

(** The media-session action handlers.  They exist only when the host has
    [navigator.mediaSession], and run the callbacks of the render stored
    in [mediaHandlers].  In [msPlay] the rejection of [play()] is taken
    to arrive after the render that follows [setRunning(true)]. *)
Definition msPlay (accepted : bool) (st : State) : State :=
  if negb (hasMediaSession (host st)) then st
  else
    let rd := mediaHandlers st in
    let st := if negb (r_running rd) then setRunning true st else st in
    match audioRef (refs st) with
    | None => st
    | Some a =>
        let st := emit (EPlay accepted) st in
        if accepted
        then setAudio (Some {| src := src a; paused := false;
                               audioVolume := audioVolume a |}) st
        else setRunning false st
    end.

Definition msPause (st : State) : State :=
  if negb (hasMediaSession (host st)) then st
  else setRunning false (pauseAudio st).

Definition msNextTrack (r now : Q) (accepted : bool) (st : State) : State :=
  if negb (hasMediaSession (host st)) then st
  else
    let rd := mediaHandlers st in
    match audioRef (refs st) with
    | None => st
    | Some _ =>
        let st := pauseAudio st in
        if currentIsSilenceRef (refs st)
        then playRandomTrack rd r accepted st
        else playSilenceThenNext rd r now accepted st
    end.

Definition msPreviousTrack (r now : Q) (accepted : bool) (st : State)
  : State :=
  if negb (hasMediaSession (host st)) then st
  else
    let rd := mediaHandlers st in
    match audioRef (refs st) with
    | None => st
    | Some _ => playSilenceThenNext rd r now accepted (pauseAudio st)
    end.

(** The cleanup that runs when the component unmounts.  Its last
    statement, [setTracks(prev => ...)], only queues an update: React
    renders an unmounting component no more, so the updater, and with it
    the loop that would revoke the URL of every track, never runs. *)
Definition unmount (st : State) : State :=
  let st := cleanupPendingRevoke st in
  match currentMusicUrlRef (refs st) with
  | Some u =>
      if truthy (Some u)
      then setCurrentMusicUrl None (revokeObjectURL u st)
      else st
  | None => st
  end.

(** *** The component as a transition system *)

(** Everything that can happen to a mounted component, with the values
    the host supplies. *)
Inductive Op :=
| Files (files : option (list File))
| ClearFiles
| Start (r : Q) (accepted : bool)
| Stop
| Skip (r now : Q) (accepted : bool)
| Ended (r now : Q) (accepted : bool)
| TimeUpdate (t d : Q)
| LoadedMetadata (d : Q)
| AnimationFrame (id : positive) (now : Q)
| ChangeMinGap (v : Q)
| ChangeMaxGap (v : Q)
| ChangeVolume (v : Q)
| GlitchTimeout
| MsPlay (accepted : bool)
| MsPause
| MsNextTrack (r now : Q) (accepted : bool)
| MsPreviousTrack (r now : Q) (accepted : bool).

Definition step (op : Op) (st : State) : State :=
  match op with
  | Files files => onFiles files st
  | ClearFiles => clearFiles st
  | Start r accepted => onStart r accepted st
  | Stop => onStop st
  | Skip r now accepted => skipTrack r now accepted st
  | Ended r now accepted => onEnded r now accepted st
  | TimeUpdate t d => onTimeUpdate t d st
  | LoadedMetadata d => onLoadedMetadata d st
  | AnimationFrame id now => animationFrame id now st
  | ChangeMinGap v => onChangeMinGap v st
  | ChangeMaxGap v => onChangeMaxGap v st
  | ChangeVolume v => onChangeVolume v st
  | GlitchTimeout => glitchTimeout st
  | MsPlay accepted => msPlay accepted st
  | MsPause => msPause st
  | MsNextTrack r now accepted => msNextTrack r now accepted st
  | MsPreviousTrack r now accepted => msPreviousTrack r now accepted st
  end.

(** The random draw an operation consumes, if any, is a value of
    [Math.random()]. *)
Definition op_draws_ok (op : Op) : Prop :=
  match op with
  | Start r _ | Skip r _ _ | Ended r _ _
  | MsNextTrack r _ _ | MsPreviousTrack r _ _ => Num.unit_draw r
  | _ => True
  end.

(** The component right after it mounted, on a host with or without a
    media session. *)
Definition init (mediaSession : bool) : State :=
  let u :=
    {| tracks := []; running := false; minGapSec := inject_Z 3;
       maxGapSec := inject_Z 10; volume := 1; currentTitle := "";
       silenceRemainingMs := 0; currentTime := 0; duration := 0;
       showGlitch := false |} in
  {| ui := u;
     refs :=
       {| audioRef := Some {| src := ""; paused := true; audioVolume := 1 |};
          currentIsSilenceRef := false; pendingRevokeRef := None;
          currentMusicUrlRef := None; lastPlayedUrlRef := None;
          silenceStartRef := 0; silenceDurRef := 0; rafRef := None |};
     host :=
       {| objectUrls := ∅; frames := ∅; nextUrl := 0; nextFrame := 1;
          hasMediaSession := mediaSession; log := [] |};
     mediaHandlers := render u |}.

(** The states the component can be in. *)
Inductive reachable : State -> Prop :=
| reachable_init (mediaSession : bool) : reachable (init mediaSession)
| reachable_step (op : Op) (st : State) :
    reachable st -> op_draws_ok op -> reachable (step op st).

(** Running a list of operations, first to last. *)
Definition run (ops : list Op) (st : State) : State :=
  fold_left (fun st op => step op st) ops st.

(** *** Invariants of the reachable states *)

(** A gap configuration as the number inputs leave it. *)
Definition gap_ok (rd : Render) : Prop :=
  (0 <= r_minGapSec rd)%Q /\ (r_minGapSec rd <= inject_Z 3600)%Q /\
  (0 <= r_maxGapSec rd)%Q /\ (r_maxGapSec rd <= inject_Z 3600)%Q.

(** [u] is one of the first [n] URLs the host minted. *)
Definition minted (n : nat) (u : string) : Prop :=
  exists k, (k < n)%nat /\ u = blobUrl k.

Record Inv (st : State) : Prop := {
  (** the component is mounted *)
  inv_audio : is_Some (audioRef (refs st));
  inv_gap : gap_ok (render (ui st));
  inv_gap_ms : gap_ok (mediaHandlers st);
  (** tracks carry distinct URLs, minted by the host *)
  inv_urls : NoDup (url <$> tracks (ui st));
  inv_urls_ms : NoDup (url <$> r_tracks (mediaHandlers st));
  inv_minted :
    Forall (fun t => minted (nextUrl (host st)) (url t)) (tracks (ui st));
  (** the only scheduled progress callback is the one [rafRef] names *)
  inv_frames :
    forall id, is_Some (frames (host st) !! id) -> rafRef (refs st) = Some id;
  (** the pending-release slot names a live URL that is no track's *)
  inv_pending :
    forall u, pendingRevokeRef (refs st) = Some u ->
      minted (nextUrl (host st)) u /\
      (u ∉ (url <$> tracks (ui st))) /\
      is_Some (objectUrls (host st) !! u);
  (** the tracks the media-session handlers hold, and the last played
      URL, were minted by the host too *)
  inv_minted_ms :
    Forall (fun t => minted (nextUrl (host st)) (url t))
           (r_tracks (mediaHandlers st));
  inv_last :
    forall u, lastPlayedUrlRef (refs st) = Some u ->
      minted (nextUrl (host st)) u
}.

(** The attempts to start playback in an effect log. *)
Definition playAttempts (l : list Effect) : list bool :=
  omap (fun e => match e with EPlay a => Some a | _ => None end) l.

(** *** What the claims observe *)

(** Track [t] is the one now selected for playback: the refs name its URL
    as current and as last played, and the audio element has it as
    source. *)
Definition selected (st : State) (t : Track) : Prop :=
  lastPlayedUrlRef (refs st) = Some (url t) /\
  currentMusicUrlRef (refs st) = Some (url t) /\
  currentIsSilenceRef (refs st) = false /\
  src <$> audioRef (refs st) = Some (url t).

(** The renders a callback that starts playback can close over: the
    current one (buttons and audio events) or the one the media-session
    handlers hold. *)
Definition callback_render (st : State) (rd : Render) : Prop :=
  rd = render (ui st) \/ rd = mediaHandlers st.

(** *** Sample inputs *)

(** A file named [n]; its bytes play no part. *)
Definition sampleFile (n : string) : File :=
  {| fileName := n;
     fileBlob :=
       {| Wav.blobBytes := [73; 68; 51]; Wav.blobType := "audio/mpeg" |} |}.

(** One track registered, gaps of zero seconds, started, and the track
    has ended: the player is in the gap phase. *)
Definition gapScenario : list Op :=
  [Files (Some [sampleFile "a.mp3"]); ChangeMinGap 0; ChangeMaxGap 0;
   Start (1 # 2) true; Ended (1 # 2) 0 true].

(** Two tracks registered and started. *)
Definition twoTracks : list Op :=
  [Files (Some [sampleFile "a.mp3"; sampleFile "b.mp3"]); Start (1 # 2) true].

(** *** Display and controls *)

(** A JavaScript number as [formatTime] tells them apart: finite, or one
    of [NaN], [Infinity], [-Infinity]. *)
Inductive JsNumber := Finite (q : Q) | NonFinite.

(** [s.padStart(targetLength, c)] for a one-character filler [c]. *)
Definition padStart (targetLength : nat) (c : string) (s : string)
  : string :=
  Nat.iter (targetLength - String.length s) (fun t => c +:+ t) s.

(** [formatTime(seconds)].  The quotient [seconds / 60] is a double; the
    remainder [seconds % 60] is exact.  The integers [mins] and [secs]
    are printed in decimal, as [Number.prototype.toString] prints an
    integer below 2^53. *)
Definition formatTime (seconds : JsNumber) : string :=
  match seconds with
  | NonFinite => "0:00"
  | Finite s =>
      let mins := Num.floor (Num.round64 (s / inject_Z 60)) in
      let secs := Num.floor (Num.rem s (inject_Z 60)) in
      pretty mins +:+ ":" +:+ padStart 2 "0" (pretty secs)
  end.

(** [canStart], the memo that enables the Start button. *)
Definition canStart (st : State) : bool :=
  (0 <? length (tracks (ui st)))%nat && negb (running (ui st)).

(** The effect [audio.volume = volume], which runs after a render in
    which [volume] changed. *)
Definition volumeEffect (st : State) : State :=
  match audioRef (refs st) with
  | None => st
  | Some a =>
      setAudio (Some {| src := src a; paused := paused a;
                        audioVolume := volume (ui st) |}) st
  end.

(** Moving the volume slider: the change handler, then the effect. *)
Definition onVolumeInput (v : Q) (st : State) : State :=
  volumeEffect (onChangeVolume v st).

(** *** How a transition treats the object URL registry *)

(** From [st] to [st'], as far as the URLs minted before the [n]-th are
    concerned: the registry entry of a URL that is neither pending
    release nor a dropped track's is left alone, no such URL enters the
    pending-release slot, and no such URL becomes a track's. *)
Definition keeps (n : nat) (st st' : State) : Prop :=
  (nextUrl (host st) <= nextUrl (host st'))%nat /\
  hasMediaSession (host st') = hasMediaSession (host st) /\
  (forall k, minted n k ->
     pendingRevokeRef (refs st) <> Some k ->
     (k ∉ (url <$> tracks (ui st))) \/ (k ∈ (url <$> tracks (ui st'))) ->
     objectUrls (host st') !! k = objectUrls (host st) !! k) /\
  (forall k, minted n k ->
     pendingRevokeRef (refs st') = Some k ->
     pendingRevokeRef (refs st) = Some k) /\
  (forall k, minted n k ->
     k ∈ (url <$> tracks (ui st')) -> k ∈ (url <$> tracks (ui st))).

(** *** The volume slider among the operations *)

(** What happens to a mounted component when the volume slider, with its
    effect, is told apart from the bare change handler. *)
Inductive Event :=
| Operation (op : Op)
| VolumeInput (v : Q).

Definition fire (ev : Event) (st : State) : State :=
  match ev with
  | Operation op => step op st
  | VolumeInput v => onVolumeInput v st
  end.

Definition play (evs : list Event) (st : State) : State :=
  fold_left (fun st ev => fire ev st) evs st.

(** A value the [volume] attribute of an audio element accepts. *)
Definition volume_ok (q : Q) : Prop := (0 <= q)%Q /\ (q <= 1)%Q.

Definition VolumeInv (st : State) : Prop :=
  volume_ok (volume (ui st)) /\
  volume_ok (r_volume (mediaHandlers st)) /\
  forall a, audioRef (refs st) = Some a -> volume_ok (audioVolume a).

(** The media-session handlers test the [running] of the current
    render. *)
Definition Sync (st : State) : Prop :=
  r_running (mediaHandlers st) = running (ui st).

(** *** URLs the component has lost track of *)

(** The component holds no reference to the minted URL [u]: it is not
    pending release, not the current music, and no track's, neither in
    the pool nor in the pool the media-session handlers hold. *)
Definition unowned (u : string) (st : State) : Prop :=
  minted (nextUrl (host st)) u /\
  pendingRevokeRef (refs st) <> Some u /\
  currentMusicUrlRef (refs st) <> Some u /\
  (u ∉ (url <$> tracks (ui st))) /\
  (u ∉ (url <$> r_tracks (mediaHandlers st))).

(** *** The track list *)

(** [isCurrent], computed for every item of the rendered track list; the
    item's React key is [t.url]. *)
Definition isCurrent (st : State) (t : Track) : bool :=
  bool_decide (currentMusicUrlRef (refs st) = Some (url t)) &&
  running (ui st) && negb (currentIsSilenceRef (refs st)).

End Player.

(** ** The icon generator *)

(** [scripts/gen-icons.mjs]: the part of [main] that picks, from the bytes
    of [favicon.ico], the PNG image handed to the resizer. *)
Module GenIcons.

(** What [main] can throw before it has an image: the [RangeError] of a
    [DataView] read outside the file, or one of its own two errors. *)
Inductive Failure := RangeError | InvalidIcoHeader | NoPngImage.

(** [{ width, height, buffer }]. *)
Record Image := { width : Z; height : Z; buffer : list Z }.

(** [dv.getUint8(off)]. *)
Definition getUint8 (off : nat) (ico : list Z) : option Z := ico !! off.

(** [ico[i]]: [undefined], here [None], outside the file. *)
Definition byteAt (ico : list Z) (i : Z) : option Z :=
  if i <? 0 then None else ico !! Z.to_nat i.

(** [ico.subarray(start, end)] for indices that are not negative: both
    ends are cut to the length of the file. *)
Definition subarray (ico : list Z) (start end_ : Z) : list Z :=
  take (Z.to_nat (end_ - start)) (drop (Z.to_nat start) ico).

(** The fields the loop reads from the [i]-th directory entry. *)
Record Entry := { wByte : Z; hByte : Z; size : Z; offset : Z }.

Definition readEntry (ico : list Z) (i : nat) : option Entry :=
  let base := (6 + i * 16)%nat in
  w ← getUint8 (base + 0) ico;
  h ← getUint8 (base + 1) ico;
  s ← Wav.getUint32 (base + 8) ico;
  o ← Wav.getUint32 (base + 12) ico;
  Some {| wByte := w; hByte := h; size := s; offset := o |}.

Definition pngSignature : list Z := [137; 80; 78; 71; 13; 10; 26; 10].

(** [isPng]: the eight bytes at [offset] are the PNG signature. *)
Definition isPng (ico : list Z) (offset : Z) : bool :=
  bool_decide (byteAt ico (offset + 0) = Some 137) &&
  bool_decide (byteAt ico (offset + 1) = Some 80) &&
  bool_decide (byteAt ico (offset + 2) = Some 78) &&
  bool_decide (byteAt ico (offset + 3) = Some 71) &&
  bool_decide (byteAt ico (offset + 4) = Some 13) &&
  bool_decide (byteAt ico (offset + 5) = Some 10) &&
  bool_decide (byteAt ico (offset + 6) = Some 26) &&
  bool_decide (byteAt ico (offset + 7) = Some 10).

(** The image an entry describes: a zero size byte stands for 256. *)
Definition image (ico : list Z) (e : Entry) : Image :=
  {| width := if wByte e =? 0 then 256 else wByte e;
     height := if hByte e =? 0 then 256 else hByte e;
     buffer := subarray ico (offset e) (offset e + size e) |}.

Definition area (b : Image) : Z := width b * height b.

(** The loop [for (let i = 0; i < count; i++)], with [n] entries left to
    visit from index [i] on. *)
Fixpoint loop (ico : list Z) (n i : nat) (best : option Image)
  : Failure + option Image :=
  match n with
  | O => inr best
  | S n =>
      match readEntry ico i with
      | None => inl RangeError
      | Some e =>
          if negb (isPng ico (offset e)) then loop ico n (S i) best
          else
            let better :=
              match best with
              | None => true
              | Some b => area b <? area (image ico e)
              end in
            loop ico n (S i) (if better then Some (image ico e) else best)
      end
  end.

(** [best], when the loop is over and the check [if (!best)] has
    passed. *)
Definition best (ico : list Z) : Failure + Image :=
  match Wav.getUint16 0 ico, Wav.getUint16 2 ico, Wav.getUint16 4 ico with
  | Some reserved, Some type, Some count =>
      if negb (reserved =? 0) || negb (type =? 1) || (count =? 0)
      then inl InvalidIcoHeader
      else
        match loop ico (Z.to_nat count) 0 None with
        | inl f => inl f
        | inr None => inl NoPngImage
        | inr (Some b) => inr b
        end
  | _, _, _ => inl RangeError
  end.

(** [basePng], the bytes handed to the resizer. *)
Definition basePng (ico : list Z) : Failure + list Z :=
  match best ico with
  | inl f => inl f
  | inr b => inr (buffer b)
  end.

(** The header [main] accepts, with its number of entries. *)
Definition validHeader (ico : list Z) (count : Z) : Prop :=
  Wav.getUint16 0 ico = Some 0 /\ Wav.getUint16 2 ico = Some 1 /\
  Wav.getUint16 4 ico = Some count /\ count <> 0.

(** Entry [j] is readable and points at a PNG image. *)
Definition pngAt (ico : list Z) (j : nat) (e : Entry) : Prop :=
  readEntry ico j = Some e /\ isPng ico (offset e) = true.

Definition byte (b : Z) : Prop := 0 <= b < 256.

(** A file with one 16 by 16 PNG entry (the image cut to its
    signature). *)
Definition sampleIco : list Z :=
  [0; 0; 1; 0; 1; 0] ++
  [16; 16; 0; 0; 1; 0; 32; 0; 8; 0; 0; 0; 22; 0; 0; 0] ++
  pngSignature.

End GenIcons.

(** * Properties *)

Import Wav Player.

(** ** Numbers *)

Lemma min_spec (a b : Q) :
  (Num.min a b <= a)%Q /\ (Num.min a b <= b)%Q /\
  (Num.min a b = a \/ Num.min a b = b).
Proof.
  unfold Num.min. destruct (Qle_bool a b) eqn:E.
  - apply Qle_bool_iff in E. repeat split; [lra | lra | by left].
  - assert (~ (a <= b)%Q) by (rewrite <- Qle_bool_iff; congruence).
    repeat split; [lra | lra | by right].
Qed.

Lemma max_spec (a b : Q) :
  (a <= Num.max a b)%Q /\ (b <= Num.max a b)%Q /\
  (Num.max a b = a \/ Num.max a b = b).
Proof.
  unfold Num.max. destruct (Qle_bool a b) eqn:E.
  - apply Qle_bool_iff in E. repeat split; [lra | lra | by right].
  - assert (~ (a <= b)%Q) by (rewrite <- Qle_bool_iff; congruence).
    repeat split; [lra | lra | by left].
Qed.

Ltac split_min_max :=
  repeat match goal with
  | |- context [Num.max ?a ?b] =>
      let E := fresh "E" in
      destruct (max_spec a b) as (? & ? & [E|E]); rewrite E in *
  end;
  repeat match goal with
  | |- context [Num.min ?a ?b] =>
      let E := fresh "E" in
      destruct (min_spec a b) as (? & ? & [E|E]); rewrite E in *
  end.

Lemma clamp_bounds (v lo hi : Q) :
  (lo <= hi)%Q -> (lo <= Num.clamp v lo hi)%Q /\ (Num.clamp v lo hi <= hi)%Q.
Proof. intros H. unfold Num.clamp. split_min_max; split; lra. Qed.

Lemma clamp_inside (v lo hi : Q) :
  (lo <= v)%Q -> (v <= hi)%Q -> (Num.clamp v lo hi == v)%Q.
Proof. intros H1 H2. unfold Num.clamp. split_min_max; lra. Qed.

Lemma clamp_above (v lo hi : Q) :
  (lo <= hi)%Q -> (hi <= v)%Q -> (Num.clamp v lo hi == hi)%Q.
Proof. intros H1 H2. unfold Num.clamp. split_min_max; lra. Qed.

Lemma clamp_below (v lo hi : Q) :
  (lo <= hi)%Q -> (v <= lo)%Q -> (Num.clamp v lo hi == lo)%Q.
Proof. intros H1 H2. unfold Num.clamp. split_min_max; lra. Qed.




(** ** Doubles *)

Section Doubles.
Local Open Scope Q_scope.

Lemma pow2_pos z : 0 < Num.pow2 z.
Proof. unfold Num.pow2. by apply Qpower_0_lt. Qed.

Lemma pow2_add a b : Num.pow2 (a + b) == Num.pow2 a * Num.pow2 b.
Proof. unfold Num.pow2. by apply Qpower_plus. Qed.

Lemma pow2_le a b : (a <= b)%Z -> Num.pow2 a <= Num.pow2 b.
Proof. intros H. unfold Num.pow2. by apply Qpower_le_compat_l. Qed.

Lemma pow2_lt a b : (a < b)%Z -> Num.pow2 a < Num.pow2 b.
Proof. intros H. unfold Num.pow2. by apply Qpower_lt_compat_l. Qed.

Lemma pow2_lt_inv a b : Num.pow2 a < Num.pow2 b -> (a < b)%Z.
Proof. unfold Num.pow2. intros H. by apply Qpower_lt_compat_l_inv in H. Qed.

Lemma pow2_Z n : (0 <= n)%Z -> Num.pow2 n == inject_Z (2 ^ n).
Proof. intros H. unfold Num.pow2. by rewrite Zpower_Qpower. Qed.

Lemma pow2_succ z : Num.pow2 (z + 1) == 2 * Num.pow2 z.
Proof. rewrite pow2_add. change (Num.pow2 1) with 2. ring. Qed.

(** [Num.ilog2 x] is the binary exponent of [x]. *)
Lemma ilog2_spec x : 0 < x -> Num.pow2 (Num.ilog2 x) <= x /\ x < Num.pow2 (Num.ilog2 x + 1).
Proof.
  intros Hx. destruct x as [a b].
  assert (Ha : (0 < a)%Z) by (unfold Qlt in Hx; cbn in Hx; lia).
  unfold Num.ilog2. cbn [Qnum Qden].
  set (la := Z.log2 a). set (lb := Z.log2 (Z.pos b)).
  pose proof (Z.log2_nonneg a) as Hla. pose proof (Z.log2_nonneg (Z.pos b)) as Hlb.
  fold la in Hla. fold lb in Hlb.
  destruct (Z.log2_spec a Ha) as [A1 A2].
  destruct (Z.log2_spec (Z.pos b) ltac:(lia)) as [B1 B2].
  fold la in A1, A2. fold lb in B1, B2.
  rewrite Zle_Qle, <- pow2_Z in A1, B1 by done.
  rewrite Zlt_Qlt, <- pow2_Z in A2, B2 by lia.
  unfold Z.succ in A2, B2. rewrite pow2_succ in A2, B2.
  assert (E : Num.pow2 (la - lb) * Num.pow2 lb == Num.pow2 la).
  { rewrite <- pow2_add. by replace (la - lb + lb)%Z with la by lia. }
  assert (Hq : (a # b) * inject_Z (Z.pos b) == inject_Z a).
  { unfold Qeq, Qmult, inject_Z. cbn [Qnum Qden]. lia. }
  pose proof (pow2_pos (la - lb)) as P0. pose proof (pow2_pos lb) as P1.
  pose proof (pow2_pos la) as P2.
  set (x := a # b) in *. set (A := inject_Z a) in *.
  set (B := inject_Z (Z.pos b)) in *.
  set (Q0 := Num.pow2 (la - lb)) in *. set (PA := Num.pow2 la) in *.
  set (PB := Num.pow2 lb) in *.
  assert (HB : 0 < B) by lra.
  assert (Hup : x < 2 * Q0).
  { apply (Qmult_lt_r _ _ B HB). rewrite Hq.
    apply Qlt_le_trans with (2 * PA); [done|]. rewrite <- E.
    assert (Q0 * PB <= Q0 * B) by (apply Qmult_le_l; done). lra. }
  assert (Hlo : Q0 <= 2 * x).
  { apply (Qmult_le_r _ _ B HB).
    assert (Q0 * B <= Q0 * (2 * PB)).
    { apply Qmult_le_l; [done|]. lra. }
    assert (E2 : 2 * x * B == 2 * A) by (rewrite <- Hq; ring).
    rewrite E2. lra. }
  destruct (Qle_bool Q0 x) eqn:Ht.
  - apply Qle_bool_iff in Ht. split; [done|]. by rewrite pow2_succ.
  - assert (Hlt : x < Q0).
    { apply Qnot_le_lt. intros H. apply Qle_bool_iff in H. congruence. }
    replace (la - lb - 1 + 1)%Z with (la - lb)%Z by lia.
    split; [|done].
    assert (E3 : Q0 == 2 * Num.pow2 (la - lb - 1)).
    { rewrite <- pow2_succ. by replace (la - lb - 1 + 1)%Z with (la - lb)%Z by lia. }
    lra.
Qed.

Lemma ilog2_ge x n : 0 < x -> Num.pow2 n <= x -> (n <= Num.ilog2 x)%Z.
Proof.
  intros Hx Hn. destruct (ilog2_spec x Hx) as [_ H].
  assert (Num.pow2 n < Num.pow2 (Num.ilog2 x + 1)) as L by lra.
  apply pow2_lt_inv in L. lia.
Qed.

Lemma ilog2_lt x n : 0 < x -> x < Num.pow2 n -> (Num.ilog2 x < n)%Z.
Proof.
  intros Hx Hn. destruct (ilog2_spec x Hx) as [H _].
  assert (Num.pow2 (Num.ilog2 x) < Num.pow2 n) as L by lra.
  by apply pow2_lt_inv in L.
Qed.

(** [Num.roundEven m] is an integer next to [m], at most one half away. *)
Lemma roundEven_spec m :
  (Qfloor m <= Num.roundEven m <= Qfloor m + 1)%Z /\
  inject_Z (Num.roundEven m) - m <= 1 # 2 /\ m - inject_Z (Num.roundEven m) <= 1 # 2.
Proof.
  unfold Num.roundEven. pose proof (Qfloor_le m) as F1.
  pose proof (Qlt_floor m) as F2. rewrite inject_Z_plus in F2.
  change (inject_Z 1) with 1 in F2.
  destruct (Qcompare (m - inject_Z (Qfloor m)) (1 # 2)) eqn:C.
  - apply Qeq_alt in C.
    destruct (Z.even (Qfloor m)); (split; [lia|]);
      rewrite ?inject_Z_plus; change (inject_Z 1) with 1; lra.
  - apply Qlt_alt in C. split; [lia|]. lra.
  - apply Qgt_alt in C. split; [lia|].
    rewrite inject_Z_plus. change (inject_Z 1) with 1. lra.
Qed.

Lemma roundEven_ge m k : inject_Z k <= m -> (k <= Num.roundEven m)%Z.
Proof.
  intros H. destruct (roundEven_spec m) as [[L _] _].
  assert (k <= Qfloor m)%Z; [|lia].
  rewrite <- (Qfloor_Z k). by apply Qfloor_resp_le.
Qed.

Lemma roundEven_le m k : m <= inject_Z k -> (Num.roundEven m <= k)%Z.
Proof.
  intros H. unfold Num.roundEven. pose proof (Qfloor_le m) as F1.
  assert (Hf : (Qfloor m <= k)%Z).
  { rewrite <- (Qfloor_Z k). by apply Qfloor_resp_le. }
  destruct (Z.eq_dec (Qfloor m) k) as [E|E].
  - assert (C : Qcompare (m - inject_Z (Qfloor m)) (1 # 2) = Lt).
    { apply (proj1 (Qlt_alt _ _)). rewrite E in F1 |- *. lra. }
    rewrite C. lia.
  - destruct (Qcompare _ _); [destruct (Z.even _)| |]; lia.
Qed.

Lemma ulp_pos x : 0 < Num.ulp x.
Proof. apply pow2_pos. Qed.

(** The result of [Num.nearest] is at most half a unit in the last place
    away. *)
Lemma nearest_error x :
  Num.nearest x - x <= (1 # 2) * Num.ulp x /\ x - Num.nearest x <= (1 # 2) * Num.ulp x.
Proof.
  unfold Num.nearest. pose proof (ulp_pos x) as U.
  destruct (roundEven_spec (x / Num.ulp x)) as (_ & E1 & E2).
  set (r := inject_Z (Num.roundEven (x / Num.ulp x))) in *. set (u := Num.ulp x) in *.
  assert (Ex : x == x / u * u) by (field; lra).
  assert (H1 : (r - x / u) * u <= (1 # 2) * u) by (apply Qmult_le_r; done).
  assert (H2 : (x / u - r) * u <= (1 # 2) * u) by (apply Qmult_le_r; done).
  assert (E3 : (r - x / u) * u == r * u - x / u * u) by ring.
  assert (E4 : (x / u - r) * u == x / u * u - r * u) by ring.
  rewrite E3 in H1. rewrite E4 in H2. rewrite <- Ex in H1, H2.
  split; lra.
Qed.

(** Below [2^53] the unit in the last place divides 1. *)
Lemma ulp_inv x :
  0 < x -> x < Num.pow2 53 ->
  exists N : Z, (0 < N)%Z /\ inject_Z N * Num.ulp x == 1.
Proof.
  intros Hx Hb. apply ilog2_lt in Hb; [|done].
  unfold Num.ulp. set (e := Z.max (Num.ilog2 x) (-1022)).
  assert (He : (e <= 52)%Z) by lia.
  exists (2 ^ (52 - e))%Z. split; [apply Z.pow_pos_nonneg; lia|].
  rewrite <- pow2_Z by lia. rewrite <- pow2_add.
  by replace (52 - e + (e - 52))%Z with 0%Z by lia.
Qed.

(** Below [2^53], [Num.nearest] does not cross an integer. *)
Lemma nearest_int x k :
  0 < x -> x < Num.pow2 53 ->
  (inject_Z k <= x -> inject_Z k <= Num.nearest x) /\
  (x <= inject_Z k -> Num.nearest x <= inject_Z k).
Proof.
  intros Hx Hb. destruct (ulp_inv x Hx Hb) as (N & HN & E).
  pose proof (ulp_pos x) as U. unfold Num.nearest. set (u := Num.ulp x) in *.
  assert (HN' : 0 < inject_Z N)
    by (change 0 with (inject_Z 0); by rewrite <- Zlt_Qlt).
  assert (Ek : inject_Z k == inject_Z (k * N) * u).
  { rewrite inject_Z_mult. rewrite <- Qmult_assoc, E. ring. }
  assert (Ex : x / u == x * inject_Z N).
  { apply (Qmult_inj_r _ _ u); [lra|].
    rewrite <- Qmult_assoc, E. field. lra. }
  split; intros H.
  - rewrite Ek. apply Qmult_le_r; [done|]. rewrite <- Zle_Qle.
    apply roundEven_ge. rewrite Ex, inject_Z_mult.
    by apply Qmult_le_r.
  - rewrite Ek. apply Qmult_le_r; [done|]. rewrite <- Zle_Qle.
    apply roundEven_le. rewrite Ex, inject_Z_mult.
    by apply Qmult_le_r.
Qed.

Lemma round64_comp x y : x == y -> Num.round64 x = Num.round64 y.
Proof. intros E. unfold Num.round64. by rewrite (Qred_complete x y E). Qed.

Lemma round64_zero x : x == 0 -> Num.round64 x = 0.
Proof.
  intros E. rewrite (round64_comp x 0 E). done.
Qed.

Lemma round64_pos x : 0 < x -> Num.round64 x = Num.nearest (Qred x).
Proof.
  intros H. unfold Num.round64.
  assert (C : Qcompare (Qred x) 0 = Gt).
  { apply (proj1 (Qgt_alt _ _)). pose proof (Qred_correct x). lra. }
  by rewrite C.
Qed.

Lemma round64_neg x : x < 0 -> Num.round64 x <= 0.
Proof.
  intros H. unfold Num.round64.
  assert (C : Qcompare (Qred x) 0 = Lt).
  { apply (proj1 (Qlt_alt _ _)). pose proof (Qred_correct x). lra. }
  rewrite C. unfold Num.nearest.
  pose proof (ulp_pos (- Qred x)) as U.
  assert (0 <= inject_Z (Num.roundEven (- Qred x / Num.ulp (- Qred x)))).
  { change 0 with (inject_Z 0) at 1. rewrite <- Zle_Qle. apply roundEven_ge.
    change (inject_Z 0) with 0.
    apply Qle_shift_div_l; [done|]. pose proof (Qred_correct x). lra. }
  assert (0 <= inject_Z (Num.roundEven (- Qred x / Num.ulp (- Qred x))) *
               Num.ulp (- Qred x)) by (apply Qmult_le_0_compat; lra).
  lra.
Qed.

(** Rounding a number between 0 and [2^53] to a Num.double does not cross an
    integer. *)
Lemma round64_int x k :
  0 <= x -> x < Num.pow2 53 ->
  (inject_Z k <= x -> inject_Z k <= Num.round64 x) /\
  (x <= inject_Z k -> Num.round64 x <= inject_Z k).
Proof.
  intros H0 Hb. destruct (Qle_lt_or_eq _ _ H0) as [Hx|Hx].
  - rewrite (round64_pos x Hx).
    pose proof (Qred_correct x) as E.
    destruct (nearest_int (Qred x) k) as [L U]; [lra|lra|].
    split; intros H; [apply L|apply U]; lra.
  - rewrite (round64_zero x) by done. rewrite <- Hx. done.
Qed.

(** An integer below [2^53] is a Num.double. *)
Lemma round64_Z k :
  (0 <= k)%Z -> inject_Z k < Num.pow2 53 -> Num.round64 (inject_Z k) == inject_Z k.
Proof.
  intros H0 Hb.
  destruct (round64_int (inject_Z k) k) as [L U];
    [change 0 with (inject_Z 0); by rewrite <- Zle_Qle|done|].
  apply Qle_antisym; [apply U|apply L]; apply Qle_refl.
Qed.

(** So the floor of the rounded number is the floor of the number or the
    next integer. *)
Lemma floor_round64 x :
  0 <= x -> x < Num.pow2 53 ->
  (Qfloor x <= Qfloor (Num.round64 x) <= Qfloor x + 1)%Z.
Proof.
  intros H0 Hb.
  destruct (round64_int x (Qfloor x) H0 Hb) as [L _].
  destruct (round64_int x (Qfloor x + 1) H0 Hb) as [_ U].
  specialize (L (Qfloor_le x)). specialize (U (Qlt_le_weak _ _ (Qlt_floor x))).
  split.
  - rewrite <- (Qfloor_Z (Qfloor x)) at 1. by apply Qfloor_resp_le.
  - rewrite <- (Qfloor_Z (Qfloor x + 1)). by apply Qfloor_resp_le.
Qed.

(** A Num.double below [2^53] lies on the grid of its unit in the last place,
    so it is at least one unit away from any larger integer. *)
Lemma double_gap s (K : Z) :
  Num.double s -> 0 < s -> s < Num.pow2 53 -> s < inject_Z K ->
  Num.ulp (Qred s) <= inject_Z K - s.
Proof.
  intros Hd Hs Hb HK. unfold Num.double in Hd. rewrite (round64_pos s Hs) in Hd.
  pose proof (Qred_correct s) as Ey. set (y := Qred s) in *.
  destruct (ulp_inv y) as (N & HN & E); [lra|lra|].
  pose proof (ulp_pos y) as U. unfold Num.nearest in Hd.
  set (u := Num.ulp y) in *. set (r := Num.roundEven (y / u)) in *.
  assert (EK : inject_Z K == inject_Z (K * N) * u).
  { rewrite inject_Z_mult, <- Qmult_assoc, E. ring. }
  assert (Ed : inject_Z K - s == inject_Z (K * N - r) * u).
  { unfold Z.sub. rewrite inject_Z_plus, inject_Z_opp, <- Hd, EK. ring. }
  assert (Hpos : 0 < inject_Z (K * N - r)).
  { apply (Qmult_lt_r _ _ u U). rewrite <- Ed. lra. }
  change 0 with (inject_Z 0) in Hpos. rewrite <- Zlt_Qlt in Hpos.
  assert (H1 : 1 <= inject_Z (K * N - r)).
  { change 1 with (inject_Z 1). rewrite <- Zle_Qle. lia. }
  rewrite Ed. assert (1 * u <= inject_Z (K * N - r) * u)
    by (apply Qmult_le_r; done). lra.
Qed.

(** Dividing a Num.double by 60 and rounding the quotient to a Num.double does
    not reach the next integer: [Math.floor(seconds / 60)] is the exact
    number of whole minutes. *)
Lemma floor_div60_double s :
  Num.double s -> 0 <= s -> s < Num.pow2 53 ->
  Qfloor (Num.round64 (s / inject_Z 60)) = Qfloor (s / inject_Z 60).
Proof.
  intros Hd H0 Hb. set (x := s / inject_Z 60).
  assert (Ex : s == inject_Z 60 * x) by (unfold x; field).
  assert (Hx0 : 0 <= x) by (change (inject_Z 60) with 60 in Ex; lra).
  assert (Hxs : x <= s) by (change (inject_Z 60) with 60 in Ex; lra).
  assert (Hxb : x < Num.pow2 53) by lra.
  destruct (floor_round64 x Hx0 Hxb) as [L U].
  assert (Hlt : Num.round64 x < inject_Z (Qfloor x + 1)); cycle 1.
  { assert (inject_Z (Qfloor (Num.round64 x)) < inject_Z (Qfloor x + 1)) as G
      by (pose proof (Qfloor_le (Num.round64 x)); lra).
    rewrite <- Zlt_Qlt in G. lia. }
  assert (Hk1 : 1 <= inject_Z (Qfloor x + 1)).
  { change 1 with (inject_Z 1). rewrite <- Zle_Qle.
    assert (0 <= Qfloor x)%Z; [|lia].
    change 0%Z with (Qfloor 0). by apply Qfloor_resp_le. }
  destruct (Qle_lt_or_eq _ _ H0) as [Hs|Hs].
  - assert (Hx : 0 < x) by (change (inject_Z 60) with 60 in Ex; lra).
    rewrite (round64_pos x Hx).
    pose proof (Qred_correct x) as Ex'. pose proof (Qred_correct s) as Ey.
    set (x' := Qred x) in *. set (y := Qred s) in *.
    destruct (nearest_error x') as [Err _].
    pose proof (Qlt_floor x) as Hkx.
    set (k := (Qfloor x + 1)%Z) in *.
    assert (HK : s < inject_Z (60 * k)).
    { rewrite inject_Z_mult, Ex. change (inject_Z 60) with 60. lra. }
    pose proof (double_gap s (60 * k) Hd Hs Hb HK) as Hgap. fold y in Hgap.
    rewrite inject_Z_mult in Hgap. change (inject_Z 60) with 60 in *.
    destruct (ilog2_spec y ltac:(lra)) as [_ Hys].
    assert (Hex : (Num.ilog2 x' < Num.ilog2 y - 4)%Z).
    { apply ilog2_lt; [lra|].
      assert (E5 : Num.pow2 (Num.ilog2 y + 1) == Num.pow2 (Num.ilog2 y - 4) * 32).
      { change 32 with (Num.pow2 5). rewrite <- pow2_add.
        by replace (Num.ilog2 y - 4 + 5)%Z with (Num.ilog2 y + 1)%Z by lia. }
      pose proof (pow2_pos (Num.ilog2 y - 4)). lra. }
    pose proof (ulp_pos x') as Ux. pose proof (ulp_pos y) as Uy.
    destruct (Z_le_gt_dec (-1022) (Num.ilog2 x')) as [Hn|Hsub].
    + assert (Hu : Num.ulp x' * 32 <= Num.ulp y).
      { unfold Num.ulp. rewrite !Z.max_l by lia.
        change 32 with (Num.pow2 5). rewrite <- pow2_add. apply pow2_le. lia. }
      lra.
    + assert (Hu : Num.ulp x' <= 1 # 2).
      { unfold Num.ulp. rewrite Z.max_r by lia.
        change (1 # 2) with (Num.pow2 (-1)). apply pow2_le. lia. }
      assert (Hxs' : x' < 1 # 2).
      { destruct (ilog2_spec x' ltac:(lra)) as [_ Hxu].
        assert (Num.pow2 (Num.ilog2 x' + 1) <= Num.pow2 (-1)) by (apply pow2_le; lia).
        change (Num.pow2 (-1)) with (1 # 2) in *. lra. }
      lra.
  - assert (E0 : x == 0) by (change (inject_Z 60) with 60 in Ex; lra).
    rewrite (round64_zero x E0). lra.
Qed.

End Doubles.

(** ** The WAV writer *)

Lemma length_overlay bs : forall off v, length (overlay off bs v) = length v.
Proof.
  induction bs as [|b bs IH]; intros off v; cbn [overlay]; [done|].
  by rewrite IH, length_insert.
Qed.

(** Writing [bs] right after an already written prefix [pre], over a
    zone that is still zero. *)
Lemma overlay_fresh (bs : list Z) :
  forall (pre : list Z) (n : nat) (t : list Z),
    (length bs <= n)%nat ->
    overlay (length pre) bs (pre ++ replicate n 0 ++ t) =
    (pre ++ bs) ++ replicate (n - length bs) 0 ++ t.
Proof.
  induction bs as [|b bs IH]; intros pre n t Hn; cbn [overlay length] in *.
  - by rewrite app_nil_r, Nat.sub_0_r.
  - destruct n as [|n]; [lia|]. cbn [replicate app].
    replace (length pre) with (length pre + 0)%nat at 2 by lia.
    rewrite insert_app_r. cbn [insert list_insert].
    replace (pre ++ b :: replicate n 0 ++ t)
      with ((pre ++ [b]) ++ replicate n 0 ++ t) by (by rewrite <- app_assoc).
    replace (S (length pre)) with (length (pre ++ [b]))
      by (rewrite length_app; cbn; lia).
    rewrite IH by lia. rewrite <- !app_assoc. done.
Qed.

Lemma setUint16_overlay off x v :
  setUint16 off x v =
  if decide (off + 2 <= length v)%nat
  then Some (overlay off (le16 x) v) else None.
Proof.
  unfold setUint16. case_decide; [|done]. cbn [overlay le16].
  by rewrite Nat.add_1_r.
Qed.

Lemma setUint32_overlay off x v :
  setUint32 off x v =
  if decide (off + 4 <= length v)%nat
  then Some (overlay off (le32 x) v) else None.
Proof.
  unfold setUint32. case_decide; [|done]. cbn [overlay le32].
  by replace (off + 1)%nat with (S off) by lia;
     replace (off + 2)%nat with (S (S off)) by lia;
     replace (off + 3)%nat with (S (S (S off))) by lia.
Qed.

Lemma writeChars_overlay codes : forall off i v,
  (off + i + length codes <= length v)%nat ->
  writeChars off i codes v =
  Some (overlay (off + i) (map (fun c => c mod 256) codes) v).
Proof.
  induction codes as [|c codes IH]; intros off i v Hlen;
    cbn [writeChars map overlay length] in *; [done|].
  unfold setUint8. rewrite decide_True by lia. cbn [mbind option_bind].
  rewrite IH by (rewrite length_insert; lia).
  by replace (off + S i)%nat with (S (off + i)) by lia.
Qed.

Lemma length_charCodes s : length (charCodes s) = String.length s.
Proof.
  unfold charCodes. rewrite length_map.
  induction s as [|a s IH];
    cbn [String.list_ascii_of_string length String.length];
    [done|by rewrite IH].
Qed.

(** One write of the header: the writer stands at the end of the written
    prefix [pre], with [n] zero bytes of header left and the data [t]
    behind them. *)
Section HeaderSteps.
Variables (pre : list Z) (n : nat) (t : list Z) (off : nat).
Hypothesis Hoff : off = length pre.

Lemma writeString_step s :
  (String.length s <= n)%nat ->
  writeString s {| view := pre ++ replicate n 0 ++ t; offset := off |} =
  Some {| view := (pre ++ map (fun c => c mod 256) (charCodes s)) ++
                    replicate (n - String.length s) 0 ++ t;
          offset := off + String.length s |}.
Proof.
  intros Hn. unfold writeString. cbn [view offset].
  pose proof (length_charCodes s) as Hl.
  rewrite writeChars_overlay
    by (rewrite !length_app, length_replicate; lia).
  cbn [mbind option_bind]. rewrite Nat.add_0_r, Hoff.
  rewrite overlay_fresh by (rewrite length_map; lia).
  by rewrite length_map, Hl.
Qed.

Lemma writeUint32_step x :
  (4 <= n)%nat ->
  writeUint32 x {| view := pre ++ replicate n 0 ++ t; offset := off |} =
  Some {| view := (pre ++ le32 x) ++ replicate (n - 4) 0 ++ t;
          offset := off + 4 |}.
Proof.
  intros Hn. unfold writeUint32. cbn [view offset].
  rewrite setUint32_overlay.
  rewrite decide_True by (rewrite !length_app, length_replicate; lia).
  cbn [mbind option_bind]. rewrite Hoff.
  by rewrite overlay_fresh by (cbn; lia).
Qed.

Lemma writeUint16_step x :
  (2 <= n)%nat ->
  writeUint16 x {| view := pre ++ replicate n 0 ++ t; offset := off |} =
  Some {| view := (pre ++ le16 x) ++ replicate (n - 2) 0 ++ t;
          offset := off + 2 |}.
Proof.
  intros Hn. unfold writeUint16. cbn [view offset].
  rewrite setUint16_overlay.
  rewrite decide_True by (rewrite !length_app, length_replicate; lia).
  cbn [mbind option_bind]. rewrite Hoff.
  by rewrite overlay_fresh by (cbn; lia).
Qed.
End HeaderSteps.

Lemma lookup_zero_tail (h : list Z) (n j : nat) :
  (length h <= j)%nat -> (j < length h + n)%nat ->
  (h ++ replicate n 0) !! j = Some 0.
Proof.
  intros H1 H2. rewrite lookup_app_r by lia. apply lookup_replicate_2. lia.
Qed.

(** The sample loop writes zeros over zeros. *)
Lemma writeSamples_zero (h : list Z) (n i k : nat) :
  length h = 44%nat -> (2 * (i + k) <= n)%nat ->
  writeSamples i k (h ++ replicate n 0) = Some (h ++ replicate n 0).
Proof.
  intros Hh. revert i. induction k as [|k IH]; intros i Hn; [done|].
  cbn [writeSamples]. unfold setInt16, setUint16.
  rewrite decide_True by (rewrite length_app, length_replicate; lia).
  cbn [mbind option_bind].
  change (0 mod 2 ^ 16) with 0. change (Z.land (Z.shiftr 0 8) 255) with 0.
  change (Z.land 0 255) with 0.
  rewrite (list_insert_id _ (44 + i * 2)) by (apply lookup_zero_tail; lia).
  rewrite list_insert_id by (apply lookup_zero_tail; lia).
  apply IH; lia.
Qed.

Lemma dataSize_nonneg s : 0 <= dataSize s.
Proof. unfold dataSize, frameCount. change blockAlign with 2. lia. Qed.

Ltac header_step lem :=
  rewrite lem by (vm_compute; done || lia); cbn [mbind option_bind].

(** [createWavSilence] never raises, and its result is the canonical
    header followed by zeros. *)
Lemma createWavSilence_bytes (seconds : Q) :
  createWavSilence seconds =
  Some {| blobBytes := pcmHeader (dataSize seconds) ++
                       replicate (Z.to_nat (dataSize seconds)) 0;
          blobType := "audio/wav" |}.
Proof.
  unfold createWavSilence, ArrayBuffer.
  pose proof (dataSize_nonneg seconds) as Hds.
  rewrite Z2Nat.inj_add by lia.
  change (Z.to_nat 44) with 44%nat.
  rewrite replicate_add.
  set (ds := dataSize seconds) in *.
  set (t := replicate (Z.to_nat ds) 0).
  assert (Hw : writeSamples 0 (Z.to_nat (frameCount seconds))
                 (pcmHeader ds ++ t) = Some (pcmHeader ds ++ t)).
  { unfold t. rewrite writeSamples_zero; [congruence|done|].
    unfold ds, dataSize. change blockAlign with 2. unfold frameCount. lia. }
  clearbody t. clearbody ds.
  change (replicate 44 0 ++ t) with ([] ++ replicate 44 0 ++ t).
  header_step writeString_step. header_step writeUint32_step.
  header_step writeString_step. header_step writeString_step.
  header_step writeUint32_step. header_step writeUint16_step.
  header_step writeUint16_step. header_step writeUint32_step.
  header_step writeUint32_step. header_step writeUint16_step.
  header_step writeUint16_step. header_step writeString_step.
  header_step writeUint32_step.
  cbn [view].
  match goal with
  | |- writeSamples _ _ ?v ≫= _ = _ => change v with (pcmHeader ds ++ t)
  end.
  by rewrite Hw.
Qed.

Lemma le32_decode (x : Z) :
  0 <= x < 2 ^ 32 -> getUint32 0 (le32 x) = Some x.
Proof.
  intros Hx. unfold getUint32, le32.
  cbn [lookup list_lookup mbind option_bind Nat.add].
  f_equal. rewrite Z.mod_small by lia.
  change 255 with (Z.ones 8). rewrite !Z.land_ones by lia.
  rewrite !Z.shiftr_div_pow2 by lia.
  change (2 ^ 8) with 256. change (2 ^ 16) with 65536.
  change (2 ^ 24) with 16777216.
  change (2 ^ 32) with 4294967296 in Hx.
  Z.div_mod_to_equations. lia.
Qed.

Lemma length_pcmHeader n : length (pcmHeader n) = 44%nat.
Proof. done. Qed.

(** Within the range that [makeSilenceWavUrl] clamps to, the frame count
    is the floor of the product as a double, which is the floor of the
    exact product or the next integer. *)
Lemma dataSize_in_range (d : Q) :
  (0 <= d)%Q -> (d <= inject_Z 3600)%Q ->
  let f := Num.floor (Num.round64 (d * inject_Z 44100)) in
  dataSize (Num.clamp d 0 (inject_Z 3600)) = 2 * f /\
  dataSize d = 2 * f /\
  0 <= f <= 158760000 /\
  Num.floor (d * inject_Z 44100) <= f <= Num.floor (d * inject_Z 44100) + 1.
Proof.
  intros H0 H1 f.
  assert (Hc : (Num.clamp d 0 (inject_Z 3600) == d)%Q)
    by (by apply clamp_inside).
  assert (Hp0 : (0 <= d * inject_Z 44100)%Q)
    by (apply Qmult_le_0_compat; [lra|done]).
  assert (Hp1 : (d * inject_Z 44100 <= inject_Z 158760000)%Q).
  { assert (E : (inject_Z 158760000 == inject_Z 3600 * inject_Z 44100)%Q)
      by done.
    rewrite E. apply Qmult_le_compat_r; [lra|done]. }
  assert (Hb : (d * inject_Z 44100 < Num.pow2 53)%Q).
  { eapply Qle_lt_trans; [exact Hp1|]. by vm_compute. }
  destruct (floor_round64 _ Hp0 Hb) as [F1 F2].
  destruct (round64_int _ 158760000 Hp0 Hb) as [_ U].
  specialize (U Hp1).
  assert (Hf0 : 0 <= Qfloor (d * inject_Z 44100)).
  { change 0 with (Qfloor 0). by apply Qfloor_resp_le. }
  assert (Hf1 : f <= 158760000).
  { subst f. unfold Num.floor.
    change 158760000 with (Qfloor (inject_Z 158760000)).
    by apply Qfloor_resp_le. }
  assert (Ef : frameCount d = f).
  { unfold frameCount. change sampleRate with 44100. fold f.
    unfold f, Num.floor in *. lia. }
  assert (Ec : frameCount (Num.clamp d 0 (inject_Z 3600)) = f).
  { rewrite <- Ef. unfold frameCount.
    by rewrite (round64_comp _ (d * inject_Z sampleRate)) by (by rewrite Hc). }
  unfold dataSize. rewrite Ec, Ef. change blockAlign with 2.
  unfold f, Num.floor in *. lia.
Qed.

Lemma silenceContainer_eq (d : Q) (st : State) :
  silenceContainer d st =
  Some {| blobBytes :=
            pcmHeader (dataSize (Num.clamp d 0 (inject_Z 3600))) ++
            replicate
              (Z.to_nat (dataSize (Num.clamp d 0 (inject_Z 3600)))) 0;
          blobType := "audio/wav" |}.
Proof.
  unfold silenceContainer, makeSilenceWavUrl.
  rewrite createWavSilence_bytes. cbn [mbind option_bind].
  unfold createObjectURL. cbn.
  apply lookup_insert_eq.
Qed.

(** ** C2: the synthesized container *)

(** C2, as amended.  For every duration [d] with [0 <= d <= 3600] seconds,
    [createWavSilence d] and the container behind the URL returned by
    [makeSilenceWavUrl d] are one and the same blob: of type audio/wav,
    of exactly [44 + 2 * f] bytes, made of the canonical header (format
    PCM, 1 channel, 44100 Hz, 16 bits per sample, data size [2 * f])
    followed by [2 * f] zero bytes.  The frame count [f] is the floor of
    the product [d * 44100] as the program computes it, a double: it is
    [floor (d * 44100)] or one more, and it is [floor (d * 44100)]
    whenever the exact product is itself a double.  The blob does not
    depend on the state in which it is synthesized: every call with this
    duration yields a bit-identical container. *)
Theorem C2_silence_container (d : Q) (st : State) :
  (0 <= d)%Q -> (d <= inject_Z 3600)%Q ->
  let p := (d * inject_Z 44100)%Q in
  let f := Num.floor (Num.round64 p) in
  let n := 2 * f in
  Num.floor p <= f <= Num.floor p + 1 /\
  (Num.double p -> f = Num.floor p) /\
  exists blob,
    createWavSilence d = Some blob /\
    silenceContainer d st = Some blob /\
    blobType blob = "audio/wav" /\
    Z.of_nat (length (blobBytes blob)) = 44 + n /\
    blobBytes blob = pcmHeader n ++ replicate (Z.to_nat n) 0 /\
    getUint16 20 (blobBytes blob) = Some 1 /\
    getUint16 22 (blobBytes blob) = Some 1 /\
    getUint32 24 (blobBytes blob) = Some 44100 /\
    getUint16 34 (blobBytes blob) = Some 16 /\
    getUint32 40 (blobBytes blob) = Some n /\
    forall st2, silenceContainer d st2 = Some blob.
Proof.
  intros H0 H1 p f n.
  destruct (dataSize_in_range d H0 H1) as (Ec & Ed & Hn & Hf).
  fold p in Ec, Ed, Hn, Hf. fold f in Ec, Ed, Hn, Hf. fold n in Ec, Ed.
  split; [exact Hf|]. split.
  { intros Hd. subst f. unfold Num.floor. unfold Num.double in Hd.
    by rewrite Hd. }
  exists {| blobBytes := pcmHeader n ++ replicate (Z.to_nat n) 0;
            blobType := "audio/wav" |}.
  cbn [blobBytes blobType].
  repeat split.
  - by rewrite createWavSilence_bytes, Ed.
  - by rewrite silenceContainer_eq, Ec.
  - rewrite length_app, length_replicate, length_pcmHeader. lia.
  - change (getUint32 40 (pcmHeader n ++ replicate (Z.to_nat n) 0))
      with (getUint32 0 (le32 n)).
    apply le32_decode. change (2 ^ 32) with 4294967296. lia.
  - intros st2. by rewrite silenceContainer_eq, Ec.
Qed.

Lemma C2_silence_container_witness :
  let d := (1689015809229797 # 562949953421312)%Q in
  Num.double d /\ (0 <= d)%Q /\ (d <= inject_Z 3600)%Q /\
  Num.floor (d * inject_Z 44100) = 132312 /\
  exists blob,
    createWavSilence d = Some blob /\
    Z.of_nat (length (blobBytes blob)) = 44 + 2 * 132313.
Proof.
  intros d.
  assert (Hd : Num.double d) by (by vm_compute).
  assert (H0 : (0 <= d)%Q) by (by vm_compute).
  assert (H1 : (d <= inject_Z 3600)%Q) by (by vm_compute).
  assert (Hf : Num.floor (d * inject_Z 44100) = 132312) by (by vm_compute).
  split; [exact Hd|split; [exact H0|split; [exact H1|split; [exact Hf|]]]].
  destruct (C2_silence_container d (init false) H0 H1)
    as (_ & _ & blob & Hc & _ & _ & Hl & _).
  exists blob. split; [exact Hc|].
  assert (E : Num.floor (Num.round64 (d * inject_Z 44100)) = 132313)
    by (by vm_compute).
  rewrite E in Hl. exact Hl.
Defined.

(** C2 as stated fails, in three ways.  [makeSilenceWavUrl] clamps the
    duration to 3600 seconds: for 7200 seconds the container has
    317520044 bytes, not [44 + 2 * floor (7200 * 44100)].
    [createWavSilence] takes a negative frame count as zero: for -1
    second the container has 44 bytes.  And the product is rounded to a
    double before the floor: for the double 0.00006802721088435374 the
    exact product is below 3 and the rounded one is 3, so the container
    has 50 bytes, not [44 + 2 * floor (d * 44100) = 48]. *)
Lemma C2_counterexample :
  (exists blob,
     silenceContainer (inject_Z 7200) (init false) = Some blob /\
     Z.of_nat (length (blobBytes blob)) = 317520044 /\
     Z.of_nat (length (blobBytes blob)) <>
       44 + 2 * Num.floor (inject_Z 7200 * inject_Z 44100)) /\
  (exists blob,
     createWavSilence (inject_Z (-1)) = Some blob /\
     Z.of_nat (length (blobBytes blob)) = 44 /\
     Z.of_nat (length (blobBytes blob)) <>
       44 + 2 * Num.floor (inject_Z (-1) * inject_Z 44100)) /\
  (let d := (5019522196927769 # 73786976294838206464)%Q in
   Num.double d /\ (0 <= d)%Q /\ (d <= inject_Z 3600)%Q /\
   exists blob,
     silenceContainer d (init false) = Some blob /\
     Z.of_nat (length (blobBytes blob)) = 50 /\
     44 + 2 * Num.floor (d * inject_Z 44100) = 48).
Proof.
  split_and!.
  - eexists. split; [apply silenceContainer_eq|]. cbn [blobBytes].
    rewrite length_app, length_replicate, length_pcmHeader.
    assert (E : dataSize (Num.clamp (inject_Z 7200) 0 (inject_Z 3600))
                = 317520000) by (by vm_compute).
    rewrite E.
    assert (F : Num.floor (inject_Z 7200 * inject_Z 44100) = 317520000)
      by (by vm_compute).
    rewrite F. lia.
  - eexists. split; [apply createWavSilence_bytes|]. cbn [blobBytes].
    rewrite length_app, length_replicate, length_pcmHeader.
    assert (E : dataSize (inject_Z (-1)) = 0) by (by vm_compute).
    rewrite E.
    assert (F : Num.floor (inject_Z (-1) * inject_Z 44100) = -44100)
      by (by vm_compute).
    rewrite F. lia.
  - intros d. split_and!; [by vm_compute|by vm_compute|by vm_compute|].
    eexists. split; [apply silenceContainer_eq|]. cbn [blobBytes].
    rewrite length_app, length_replicate, length_pcmHeader.
    assert (E : dataSize (Num.clamp d 0 (inject_Z 3600)) = 6)
      by (by vm_compute).
    rewrite E. split; [lia|]. by vm_compute.
Qed.

(** ** The player: simplification tactics, selection, invariants *)

Ltac st_simpl :=
  cbn [ui refs host mediaHandlers
       tracks running minGapSec maxGapSec volume currentTitle
       silenceRemainingMs currentTime duration showGlitch
       audioRef currentIsSilenceRef pendingRevokeRef currentMusicUrlRef
       lastPlayedUrlRef silenceStartRef silenceDurRef rafRef
       objectUrls frames nextUrl nextFrame hasMediaSession log
       r_tracks r_running r_minGapSec r_maxGapSec r_volume render
       src paused audioVolume revokeOnEnd title
       setTracks setRunningValue setMinGapSec setMaxGapSec setVolume
       setCurrentTitle setSilenceRemainingMs setCurrentTime setDuration
       setShowGlitch setAudio setCurrentIsSilence setPendingRevoke
       setCurrentMusicUrl setLastPlayedUrl setSilenceStart setSilenceDur
       setRaf setObjectUrls setFrames setNextUrl setNextFrame emit
       setMediaHandlers upd_ui upd_refs upd_host fst snd] in *.

Ltac st_unfold :=
  unfold setRunning, pauseAudio, cancelAnimationFrame,
    requestAnimationFrame, createObjectURL, revokeObjectURL,
    cleanupPendingRevoke, setMediaMetadata in *.


Ltac case_step :=
  match goal with
  | |- context [match ?x with _ => _ end] =>
      lazymatch x with
      | context [match _ with _ => _ end] => fail
      | _ => destruct x eqn:?
      end
  end; st_simpl.

Ltac st_cases := repeat (st_unfold; st_simpl; try case_step).

Lemma blobUrl_inj : Inj (=) (=) blobUrl.
Proof.
  intros a b H. unfold blobUrl in H.
  apply (inj pretty). by simplify_eq.
Qed.

Lemma blobUrl_truthy k : truthy (Some (blobUrl k)) = true.
Proof. done. Qed.

Lemma minted_mono n m u : (n <= m)%nat -> minted n u -> minted m u.
Proof. intros H (k & Hk & ->). exists k. split; [lia|done]. Qed.

Lemma minted_fresh n u : minted n u -> u <> blobUrl n.
Proof. intros (k & Hk & ->) E. apply blobUrl_inj in E. lia. Qed.

Lemma pickRandom_Some {T} (items : list T) (r : Q) :
  items <> [] -> Num.unit_draw r ->
  exists t, pickRandom items r = Some t /\ t ∈ items.
Proof.
  intros Hne [H0 H1]. unfold pickRandom.
  destruct items as [|x xs]; [done|].
  set (l := x :: xs) in *.
  assert (Hl : (0 < length l)%nat) by (cbn; lia).
  destruct (Nat.eqb_spec (length l) 0); [lia|].
  set (len := Z.of_nat (length l)).
  assert (Hn : (0 < inject_Z len)%Q) by (change 0%Q with (inject_Z 0); rewrite <- Zlt_Qlt; lia).
  assert (Hlo : 0 <= Num.floor (r * inject_Z len)).
  { change 0 with (Qfloor 0). apply Qfloor_resp_le.
    apply Qmult_le_0_compat; lra. }
  assert (Hhi : Num.floor (r * inject_Z len) < len).
  { unfold Num.floor. rewrite Zlt_Qlt.
    eapply Qle_lt_trans; [apply Qfloor_le|]. nra. }
  destruct (Z.ltb_spec (Num.floor (r * inject_Z len)) 0); [lia|].
  destruct (lookup_lt_is_Some_2 l (Z.to_nat (Num.floor (r * inject_Z len))))
    as [t Ht]; [lia|].
  exists t. split; [done|]. by eapply list_elem_of_lookup_2.
Qed.

Lemma pickRandom_singleton {T} (x : T) (r : Q) :
  Num.unit_draw r -> pickRandom [x] r = Some x.
Proof.
  intros Hr. destruct (pickRandom_Some [x] r) as (t & Ht & Hin); [done|done|].
  apply list_elem_of_singleton in Hin. by subst.
Qed.

Lemma pickRandom_elem {T} (items : list T) (r : Q) t :
  pickRandom items r = Some t -> t ∈ items.
Proof.
  unfold pickRandom. repeat case_match; try done.
  apply list_elem_of_lookup_2.
Qed.

Lemma Inv_init b : Inv (init b).
Proof.
  constructor; cbn; try done.
  - constructor.
  - constructor.
  - intros id [x Hx]. by rewrite lookup_empty in Hx.
Qed.

Lemma Inv_playSrc rd u opts acc st :
  Inv st ->
  (revokeOnEnd opts = true ->
   minted (nextUrl (host st)) u /\ (u ∉ (url <$> tracks (ui st))) /\
   is_Some (objectUrls (host st) !! u) /\
   pendingRevokeRef (refs st) <> Some u) ->
  Inv (playSrc rd u opts acc st).
Proof.
  intros [Ha Hg Hgm Hu Hum Hm Hf Hp Hmm Hl] Hnew. unfold playSrc.
  destruct Ha as [a Ha]. rewrite Ha.
  st_cases; constructor; st_simpl; try done.
  all: try (intros ? [= <-]; destruct Hnew as (? & ? & ? & ?); [done|];
            repeat split; try done).
  all: try (rewrite lookup_delete_ne by congruence; done).
  all: try (intros u0 Hu0; by apply Hp; congruence).
Qed.

Ltac inv_frame H := destruct H; constructor; st_simpl; try done.

Lemma Inv_playRandomTrack rd r acc st :
  Inv st ->
  Forall (fun t => minted (nextUrl (host st)) (url t)) (r_tracks rd) ->
  Inv (playRandomTrack rd r acc st).
Proof.
  intros HI Hrd. unfold playRandomTrack.
  destruct (length (r_tracks rd) =? 0)%nat; [done|].
  destruct (pickRandom _ r) as [t|] eqn:Hpick; [|done].
  assert (Ht : t ∈ r_tracks rd).
  { apply pickRandom_elem in Hpick. destruct (_ && _); [|done].
    by apply list_elem_of_filter in Hpick as [_ ?]. }
  rewrite Forall_forall in Hrd. apply Hrd in Ht.
  apply Inv_playSrc; [inv_frame HI|done].
  by intros u [= <-].
Qed.

Lemma makeSilenceWavUrl_total d st :
  exists blob,
    Wav.createWavSilence (Num.clamp d 0 (inject_Z 3600)) = Some blob /\
    makeSilenceWavUrl d st = Some (createObjectURL blob st).
Proof.
  unfold makeSilenceWavUrl. rewrite createWavSilence_bytes.
  cbn [mbind option_bind]. by eexists.
Qed.

Lemma not_elem_of_minted n (ts : list Track) :
  Forall (fun t => minted n (url t)) ts -> blobUrl n ∉ (url <$> ts).
Proof.
  intros H Hin. apply list_elem_of_fmap in Hin as (t & E & Ht).
  rewrite Forall_forall in H. apply H in Ht.
  by apply minted_fresh in Ht.
Qed.

Lemma Inv_playSilenceThenNext rd r now acc st :
  Inv st -> Inv (playSilenceThenNext rd r now acc st).
Proof.
  intros HI. unfold playSilenceThenNext.
  destruct (makeSilenceWavUrl_total
              (gapDuration (r_minGapSec rd) (r_maxGapSec rd) r) st)
    as (blob & _ & ->).
  st_unfold. st_simpl.
  destruct HI as [Ha Hg Hgm Hu Hum Hm Hf Hp Hmm Hl].
  apply Inv_playSrc.
  - destruct (rafRef (refs st)) as [old|] eqn:Hraf; st_unfold; st_simpl;
      constructor; st_simpl; try done.
    all: try (eapply Forall_impl; [exact Hm|];
              intros t Ht; cbn beta in *; eapply minted_mono; [|exact Ht]; lia).
    all: try (eapply Forall_impl; [exact Hmm|];
              intros t Ht; cbn beta in *; eapply minted_mono; [|exact Ht]; lia).
    all: try (intros u Hu'; eapply minted_mono; [|by apply Hl]; lia).
    all: try (intros id [c Hc]; apply lookup_insert_Some in Hc
                as [[-> _]|[Hne Hc]]; [done|];
              try apply lookup_delete_Some in Hc as [Hne' Hc];
              specialize (Hf id (ex_intro _ c Hc)); congruence).
    all: intros u Hu'; destruct (Hp u Hu') as (M & N & L);
         (split; [eapply minted_mono; [|exact M]; lia|]); split; [done|];
         rewrite lookup_insert_ne; [done|];
         intros E; symmetry in E; by apply minted_fresh in M.
  - intros _. destruct (rafRef (refs st)) as [old|] eqn:Hraf; st_unfold; st_simpl.
    all: repeat split.
    all: try (exists (nextUrl (host st)); split; [lia|done]).
    all: try (by apply not_elem_of_minted).
    all: try (rewrite lookup_insert_eq; by eexists).
    all: intros E; apply Hp in E as (M & _); by apply minted_fresh in M.
Qed.


Lemma Inv_animationFrame id now st : Inv st -> Inv (animationFrame id now st).
Proof.
  intros HI. unfold animationFrame.
  destruct (frames (host st) !! id) as [c|] eqn:Hid; [|done].
  destruct HI as [Ha Hg Hgm Hu Hum Hm Hf Hp Hmm Hl].
  assert (Hraf : rafRef (refs st) = Some id) by (apply Hf; by eexists).
  assert (Hnone : forall id', delete id (frames (host st)) !! id' = None).
  { intros id'. destruct (delete id (frames (host st)) !! id') as [c'|] eqn:E;
      [|done].
    apply lookup_delete_Some in E as [Hne E].
    specialize (Hf id' (ex_intro _ c' E)). congruence. }
  unfold tick. st_cases; constructor; st_simpl; try done.
  - intros id' [c' Hc']. apply lookup_insert_Some in Hc' as [[-> _]|[_ Hc']];
      [done|]. by rewrite Hnone in Hc'.
  - intros id' [c' Hc']. by rewrite Hnone in Hc'.
Qed.

(** The loop of [onFiles], with the invariant it maintains. *)
Lemma collectNewTracks_spec pool fs : forall acc st acc' st',
  collectNewTracks pool fs acc st = (acc', st') ->
  ui st' = ui st /\ refs st' = refs st /\
  mediaHandlers st' = mediaHandlers st /\
  frames (host st') = frames (host st) /\
  (nextUrl (host st) <= nextUrl (host st'))%nat /\
  (forall u, is_Some (objectUrls (host st) !! u) ->
             is_Some (objectUrls (host st') !! u)) /\
  (forall ts,
     NoDup (url <$> (ts ++ acc)) ->
     Forall (fun t => minted (nextUrl (host st)) (url t)) (ts ++ acc) ->
     NoDup (url <$> (ts ++ acc')) /\
     Forall (fun t => minted (nextUrl (host st')) (url t)) (ts ++ acc')) /\
  (forall u, minted (nextUrl (host st)) u -> u ∉ (url <$> acc) ->
             u ∉ (url <$> acc')) /\
  name <$> acc' =
    (name <$> acc) ++
    filter (fun n => negb (existsb (fun track => String.eqb (name track) n) pool) = true)
           (fileName <$> fs).
Proof.
  induction fs as [|f fs IH]; intros acc st acc' st' H; cbn [collectNewTracks] in H.
  - simplify_eq. rewrite app_nil_r. split_and!; try done. all: tauto.
  - cbn [fmap list_fmap]. rewrite filter_cons.
    destruct (existsb _ pool) eqn:Edup; cbn [negb] in H.
    + rewrite decide_False by done.
      by apply IH in H.
    + rewrite decide_True by done.
      st_unfold. st_simpl.
      apply IH in H as (H1 & H2 & H3 & H4 & H5 & H6 & H7 & H8 & H9).
      st_simpl. split_and!; try done.
      * lia.
      * intros u Hu. apply H6. st_simpl.
        destruct (decide (blobUrl (nextUrl (host st)) = u)) as [->|Hne].
        -- rewrite lookup_insert_eq. by eexists.
        -- by rewrite lookup_insert_ne.
      * intros ts Hnd Hmi. apply H7; st_simpl; rewrite app_assoc.
        -- rewrite fmap_app. cbn [fmap list_fmap url].
           apply NoDup_app. split; [done|]. split; [|apply NoDup_singleton].
           intros x Hx ->%list_elem_of_singleton.
           by apply not_elem_of_minted in Hx.
        -- apply Forall_app. split.
           ++ eapply Forall_impl; [exact Hmi|]. intros t Ht. cbn beta in *.
              eapply minted_mono; [|exact Ht]. lia.
           ++ apply Forall_singleton. cbn [url]. eexists. split; [|done]. lia.
      * intros u Hu Hnin. apply H8.
        -- st_simpl. eapply minted_mono; [|exact Hu]. lia.
        -- rewrite fmap_app. cbn [fmap list_fmap url].
           rewrite elem_of_app. intros [?|E%list_elem_of_singleton]; [done|].
           by apply minted_fresh in Hu.
      * rewrite H9. rewrite fmap_app. cbn [fmap list_fmap name].
        by rewrite <- app_assoc.
Qed.

Lemma revokeAll_spec ts : forall st,
  ui (revokeAll ts st) = ui st /\ refs (revokeAll ts st) = refs st /\
  mediaHandlers (revokeAll ts st) = mediaHandlers st /\
  frames (host (revokeAll ts st)) = frames (host st) /\
  nextUrl (host (revokeAll ts st)) = nextUrl (host st) /\
  hasMediaSession (host (revokeAll ts st)) = hasMediaSession (host st) /\
  (forall u, u ∉ (url <$> ts) ->
     objectUrls (host (revokeAll ts st)) !! u = objectUrls (host st) !! u) /\
  (forall u, u ∈ (url <$> ts) ->
     objectUrls (host (revokeAll ts st)) !! u = None).
Proof.
  unfold revokeAll.
  induction ts as [|t ts IH]; intros st; cbn [fold_left].
  - split_and!; try done. intros u Hu. by apply elem_of_nil in Hu.
  - destruct (IH (revokeObjectURL (url t) st))
      as (H1 & H2 & H3 & H4 & H5 & H6 & H7 & H8).
    st_unfold. st_simpl. split_and!; try done.
    + intros u Hu. cbn [fmap list_fmap] in Hu.
      apply not_elem_of_cons in Hu as [Hne Hu].
      rewrite H7 by done. st_simpl. by rewrite lookup_delete_ne.
    + intros u Hu. cbn [fmap list_fmap] in Hu.
      destruct (decide (u ∈ url <$> ts)) as [Hin|Hnin]; [by apply H8|].
      apply elem_of_cons in Hu as [->|Hu]; [|done].
      rewrite H7 by done. st_simpl. by rewrite lookup_delete_eq.
Qed.

Lemma Inv_setRunning b st : Inv st -> Inv (setRunning b st).
Proof. intros HI. st_cases; inv_frame HI. Qed.

Lemma Inv_pauseAudio st : Inv st -> Inv (pauseAudio st).
Proof. intros HI. st_cases; inv_frame HI. Qed.

Lemma Inv_stop_frames st :
  Inv st ->
  Inv (setRaf None
         match rafRef (refs st) with
         | Some id => cancelAnimationFrame id st
         | None => st
         end).
Proof.
  intros HI. destruct (rafRef (refs st)) as [id|] eqn:Hraf;
    st_unfold; inv_frame HI.
  - intros id' [c Hc]. apply lookup_delete_Some in Hc as [Hne Hc].
    specialize (inv_frames0 id' (ex_intro _ c Hc)). congruence.
  - intros id' Hid'. specialize (inv_frames0 id' Hid'). congruence.
Qed.

Lemma Inv_onStop st : Inv st -> Inv (onStop st).
Proof.
  intros HI. unfold onStop.
  pose proof (Inv_stop_frames _ (Inv_pauseAudio _ (Inv_setRunning false _ HI)))
    as HI'.
  inv_frame HI'.
Qed.

Lemma Inv_onFiles files st : Inv st -> Inv (onFiles files st).
Proof.
  intros HI. unfold onFiles. destruct files as [fs|]; [|done].
  destruct (length fs =? 0)%nat; [done|].
  destruct (collectNewTracks _ fs [] st) as [newTracks st'] eqn:E.
  apply collectNewTracks_spec in E
    as (H1 & H2 & H3 & H4 & H5 & H6 & H7 & H8 & H9).
  destruct HI as [Ha Hg Hgm Hu Hum Hm Hf Hp Hmm Hl].
  specialize (H7 (tracks (ui st))). rewrite !app_nil_r in H7.
  destruct (H7 Hu Hm) as [H7a H7b].
  constructor; st_simpl; rewrite ?H1, ?H2, ?H3, ?H4; try done.
  - intros u Hu'. destruct (Hp u Hu') as (M & N & L). split_and!.
    + eapply minted_mono; [|exact M]. done.
    + rewrite fmap_app, elem_of_app. intros [?|Hin]; [done|].
      revert Hin. apply H8; [done|]. apply not_elem_of_nil.
    + by apply H6.
  - eapply Forall_impl; [exact Hmm|]. intros t Ht. cbn beta in *.
    eapply minted_mono; [|exact Ht]. done.
  - intros u Hu'. eapply minted_mono; [|by apply Hl]. done.
Qed.

Lemma Inv_clearFiles st : Inv st -> Inv (clearFiles st).
Proof.
  intros HI. unfold clearFiles.
  assert (HI1 : Inv (setLastPlayedUrl None
                       (setTracks [] (revokeAll (tracks (ui st)) st)))).
  { destruct (revokeAll_spec (tracks (ui st)) st)
      as (H1 & H2 & H3 & H4 & H5 & H6 & H7 & H8).
    destruct HI as [Ha Hg Hgm Hu Hum Hm Hf Hp Hmm Hl].
    constructor; st_simpl; rewrite ?H1, ?H2, ?H3, ?H4, ?H5; try done.
    - constructor.
    - intros u Hu'. destruct (Hp u Hu') as (M & N & L). split_and!; try done.
      + apply not_elem_of_nil.
      + by rewrite H7. }
  pose proof (Inv_stop_frames _ (Inv_pauseAudio _ (Inv_setRunning false _ HI1)))
    as HI'.
  inv_frame HI'.
Qed.

Lemma Inv_change_gap st :
  Inv st ->
  forall v, Inv (onChangeMinGap v st) /\ Inv (onChangeMaxGap v st) /\
            Inv (onChangeVolume v st).
Proof.
  intros HI v.
  destruct (clamp_bounds v 0 (inject_Z 3600)) as [C1 C2]; [done|].
  unfold onChangeMinGap, onChangeMaxGap, onChangeVolume.
  split_and!; inv_frame HI; unfold gap_ok in *; st_simpl; tauto.
Qed.

Ltac solve_minted HI :=
  st_cases; first [apply (inv_minted _ HI) | apply (inv_minted_ms _ HI)].

Lemma Inv_step op st : Inv st -> Inv (step op st).
Proof.
  intros HI. destruct op; cbn [step].
  - by apply Inv_onFiles.
  - by apply Inv_clearFiles.
  - unfold onStart. destruct (_ || _); [done|].
    destruct (audioRef _); [|by apply Inv_setRunning].
    apply Inv_playRandomTrack; [by apply Inv_setRunning|solve_minted HI].
  - by apply Inv_onStop.
  - unfold skipTrack. destruct (_ || _); [done|].
    destruct (currentIsSilenceRef _).
    + apply Inv_playRandomTrack; [by apply Inv_pauseAudio|solve_minted HI].
    + by apply Inv_playSilenceThenNext, Inv_pauseAudio.
  - unfold onEnded. destruct (audioRef _); [|done].
    destruct (negb _); [done|].
    destruct (currentIsSilenceRef _).
    + apply Inv_playRandomTrack; [inv_frame HI|solve_minted HI].
    + by apply Inv_playSilenceThenNext.
  - unfold onTimeUpdate. destruct (audioRef _); [|done].
    destruct (negb _); [|done]. inv_frame HI.
  - unfold onLoadedMetadata. destruct (audioRef _); [|done]. inv_frame HI.
  - by apply Inv_animationFrame.
  - by apply Inv_change_gap.
  - by apply Inv_change_gap.
  - by apply Inv_change_gap.
  - unfold glitchTimeout. inv_frame HI.
  - unfold msPlay. destruct (negb (hasMediaSession _)); [done|].
    assert (HI1 : Inv (if negb (r_running (mediaHandlers st))
                       then setRunning true st else st))
      by (destruct (negb _); [by apply Inv_setRunning|done]).
    destruct (audioRef _) eqn:Ea; [|done].
    destruct accepted.
    + inv_frame HI1.
    + apply Inv_setRunning. inv_frame HI1.
  - unfold msPause. destruct (negb (hasMediaSession _)); [done|].
    by apply Inv_setRunning, Inv_pauseAudio.
  - unfold msNextTrack. destruct (negb (hasMediaSession _)); [done|].
    destruct (audioRef _); [|done].
    destruct (currentIsSilenceRef _).
    + apply Inv_playRandomTrack; [by apply Inv_pauseAudio|solve_minted HI].
    + by apply Inv_playSilenceThenNext, Inv_pauseAudio.
  - unfold msPreviousTrack. destruct (negb (hasMediaSession _)); [done|].
    destruct (audioRef _); [|done].
    by apply Inv_playSilenceThenNext, Inv_pauseAudio.
Qed.

Lemma reachable_Inv st : reachable st -> Inv st.
Proof.
  induction 1 as [b|op st _ IH _]; [apply Inv_init|by apply Inv_step].
Qed.

(** ** Stopping *)

Lemma reachable_run ops : forall st,
  Forall op_draws_ok ops -> reachable st -> reachable (run ops st).
Proof.
  unfold run. induction ops as [|op ops IH]; intros st Hok Hst; [done|].
  cbn [fold_left]. apply Forall_cons in Hok as [Hop Hok]. apply IH; [done|].
  by constructor.
Qed.

Lemma unit_draw_half : Num.unit_draw (1 # 2).
Proof. split; [unfold Qle|unfold Qlt]; cbn; lia. Qed.

Lemma onStop_running st : running (ui (onStop st)) = false.
Proof.
  unfold onStop. st_cases; try done.
  all: by apply Bool.eqb_prop.
Qed.

Lemma onStop_refs st :
  pendingRevokeRef (refs (onStop st)) = pendingRevokeRef (refs st) /\
  lastPlayedUrlRef (refs (onStop st)) = lastPlayedUrlRef (refs st) /\
  currentIsSilenceRef (refs (onStop st)) = currentIsSilenceRef (refs st) /\
  currentMusicUrlRef (refs (onStop st)) = currentMusicUrlRef (refs st) /\
  objectUrls (host (onStop st)) = objectUrls (host st) /\
  rafRef (refs (onStop st)) = None.
Proof. unfold onStop. st_cases; done. Qed.

Lemma onStop_counters st :
  silenceRemainingMs (ui (onStop st)) = 0%Q /\
  currentTime (ui (onStop st)) = 0%Q /\
  duration (ui (onStop st)) = 0%Q.
Proof. unfold onStop. st_cases; done. Qed.

Lemma onStop_paused st a :
  audioRef (refs (onStop st)) = Some a -> paused a = true.
Proof. unfold onStop. st_cases; intros; by simplify_eq. Qed.

Lemma onStop_idempotent st :
  ui (onStop (onStop st)) = ui (onStop st) /\
  refs (onStop (onStop st)) = refs (onStop st) /\
  mediaHandlers (onStop (onStop st)) = mediaHandlers (onStop st) /\
  objectUrls (host (onStop (onStop st))) = objectUrls (host (onStop st)) /\
  frames (host (onStop (onStop st))) = frames (host (onStop st)).
Proof.
  pose proof (onStop_running st) as Hr.
  pose proof (onStop_refs st) as (_ & _ & _ & _ & _ & Hraf).
  pose proof (onStop_counters st) as (H1 & H2 & H3).
  pose proof (onStop_paused st) as Hp.
  set (st1 := onStop st) in *. clearbody st1.
  destruct st1 as [u rf h m]. destruct u, rf. st_simpl. subst.
  unfold onStop. st_unfold. st_simpl. cbn [Bool.eqb].
  destruct audioRef0 as [[s p v]|]; st_simpl; [|done].
  pose proof (Hp _ eq_refl) as Hp'. cbn in Hp'. by subst.
Qed.

Lemma onStop_frames st : Inv st -> frames (host (onStop st)) = ∅.
Proof.
  intros HI. apply map_empty. intros id.
  destruct (frames (host (onStop st)) !! id) as [c|] eqn:E; [|done].
  pose proof (inv_frames _ (Inv_onStop _ HI) id (ex_intro _ c E)) as H.
  pose proof (onStop_refs st) as (_ & _ & _ & _ & _ & Hraf). congruence.
Qed.

Lemma onEnded_idle r now acc st :
  running (ui st) = false -> onEnded r now acc st = st.
Proof.
  intros H. unfold onEnded. st_simpl. rewrite H. by destruct (audioRef _).
Qed.

(** The pending URL that [onStop] leaves behind is released by the next
    playback start (see C7) or, at the latest, by the unmount cleanup. *)
Lemma unmount_releases_pending st p :
  pendingRevokeRef (refs st) = Some p -> truthy (Some p) = true ->
  pendingRevokeRef (refs (unmount st)) = None /\
  objectUrls (host (unmount st)) !! p = None.
Proof.
  intros Hp Ht. unfold unmount.
  set (s1 := cleanupPendingRevoke st).
  assert (H1 : pendingRevokeRef (refs s1) = None /\
               objectUrls (host s1) !! p = None).
  { subst s1. unfold cleanupPendingRevoke. rewrite Hp, Ht.
    st_unfold. st_simpl. by rewrite lookup_delete_eq. }
  clearbody s1. destruct H1 as [P1 O1].
  st_cases; split; try done.
  all: match goal with
       | |- delete ?u _ !! _ = None =>
           destruct (decide (u = p)) as [->|];
           [by rewrite lookup_delete_eq|by rewrite lookup_delete_ne]
       end.
Qed.

(** ** C4: stop *)

Lemma gapScenario_ok : Forall op_draws_ok gapScenario.
Proof.
  unfold gapScenario.
  repeat (apply Forall_cons_2;
          [cbn [op_draws_ok]; first [exact I | apply unit_draw_half]|]).
  apply Forall_nil_2.
Qed.

(** C4, as amended.  From every reachable state, in whatever phase,
    [onStop] leaves the player idle ([running = false]), with the three
    counters at zero, [rafRef] cleared and no progress callback scheduled.
    It leaves the pending-release slot and the object URL registry as they
    were: a silence URL awaiting release stays pending.  Stopping twice is
    the same as stopping once. *)
Theorem C4_stop (st : State) :
  reachable st ->
  let st' := onStop st in
  running (ui st') = false /\ phase st' = Idle /\
  silenceRemainingMs (ui st') = 0%Q /\
  currentTime (ui st') = 0%Q /\ duration (ui st') = 0%Q /\
  rafRef (refs st') = None /\ frames (host st') = ∅ /\
  pendingRevokeRef (refs st') = pendingRevokeRef (refs st) /\
  objectUrls (host st') = objectUrls (host st) /\
  ui (onStop st') = ui st' /\ refs (onStop st') = refs st' /\
  mediaHandlers (onStop st') = mediaHandlers st' /\
  objectUrls (host (onStop st')) = objectUrls (host st') /\
  frames (host (onStop st')) = frames (host st').
Proof.
  intros Hst st'. subst st'. apply reachable_Inv in Hst.
  pose proof (onStop_running st) as Hr.
  pose proof (onStop_refs st) as (Hp & _ & _ & _ & Ho & Hraf).
  pose proof (onStop_counters st) as (H1 & H2 & H3).
  pose proof (onStop_idempotent st) as (I1 & I2 & I3 & I4 & I5).
  split_and!; try done.
  - unfold phase. by rewrite Hr.
  - by apply onStop_frames.
Qed.

Lemma C4_stop_witness :
  reachable (run gapScenario (init false)) /\
  phase (run gapScenario (init false)) = PlayingGap /\
  phase (onStop (run gapScenario (init false))) = Idle.
Proof.
  assert (H : reachable (run gapScenario (init false)))
    by (apply reachable_run; [apply gapScenario_ok|constructor]).
  split; [exact H|]. split; [by vm_compute|].
  apply (C4_stop _ H).
Defined.

(** C4 as stated fails: stopped in the gap phase, the player still holds
    the silence URL in the pending-release slot, and the registry still
    holds its blob. *)
Lemma C4_counterexample :
  let st := run gapScenario (init false) in
  reachable st /\ phase st = PlayingGap /\
  pendingRevokeRef (refs (onStop st)) = Some "blob:1" /\
  is_Some (objectUrls (host (onStop st)) !! "blob:1").
Proof.
  split; [apply reachable_run; [apply gapScenario_ok|constructor]|].
  split; [by vm_compute|]. split; [by vm_compute|].
  vm_compute. by eexists.
Qed.

(** ** C10: a late ['ended'] after stop *)

(** C10.  After [onStop], whatever the state it ran in, an ['ended']
    notification changes nothing: the player stays idle, no track and no
    gap is started, no host call is made. *)
Theorem C10_late_ended_ignored (st : State) (r now : Q) (accepted : bool) :
  onEnded r now accepted (onStop st) = onStop st /\
  phase (onEnded r now accepted (onStop st)) = Idle.
Proof.
  pose proof (onStop_running st) as Hr.
  rewrite onEnded_idle by done. split; [done|].
  unfold phase. by rewrite Hr.
Qed.

(** ** C1: random selection *)

Lemma filter_other_nonempty (ts : list Track) (last : option string) :
  NoDup (url <$> ts) -> (1 < length ts)%nat ->
  filter (fun tr => Some (url tr) <> last) ts <> [].
Proof.
  intros Hnd Hlen.
  destruct ts as [|t1 [|t2 rest]]; cbn [length] in Hlen; [lia|lia|].
  cbn [fmap list_fmap] in Hnd.
  apply NoDup_cons in Hnd as [Hnotin _].
  apply not_elem_of_cons in Hnotin as [Hne _].
  rewrite filter_cons. case_decide; [done|].
  rewrite filter_cons. case_decide; [done|].
  exfalso. destruct (decide (Some (url t1) = last)) as [E1|]; [|done].
  destruct (decide (Some (url t2) = last)) as [E2|]; [|done].
  congruence.
Qed.

Lemma minted_truthy n u : minted n u -> truthy (Some u) = true.
Proof. by intros (k & _ & ->). Qed.

(** What [playRandomTrack] leaves behind once its pool yields [t]. *)
Lemma playSrc_track rd (t : Track) acc st :
  is_Some (audioRef (refs st)) ->
  selected
    (playSrc rd (url t) {| revokeOnEnd := false; title := Some (name t) |} acc
       (setLastPlayedUrl (Some (url t))
          (setCurrentMusicUrl (Some (url t))
             (setCurrentIsSilence false st)))) t.
Proof.
  intros [a Ha]. unfold selected, playSrc. st_simpl. rewrite Ha.
  st_cases; done.
Qed.

Lemma callback_render_NoDup st rd :
  Inv st -> callback_render st rd -> NoDup (url <$> r_tracks rd).
Proof. intros HI [-> | ->]; apply HI. Qed.

(** C1.  In every reachable state, for either pool a selection can run on
    and every value of [Math.random()]: if a last-played URL is recorded
    and the pool has more than one track, [playRandomTrack] selects a
    track of the pool whose URL is not the last-played one; if the pool
    has exactly one track, it selects that track. *)
Theorem C1_no_immediate_repeat (st : State) (rd : Render) (r : Q)
    (accepted : bool) :
  reachable st -> callback_render st rd -> Num.unit_draw r ->
  let st' := playRandomTrack rd r accepted st in
  (forall u,
     lastPlayedUrlRef (refs st) = Some u ->
     (1 < length (r_tracks rd))%nat ->
     exists t, t ∈ r_tracks rd /\ url t <> u /\ selected st' t) /\
  (forall t, r_tracks rd = [t] -> selected st' t).
Proof.
  intros Hst Hrd Hr st'. subst st'. apply reachable_Inv in Hst.
  pose proof (callback_render_NoDup _ _ Hst Hrd) as Hnd.
  pose proof (inv_audio _ Hst) as Ha.
  split.
  - intros u Hu Hlen. unfold playRandomTrack.
    destruct (Nat.eqb_spec (length (r_tracks rd)) 0) as [|_]; [lia|].
    rewrite Hu, (minted_truthy _ _ (inv_last _ Hst _ Hu)).
    destruct (Nat.ltb_spec 1 (length (r_tracks rd))) as [_|]; [|lia].
    cbn [andb].
    destruct (pickRandom_Some
                (filter (fun tr => Some (url tr) <> Some u) (r_tracks rd)) r)
      as (t & Ht & Hin); [by apply filter_other_nonempty|done|].
    rewrite Ht. apply list_elem_of_filter in Hin as [Hne Hin].
    exists t. split; [done|]. split; [congruence|].
    by apply playSrc_track.
  - intros t Ht. unfold playRandomTrack. rewrite Ht. cbn [length Nat.eqb Nat.ltb Nat.leb].
    rewrite andb_false_r, pickRandom_singleton by done.
    by apply playSrc_track.
Qed.

Lemma twoTracks_ok : Forall op_draws_ok twoTracks.
Proof.
  unfold twoTracks.
  repeat (apply Forall_cons_2;
          [cbn [op_draws_ok]; first [exact I | apply unit_draw_half]|]).
  apply Forall_nil_2.
Qed.

Lemma C1_no_immediate_repeat_witness :
  let st := run twoTracks (init false) in
  reachable st /\ callback_render st (render (ui st)) /\
  Num.unit_draw (1 # 2) /\
  lastPlayedUrlRef (refs st) = Some "blob:1" /\
  exists t, t ∈ tracks (ui st) /\ url t <> "blob:1" /\
            selected (playRandomTrack (render (ui st)) (1 # 2) true st) t.
Proof.
  intros st.
  assert (H : reachable st)
    by (apply reachable_run; [apply twoTracks_ok|constructor]).
  split; [exact H|]. split; [by left|]. split; [apply unit_draw_half|].
  split; [by vm_compute|].
  apply (C1_no_immediate_repeat st (render (ui st)) (1 # 2) true H
           (or_introl eq_refl) unit_draw_half);
    [by vm_compute|vm_compute; lia].
Defined.

(** ** What a playback start changes *)

Lemma playSrc_frame rd u opts acc st :
  let st' := playSrc rd u opts acc st in
  tracks (ui st') = tracks (ui st) /\
  minGapSec (ui st') = minGapSec (ui st) /\
  maxGapSec (ui st') = maxGapSec (ui st) /\
  volume (ui st') = volume (ui st) /\
  silenceRemainingMs (ui st') = silenceRemainingMs (ui st) /\
  currentTime (ui st') = currentTime (ui st) /\
  duration (ui st') = duration (ui st) /\
  currentIsSilenceRef (refs st') = currentIsSilenceRef (refs st) /\
  currentMusicUrlRef (refs st') = currentMusicUrlRef (refs st) /\
  lastPlayedUrlRef (refs st') = lastPlayedUrlRef (refs st) /\
  silenceStartRef (refs st') = silenceStartRef (refs st) /\
  silenceDurRef (refs st') = silenceDurRef (refs st) /\
  rafRef (refs st') = rafRef (refs st) /\
  frames (host st') = frames (host st) /\
  nextUrl (host st') = nextUrl (host st) /\
  nextFrame (host st') = nextFrame (host st) /\
  hasMediaSession (host st') = hasMediaSession (host st).
Proof.
  intros st'. subst st'. unfold playSrc.
  destruct (audioRef (refs st)) as [a|]; [|done].
  destruct acc.
  - destruct (match title opts with Some t => _ | None => _ end),
      (revokeOnEnd opts), (truthy (title opts));
      st_cases; done.
  - st_cases; done.
Qed.

Lemma playSrc_started rd u opts acc st a :
  audioRef (refs st) = Some a ->
  let st' := playSrc rd u opts acc st in
  audioRef (refs st') =
    Some {| src := u; paused := if acc then false else paused a;
            audioVolume := r_volume rd |} /\
  running (ui st') = (if acc then running (ui st) else false) /\
  pendingRevokeRef (refs st') =
    (if acc && revokeOnEnd opts then Some u
     else if truthy (pendingRevokeRef (refs st)) then None
          else pendingRevokeRef (refs st)) /\
  objectUrls (host st') = objectUrls (host (cleanupPendingRevoke st)) /\
  exists rest,
    log (host st') =
      log (host (cleanupPendingRevoke st)) ++
      [ESetSrc u; EPlay acc] ++ rest /\
    playAttempts rest = [].
Proof.
  intros Ha st'. subst st'. unfold playSrc. rewrite Ha.
  destruct acc.
  - destruct (match title opts with Some t => _ | None => _ end),
      (revokeOnEnd opts), (truthy (title opts));
      (split_and!; [st_cases; done..|]);
      st_cases;
      (eexists; split; [rewrite <- ?app_assoc; cbn [app]; reflexivity|done]).
  - split_and!;
      [st_cases; try done;
       match goal with
       | H : Bool.eqb _ _ = true |- _ => by apply Bool.eqb_prop in H
       end..|].
    st_cases;
      (eexists; split; [rewrite <- ?app_assoc; cbn [app]; reflexivity|done]).
Qed.

(** ** C3: the gap duration *)


(** What [playSilenceThenNext] records and plays. *)
Lemma playSilenceThenNext_refs rd r now acc st :
  let d := gapDuration (r_minGapSec rd) (r_maxGapSec rd) r in
  let st' := playSilenceThenNext rd r now acc st in
  silenceDurRef (refs st') = (d * inject_Z 1000)%Q /\
  silenceRemainingMs (ui st') = (d * inject_Z 1000)%Q /\
  silenceStartRef (refs st') = now /\
  currentIsSilenceRef (refs st') = true /\
  currentMusicUrlRef (refs st') = None /\
  lastPlayedUrlRef (refs st') = lastPlayedUrlRef (refs st) /\
  nextUrl (host st') = S (nextUrl (host st)) /\
  tracks (ui st') = tracks (ui st).
Proof.
  intros d st'. subst d st'. unfold playSilenceThenNext.
  destruct (makeSilenceWavUrl_total
              (gapDuration (r_minGapSec rd) (r_maxGapSec rd) r) st)
    as (blob & _ & ->).
  st_unfold. st_simpl.
  match goal with
  | |- context [playSrc ?rd ?u ?o ?a ?s] =>
      destruct (playSrc_frame rd u o a s)
        as (F1 & _ & _ & _ & F2 & _ & _ & F3 & F4 & F5 & F6 & F7 & _ & _
            & F8 & _)
  end.
  rewrite F1, F2, F3, F4, F5, F6, F7, F8.
  split_and!; st_cases; done.
Qed.

Lemma playSilenceThenNext_started rd r now acc st :
  Inv st ->
  let d := gapDuration (r_minGapSec rd) (r_maxGapSec rd) r in
  let st' := playSilenceThenNext rd r now acc st in
  src <$> audioRef (refs st') = Some (blobUrl (nextUrl (host st))) /\
  running (ui st') = (if acc then running (ui st) else false) /\
  objectUrls (host st') !! blobUrl (nextUrl (host st)) =
    silenceContainer d st /\
  pendingRevokeRef (refs st') =
    (if acc then Some (blobUrl (nextUrl (host st))) else None) /\
  exists pre rest,
    log (host st') =
      log (host st) ++ pre ++
      [ESetSrc (blobUrl (nextUrl (host st))); EPlay acc] ++ rest /\
    playAttempts pre = [] /\ playAttempts rest = [].
Proof.
  intros HI d st'. subst d st'.
  unfold playSilenceThenNext, silenceContainer.
  destruct (makeSilenceWavUrl_total
              (gapDuration (r_minGapSec rd) (r_maxGapSec rd) r) st)
    as (blob & _ & ->).
  cbn [mbind option_bind].
  destruct (inv_audio _ HI) as [a Ha].
  st_unfold. st_simpl.
  match goal with
  | |- context [playSrc ?rd ?u ?o ?acc ?s] => set (st2 := s); set (opts := o)
  end.
  set (u := blobUrl (nextUrl (host st))).
  assert (E1 : pendingRevokeRef (refs st2) = pendingRevokeRef (refs st))
    by (subst st2; st_cases; done).
  assert (E2 : audioRef (refs st2) = Some a)
    by (subst st2; st_cases; done).
  assert (E3 : objectUrls (host st2) = <[u := blob]> (objectUrls (host st)))
    by (subst st2; st_cases; done).
  assert (E4 : running (ui st2) = running (ui st))
    by (subst st2; st_cases; done).
  assert (E5 : exists pre, log (host st2) = log (host st) ++ pre /\
                           playAttempts pre = []).
  { subst st2. st_cases; rewrite <- ?app_assoc; by eexists. }
  destruct E5 as (pre & E5 & E6).
  destruct (playSrc_started rd u opts acc st2 a E2)
    as (S1 & S2 & S3 & S4 & rest & S5 & S6).
  rewrite S1, S2, S3, S4, S5. clear S1 S2 S3 S4 S5.
  unfold cleanupPendingRevoke. rewrite E1, E4.
  destruct (pendingRevokeRef (refs st)) as [p|] eqn:Ep.
  - destruct (inv_pending _ HI p Ep) as (M & _ & _).
    rewrite (minted_truthy _ _ M). apply minted_fresh in M.
    st_unfold. st_simpl. rewrite E3, E5.
    split_and!; try done.
    + rewrite lookup_delete_ne by done. by rewrite lookup_insert_eq.
    + by destruct acc.
    + exists (pre ++ [ERevokeObjectURL p]), rest.
      split; [by rewrite <- !app_assoc|]. split; [|done].
      unfold playAttempts in *. by rewrite omap_app, E6.
  - cbn [truthy]. rewrite E3, E5. split_and!; try done.
    + by destruct acc.
    + exists pre, rest. by rewrite <- !app_assoc.
Qed.



(** ** C5: registering files *)

Lemma existsb_name (pool : list Track) (n : string) :
  existsb (fun track => String.eqb (name track) n) pool = true <->
  n ∈ (name <$> pool).
Proof.
  rewrite existsb_exists, list_elem_of_fmap. split.
  - intros (t & Hin & E). apply String.eqb_eq in E.
    exists t. split; [done|]. by apply list_elem_of_In.
  - intros (t & E & Hin). exists t. split; [by apply list_elem_of_In|].
    by apply String.eqb_eq.
Qed.

Lemma onFiles_tracks (fs : list File) (st : State) :
  exists newTracks,
    tracks (ui (onFiles (Some fs) st)) = tracks (ui st) ++ newTracks /\
    name <$> newTracks =
      filter (fun n => n ∉ (name <$> tracks (ui st))) (fileName <$> fs).
Proof.
  unfold onFiles. destruct fs as [|f fs].
  - exists []. by rewrite app_nil_r.
  - cbn [length Nat.eqb].
    destruct (collectNewTracks _ (f :: fs) [] st) as [newTracks st'] eqn:E.
    apply collectNewTracks_spec in E as (H1 & _ & _ & _ & _ & _ & _ & _ & H9).
    exists newTracks. st_simpl. rewrite H1. split; [done|].
    rewrite H9. cbn [fmap list_fmap app].
    apply list_filter_iff. intros n.
    rewrite negb_true_iff, <- not_true_iff_false. by rewrite existsb_name.
Qed.

(** C5.  [onFiles] appends to the pool one track per input file whose
    name no track of the pool carries, in input order, and skips the
    other files without any error; so registering a file a second time
    adds nothing, and registering a file, "a.mp3" say, twice on an empty
    pool leaves a pool of size 1. *)
Theorem C5_register_skips_duplicates (fs : list File) (st : State) :
  (exists newTracks,
     tracks (ui (onFiles (Some fs) st)) = tracks (ui st) ++ newTracks /\
     name <$> newTracks =
       filter (fun n => n ∉ (name <$> tracks (ui st))) (fileName <$> fs)) /\
  (forall f,
     tracks (ui (onFiles (Some [f]) (onFiles (Some [f]) st))) =
     tracks (ui (onFiles (Some [f]) st))) /\
  (forall f,
     tracks (ui st) = [] ->
     length (tracks (ui (onFiles (Some [f]) (onFiles (Some [f]) st)))) = 1%nat).
Proof.
  assert (Hsecond : forall f,
            tracks (ui (onFiles (Some [f]) (onFiles (Some [f]) st))) =
            tracks (ui (onFiles (Some [f]) st))).
  { intros f.
    destruct (onFiles_tracks [f] st) as (new1 & T1 & N1).
    destruct (onFiles_tracks [f] (onFiles (Some [f]) st)) as (new2 & T2 & N2).
    cbn [fmap list_fmap] in N1, N2.
    assert (Hin : fileName f ∈ (name <$> tracks (ui (onFiles (Some [f]) st)))).
    { rewrite T1, fmap_app, elem_of_app.
      destruct (decide (fileName f ∈ (name <$> tracks (ui st))))
        as [Hold|Hnew]; [by left|right].
      rewrite N1, filter_cons, decide_True, filter_nil by done.
      by apply list_elem_of_singleton. }
    rewrite filter_cons, decide_False, filter_nil in N2 by (by intros H).
    apply fmap_nil_inv in N2. subst new2. by rewrite T2, app_nil_r. }
  split; [apply onFiles_tracks|]. split; [exact Hsecond|].
  intros f Hempty. rewrite Hsecond.
  destruct (onFiles_tracks [f] st) as (new1 & T1 & N1).
  rewrite Hempty in *. cbn [app fmap list_fmap] in *.
  rewrite filter_cons, decide_True, filter_nil in N1 by apply not_elem_of_nil.
  rewrite T1. apply (f_equal length) in N1. by rewrite length_fmap in N1.
Qed.

(** The duplicate check looks at the pool as rendered, not at the files
    accepted earlier in the same call: two files of one name in one call
    are both appended. *)
Remark onFiles_same_call :
  name <$> tracks (ui (onFiles (Some [sampleFile "a.mp3"; sampleFile "a.mp3"])
                         (init false))) = ["a.mp3"; "a.mp3"].
Proof. by vm_compute. Qed.

(** ** C6: skip *)

Lemma pauseAudio_frame st :
  ui (pauseAudio st) = ui st /\
  mediaHandlers (pauseAudio st) = mediaHandlers st /\
  objectUrls (host (pauseAudio st)) = objectUrls (host st) /\
  frames (host (pauseAudio st)) = frames (host st) /\
  nextUrl (host (pauseAudio st)) = nextUrl (host st) /\
  currentIsSilenceRef (refs (pauseAudio st)) = currentIsSilenceRef (refs st) /\
  pendingRevokeRef (refs (pauseAudio st)) = pendingRevokeRef (refs st) /\
  lastPlayedUrlRef (refs (pauseAudio st)) = lastPlayedUrlRef (refs st) /\
  silenceDurRef (refs (pauseAudio st)) = silenceDurRef (refs st) /\
  (exists pre, log (host (pauseAudio st)) = log (host st) ++ pre /\
               playAttempts pre = []).
Proof.
  split_and!; [st_cases; done..|].
  st_cases; [by exists [EPause]|exists []; by rewrite app_nil_r].
Qed.

(** [playRandomTrack] on a non-empty pool of distinct URLs: it starts
    some track of the pool, other than the last played one when the pool
    has more than one track. *)
Lemma playRandomTrack_selects rd r acc st :
  (forall u, lastPlayedUrlRef (refs st) = Some u -> truthy (Some u) = true) ->
  NoDup (url <$> r_tracks rd) -> r_tracks rd <> [] -> Num.unit_draw r ->
  exists t,
    t ∈ r_tracks rd /\
    (forall u, lastPlayedUrlRef (refs st) = Some u ->
               (1 < length (r_tracks rd))%nat -> url t <> u) /\
    playRandomTrack rd r acc st =
      playSrc rd (url t) {| revokeOnEnd := false; title := Some (name t) |}
        acc
        (setLastPlayedUrl (Some (url t))
           (setCurrentMusicUrl (Some (url t))
              (setCurrentIsSilence false st))).
Proof.
  intros Hlast Hnd Hne Hr. unfold playRandomTrack.
  destruct (Nat.eqb_spec (length (r_tracks rd)) 0) as [E|_];
    [by destruct (r_tracks rd)|].
  destruct (truthy (lastPlayedUrlRef (refs st)) &&
            (1 <? length (r_tracks rd))%nat) eqn:Ec.
  - apply andb_true_iff in Ec as [_ Hlen%Nat.ltb_lt].
    destruct (pickRandom_Some
                (filter (fun tr => Some (url tr) <> lastPlayedUrlRef (refs st))
                        (r_tracks rd)) r)
      as (t & Ht & Hin); [by apply filter_other_nonempty|done|].
    rewrite Ht. apply list_elem_of_filter in Hin as [Hneq Hin].
    exists t. split_and!; [done| |done]. intros u Hu _. congruence.
  - destruct (pickRandom_Some (r_tracks rd) r) as (t & Ht & Hin); [done..|].
    rewrite Ht. exists t. split_and!; [done| |done].
    intros u Hu Hlen. rewrite Hu, (Hlast u Hu) in Ec.
    apply Nat.ltb_lt in Hlen. by rewrite Hlen in Ec.
Qed.



(** ** C7: the pending-release slot *)

(** C7.  In every reachable state the pending-release slot is empty or
    names one live object URL that is no track's.  Every [playSrc], for
    any source, first revokes the URL in the slot (if any), then sets the
    new source and asks the platform to play; afterwards the revoked URL
    is gone from the registry and the slot holds the new source if it
    was accepted and asked to be revoked on end, nothing otherwise. *)
Theorem C7_single_pending (st : State) (rd : Render) (u : string)
    (opts : PlayOptions) (accepted : bool) :
  reachable st ->
  let st' := playSrc rd u opts accepted st in
  (forall p, pendingRevokeRef (refs st) = Some p ->
     is_Some (objectUrls (host st) !! p) /\ (p ∉ (url <$> tracks (ui st))) /\
     objectUrls (host st') !! p = None /\
     exists rest,
       log (host st') =
         log (host st) ++
         [ERevokeObjectURL p; ESetSrc u; EPlay accepted] ++ rest) /\
  (pendingRevokeRef (refs st) = None ->
     objectUrls (host st') = objectUrls (host st) /\
     exists rest,
       log (host st') = log (host st) ++ [ESetSrc u; EPlay accepted] ++ rest) /\
  pendingRevokeRef (refs st') =
    (if accepted && revokeOnEnd opts then Some u else None).
Proof.
  intros Hst st'. subst st'. apply reachable_Inv in Hst.
  destruct (inv_audio _ Hst) as [a Ha].
  destruct (playSrc_started rd u opts accepted st a Ha)
    as (_ & _ & S3 & S4 & rest & S5 & _).
  rewrite S3, S4, S5. unfold cleanupPendingRevoke.
  destruct (pendingRevokeRef (refs st)) as [p|] eqn:Ep.
  - destruct (inv_pending _ Hst p Ep) as (M & N & L).
    rewrite (minted_truthy _ _ M). st_unfold. st_simpl.
    split_and!; [|done|by destruct (_ && _)].
    intros ? [= <-]. split_and!; try done.
    + by rewrite lookup_delete_eq.
    + exists rest. by rewrite <- !app_assoc.
  - cbn [truthy]. split_and!; [done| |done].
    intros _. split; [done|]. by exists rest.
Qed.

Lemma C7_single_pending_witness :
  let st := run gapScenario (init false) in
  reachable st /\
  pendingRevokeRef (refs st) = Some "blob:1" /\
  objectUrls
    (host (playSrc (render (ui st)) "blob:0"
             {| revokeOnEnd := false; title := None |} true st))
    !! "blob:1" = None.
Proof.
  intros st.
  assert (H : reachable st)
    by (apply reachable_run; [apply gapScenario_ok|constructor]).
  assert (P : pendingRevokeRef (refs st) = Some "blob:1") by (by vm_compute).
  destruct (C7_single_pending st (render (ui st)) "blob:0"
              {| revokeOnEnd := false; title := None |} true H)
    as (G & _).
  destruct (G _ P) as (_ & _ & G' & _).
  exact (conj H (conj P G')).
Defined.

(** ** C8: a rejected playback start *)

Lemma playAttempts_app l1 l2 :
  playAttempts (l1 ++ l2) = playAttempts l1 ++ playAttempts l2.
Proof. apply omap_app. Qed.

Lemma cleanupPendingRevoke_log st :
  exists pre,
    log (host (cleanupPendingRevoke st)) = log (host st) ++ pre /\
    playAttempts pre = [].
Proof.
  st_cases; first [by eexists [_] | exists []; by rewrite app_nil_r].
Qed.

(** One playback start: one attempt in the log, and the player keeps
    running exactly when the platform accepts. *)
Lemma playSrc_attempt rd u opts acc st :
  is_Some (audioRef (refs st)) ->
  let st' := playSrc rd u opts acc st in
  running (ui st') = (if acc then running (ui st) else false) /\
  playAttempts (log (host st')) = playAttempts (log (host st)) ++ [acc].
Proof.
  intros [a Ha] st'. subst st'.
  destruct (playSrc_started rd u opts acc st a Ha)
    as (_ & S2 & _ & _ & rest & S5 & S6).
  destruct (cleanupPendingRevoke_log st) as (pre & E & Hpre).
  split; [done|].
  rewrite S5, E, !playAttempts_app, Hpre, S6. cbn. by rewrite ?app_nil_r.
Qed.

Lemma playSilenceThenNext_attempt rd r now acc st :
  Inv st ->
  let st' := playSilenceThenNext rd r now acc st in
  running (ui st') = (if acc then running (ui st) else false) /\
  playAttempts (log (host st')) = playAttempts (log (host st)) ++ [acc].
Proof.
  intros HI st'. subst st'.
  destruct (playSilenceThenNext_started rd r now acc st HI)
    as (_ & Q2 & _ & _ & pre & rest & Q5 & Hpre & Hrest).
  split; [done|].
  rewrite Q5, !playAttempts_app, Hpre, Hrest. cbn. by rewrite ?app_nil_r.
Qed.

Lemma playRandomTrack_attempt rd r acc st :
  Inv st -> NoDup (url <$> r_tracks rd) -> r_tracks rd <> [] ->
  Num.unit_draw r ->
  let st' := playRandomTrack rd r acc st in
  running (ui st') = (if acc then running (ui st) else false) /\
  playAttempts (log (host st')) = playAttempts (log (host st)) ++ [acc].
Proof.
  intros HI Hnd Hne Hr st'. subst st'.
  assert (Hlast : forall u, lastPlayedUrlRef (refs st) = Some u ->
                            truthy (Some u) = true).
  { intros u Hu. eapply minted_truthy. by apply (inv_last _ HI). }
  destruct (playRandomTrack_selects rd r acc st Hlast Hnd Hne Hr)
    as (t & _ & _ & ->).
  match goal with
  | |- context [playSrc ?rd ?u ?o ?acc ?s] =>
      destruct (playSrc_attempt rd u o acc s) as [R L]; [apply HI|]
  end.
  split; [exact R|exact L].
Qed.

(** C8.  In a reachable state whose phase is not [Idle], when the
    platform rejects the playback start: [playSrc] itself, the ['ended']
    handler and [skipTrack] (with a non-empty pool) all leave the player
    idle with [running = false], and the log shows the one rejected
    attempt and no further one. *)
Theorem C8_playback_rejected (st : State) (r now : Q) :
  reachable st -> Num.unit_draw r -> phase st <> Idle ->
  tracks (ui st) <> [] ->
  (forall rd u opts,
     let st' := playSrc rd u opts false st in
     running (ui st') = false /\ phase st' = Idle /\
     playAttempts (log (host st')) = playAttempts (log (host st)) ++ [false]) /\
  (let st' := onEnded r now false st in
   running (ui st') = false /\ phase st' = Idle /\
   playAttempts (log (host st')) = playAttempts (log (host st)) ++ [false]) /\
  (let st' := skipTrack r now false st in
   running (ui st') = false /\ phase st' = Idle /\
   playAttempts (log (host st')) = playAttempts (log (host st)) ++ [false]).
Proof.
  intros Hst Hr Hph Hne. apply reachable_Inv in Hst.
  destruct (inv_audio _ Hst) as [a Ha].
  assert (Hrun : running (ui st) = true)
    by (unfold phase in Hph; by destruct (running (ui st))).
  assert (Hidle : forall s, running (ui s) = false -> phase s = Idle)
    by (intros s Hs; unfold phase; by rewrite Hs).
  pose proof (inv_urls _ Hst) as Hnd.
  split_and!.
  - intros rd u opts st'. subst st'.
    destruct (playSrc_attempt rd u opts false st (inv_audio _ Hst)) as [R L].
    split_and!; [done|by apply Hidle|done].
  - intros st'. subst st'. unfold onEnded.
    change (r_running (render (ui st))) with (running (ui st)).
    rewrite Ha, Hrun. cbn [negb].
    destruct (currentIsSilenceRef (refs st)).
    + destruct (playRandomTrack_attempt (render (ui st)) r false
                  (setSilenceRemainingMs 0 st)) as [R L];
        [by inv_frame Hst|done..|].
      split_and!; [done|by apply Hidle|done].
    + destruct (playSilenceThenNext_attempt (render (ui st)) r now false st Hst)
        as [R L].
      split_and!; [done|by apply Hidle|done].
  - intros st'. subst st'. unfold skipTrack.
    change (r_running (render (ui st))) with (running (ui st)).
    rewrite Ha, Hrun, bool_decide_true by (by eexists). cbn [negb orb].
    destruct (pauseAudio_frame st)
      as (U & _ & _ & _ & _ & CS & _ & _ & _ & pre & E & Hpre).
    pose proof (Inv_pauseAudio _ Hst) as HI'.
    assert (EL : playAttempts (log (host (pauseAudio st))) =
                 playAttempts (log (host st)))
      by (by rewrite E, playAttempts_app, Hpre, app_nil_r).
    rewrite CS. destruct (currentIsSilenceRef (refs st)).
    + destruct (playRandomTrack_attempt (render (ui st)) r false
                  (pauseAudio st)) as [R L]; [done..|].
      rewrite EL in L. split_and!; [done|by apply Hidle|done].
    + destruct (playSilenceThenNext_attempt (render (ui st)) r now false
                  (pauseAudio st) HI') as [R L].
      rewrite EL in L. split_and!; [done|by apply Hidle|done].
Qed.

Lemma C8_playback_rejected_witness :
  let st := run twoTracks (init false) in
  reachable st /\ Num.unit_draw (1 # 2) /\ phase st <> Idle /\
  tracks (ui st) <> [] /\
  phase (onEnded (1 # 2) 0 false st) = Idle /\
  phase (skipTrack (1 # 2) 0 false st) = Idle.
Proof.
  intros st.
  assert (H : reachable st)
    by (apply reachable_run; [apply twoTracks_ok|constructor]).
  assert (P : phase st <> Idle) by (by vm_compute).
  assert (T : tracks (ui st) <> []) by (by vm_compute).
  destruct (C8_playback_rejected st (1 # 2) 0 H unit_draw_half P T)
    as (_ & (_ & G1 & _) & (_ & G2 & _)).
  exact (conj H (conj unit_draw_half (conj P (conj T (conj G1 G2))))).
Defined.

(** ** C9: the last-played reference *)

Lemma playRandomTrack_last rd r acc st :
  lastPlayedUrlRef (refs (playRandomTrack rd r acc st)) =
    lastPlayedUrlRef (refs st) \/
  is_Some (lastPlayedUrlRef (refs (playRandomTrack rd r acc st))).
Proof.
  unfold playRandomTrack.
  destruct (length (r_tracks rd) =? 0)%nat; [by left|].
  destruct (pickRandom _ r) as [t|]; [|by left].
  right.
  match goal with
  | |- context [playSrc ?rd ?u ?o ?acc ?s] =>
      destruct (playSrc_frame rd u o acc s)
        as (_ & _ & _ & _ & _ & _ & _ & _ & _ & F & _)
  end.
  rewrite F. by eexists.
Qed.

Lemma setRunning_last b st :
  lastPlayedUrlRef (refs (setRunning b st)) = lastPlayedUrlRef (refs st).
Proof. st_cases; done. Qed.

Lemma animationFrame_last id now st :
  lastPlayedUrlRef (refs (animationFrame id now st)) =
  lastPlayedUrlRef (refs st).
Proof. unfold animationFrame, tick. st_cases; done. Qed.

Lemma onFiles_frame files st :
  refs (onFiles files st) = refs st /\
  running (ui (onFiles files st)) = running (ui st).
Proof.
  unfold onFiles. destruct files as [fs|]; [|done].
  destruct (length fs =? 0)%nat; [done|].
  destruct (collectNewTracks _ fs [] st) as [newTracks st'] eqn:E.
  apply collectNewTracks_spec in E as (H1 & H2 & _).
  st_simpl. by rewrite H1, H2.
Qed.

(** No operation but [clearFiles] takes a recorded last-played URL
    away. *)
Lemma step_keeps_last op st :
  op <> ClearFiles ->
  lastPlayedUrlRef (refs (step op st)) = None ->
  lastPlayedUrlRef (refs st) = None.
Proof.
  intros Hop.
  assert (Hrt : forall rd r acc s,
            lastPlayedUrlRef (refs (playRandomTrack rd r acc s)) = None ->
            lastPlayedUrlRef (refs s) = None).
  { intros rd r acc s H.
    destruct (playRandomTrack_last rd r acc s) as [E|[x E]]; congruence. }
  assert (Hsn : forall rd r now acc s,
            lastPlayedUrlRef (refs (playSilenceThenNext rd r now acc s)) =
            lastPlayedUrlRef (refs s)).
  { intros. by destruct (playSilenceThenNext_refs rd r now acc s)
      as (_ & _ & _ & _ & _ & H & _). }
  assert (Hpa : forall s, lastPlayedUrlRef (refs (pauseAudio s)) =
                          lastPlayedUrlRef (refs s)).
  { intros s. by destruct (pauseAudio_frame s)
      as (_ & _ & _ & _ & _ & _ & _ & H & _). }
  destruct op; cbn [step]; try done.
  - by destruct (onFiles_frame files st) as [-> _].
  - unfold onStart. destruct (_ || _); [done|].
    destruct (audioRef _); [|by rewrite setRunning_last].
    intros H%Hrt. by rewrite setRunning_last in H.
  - by destruct (onStop_refs st) as (_ & -> & _).
  - unfold skipTrack. destruct (_ || _); [done|].
    destruct (currentIsSilenceRef _).
    + intros H%Hrt. by rewrite Hpa in H.
    + by rewrite Hsn, Hpa.
  - unfold onEnded. destruct (audioRef _); [|done].
    destruct (negb _); [done|].
    destruct (currentIsSilenceRef _); [by intros H%Hrt|by rewrite Hsn].
  - unfold onTimeUpdate. destruct (audioRef _); [|done].
    by destruct (negb _).
  - unfold onLoadedMetadata. by destruct (audioRef _).
  - by rewrite animationFrame_last.
  - unfold msPlay. destruct (negb (hasMediaSession _)); [done|].
    st_cases; done.
  - unfold msPause. destruct (negb (hasMediaSession _)); [done|].
    by rewrite setRunning_last, Hpa.
  - unfold msNextTrack. destruct (negb (hasMediaSession _)); [done|].
    destruct (audioRef _); [|done].
    destruct (currentIsSilenceRef _).
    + intros H%Hrt. by rewrite Hpa in H.
    + by rewrite Hsn, Hpa.
  - unfold msPreviousTrack. destruct (negb (hasMediaSession _)); [done|].
    destruct (audioRef _); [|done]. by rewrite Hsn, Hpa.
Qed.

Lemma clearFiles_frame st :
  lastPlayedUrlRef (refs (clearFiles st)) = None /\
  running (ui (clearFiles st)) = false /\
  tracks (ui (clearFiles st)) = [].
Proof.
  unfold clearFiles.
  destruct (revokeAll_spec (tracks (ui st)) st) as (H1 & H2 & _).
  set (s := revokeAll (tracks (ui st)) st) in *. clearbody s.
  split_and!; st_cases; try done.
  all: by apply Bool.eqb_prop.
Qed.

(** With no last-played URL recorded, the whole pool is drawn from. *)
Lemma playRandomTrack_free rd r acc st t :
  lastPlayedUrlRef (refs st) = None ->
  pickRandom (r_tracks rd) r = Some t ->
  playRandomTrack rd r acc st =
    playSrc rd (url t) {| revokeOnEnd := false; title := Some (name t) |} acc
      (setLastPlayedUrl (Some (url t))
         (setCurrentMusicUrl (Some (url t)) (setCurrentIsSilence false st))).
Proof.
  intros Hnone Hpick. unfold playRandomTrack.
  rewrite Hnone. cbn [truthy andb]. rewrite Hpick.
  destruct (Nat.eqb_spec (length (r_tracks rd)) 0) as [E|_]; [|done].
  unfold pickRandom in Hpick. by rewrite E in Hpick.
Qed.

(** [onStart] on a stopped player with a non-empty pool. *)
Lemma onStart_unfold r acc st :
  Inv st -> running (ui st) = false -> tracks (ui st) <> [] ->
  onStart r acc st =
    playRandomTrack (render (ui st)) r acc (setRunning true st).
Proof.
  intros HI Hrun Hne. unfold onStart.
  change (r_running (render (ui st))) with (running (ui st)).
  change (r_tracks (render (ui st))) with (tracks (ui st)).
  rewrite Hrun. destruct (Nat.eqb_spec (length (tracks (ui st))) 0) as [E|_];
    [by destruct (tracks (ui st))|].
  cbn [orb].
  destruct (inv_audio _ (Inv_setRunning true _ HI)) as [a' Ha'].
  by rewrite Ha'.
Qed.

Lemma onStart_selects r acc st :
  Inv st -> running (ui st) = false -> tracks (ui st) <> [] ->
  Num.unit_draw r ->
  exists t,
    t ∈ tracks (ui st) /\
    (forall u, lastPlayedUrlRef (refs st) = Some u ->
               (1 < length (tracks (ui st)))%nat -> url t <> u) /\
    selected (onStart r acc st) t.
Proof.
  intros HI Hrun Hne Hr. rewrite onStart_unfold by done.
  pose proof (Inv_setRunning true _ HI) as HI'.
  assert (Hlast : forall u,
            lastPlayedUrlRef (refs (setRunning true st)) = Some u ->
            truthy (Some u) = true).
  { intros u Hu. rewrite setRunning_last in Hu.
    eapply minted_truthy. by apply (inv_last _ HI). }
  destruct (playRandomTrack_selects (render (ui st)) r acc
              (setRunning true st) Hlast (inv_urls _ HI) Hne Hr)
    as (t & Hin & Hdiff & Heq).
  exists t. split_and!; [done| |].
  - intros u Hu. apply Hdiff. by rewrite setRunning_last.
  - rewrite Heq. apply playSrc_track. apply HI'.
Qed.

Lemma onStart_free r acc st t :
  Inv st -> running (ui st) = false ->
  lastPlayedUrlRef (refs st) = None ->
  pickRandom (tracks (ui st)) r = Some t ->
  selected (onStart r acc st) t.
Proof.
  intros HI Hrun Hnone Hpick.
  assert (Hne : tracks (ui st) <> []).
  { intros E. rewrite E in Hpick. by cbn in Hpick. }
  rewrite onStart_unfold by done.
  rewrite (playRandomTrack_free _ _ _ _ t); [| |done].
  - apply playSrc_track. apply (Inv_setRunning true _ HI).
  - by rewrite setRunning_last.
Qed.

(** Every index of a list is the outcome of some draw. *)
Lemma pickRandom_index {T} (items : list T) (i : nat) (t : T) :
  items !! i = Some t ->
  let r := (Z.of_nat i # Pos.of_nat (length items))%Q in
  Num.unit_draw r /\ pickRandom items r = Some t.
Proof.
  intros Hi r. pose proof (lookup_lt_Some _ _ _ Hi) as Hlt.
  assert (Hp : Z.pos (Pos.of_nat (length items)) = Z.of_nat (length items))
    by (rewrite <- positive_nat_Z, Nat2Pos.id by lia; done).
  split.
  - subst r. split; [unfold Qle|unfold Qlt]; cbn [Qnum Qden]; lia.
  - unfold pickRandom.
    destruct (Nat.eqb_spec (length items) 0) as [|_]; [lia|].
    assert (E : Num.floor (r * inject_Z (Z.of_nat (length items)))
                = Z.of_nat i).
    { unfold Num.floor, r, Qfloor, Qmult, inject_Z. cbn [Qnum Qden].
      rewrite Pos.mul_1_r, Hp. apply Z.div_mul. lia. }
    rewrite E. destruct (Z.ltb_spec (Z.of_nat i) 0); [lia|].
    by rewrite Nat2Z.id.
Qed.

Lemma onStop_tracks st : tracks (ui (onStop st)) = tracks (ui st).
Proof. unfold onStop. st_cases; done. Qed.

(** C9.  In every reachable state: [onStop] leaves the last-played
    reference as it is and [clearFiles] resets it; no other operation
    turns a recorded reference into none.  So a start after a stop still
    avoids the track played last (pool of more than one track), while a
    start after a clear and a new registration draws from the whole pool:
    the draw decides alone, and every track of the pool is the outcome
    of some draw. *)
Theorem C9_last_played_reset (st : State) :
  reachable st ->
  lastPlayedUrlRef (refs (onStop st)) = lastPlayedUrlRef (refs st) /\
  lastPlayedUrlRef (refs (clearFiles st)) = None /\
  (forall op,
     op <> ClearFiles ->
     lastPlayedUrlRef (refs (step op st)) = None ->
     lastPlayedUrlRef (refs st) = None) /\
  (forall u r accepted,
     Num.unit_draw r ->
     lastPlayedUrlRef (refs st) = Some u ->
     (1 < length (tracks (ui st)))%nat ->
     exists t,
       t ∈ tracks (ui st) /\ url t <> u /\
       selected (onStart r accepted (onStop st)) t) /\
  (forall fs r accepted t,
     let st2 := onFiles (Some fs) (clearFiles st) in
     (pickRandom (tracks (ui st2)) r = Some t ->
      selected (onStart r accepted st2) t) /\
     (t ∈ tracks (ui st2) ->
      exists r', Num.unit_draw r' /\ selected (onStart r' accepted st2) t)).
Proof.
  intros Hst. apply reachable_Inv in Hst.
  destruct (onStop_refs st) as (_ & LP & _).
  destruct (clearFiles_frame st) as (CL & CR & _).
  split_and!; [done|done|intros op; apply step_keeps_last| |].
  - intros u r acc Hr Hu Hlen.
    destruct (onStart_selects r acc (onStop st)) as (t & Hin & Hd & Hsel).
    + by apply Inv_onStop.
    + apply onStop_running.
    + rewrite onStop_tracks. intros E. rewrite E in Hlen. cbn in Hlen. lia.
    + done.
    + rewrite onStop_tracks in *. exists t. split_and!; [done| |done].
      apply Hd; [by rewrite LP|done].
  - intros fs r acc t st2.
    assert (HI2 : Inv st2) by (by apply Inv_onFiles, Inv_clearFiles).
    destruct (onFiles_frame (Some fs) (clearFiles st)) as [R2 U2].
    assert (Hrun : running (ui st2) = false) by (subst st2; congruence).
    assert (Hnone : lastPlayedUrlRef (refs st2) = None)
      by (subst st2; by rewrite R2).
    split.
    + intros Hpick. by apply onStart_free.
    + intros Hin. apply list_elem_of_lookup in Hin as [i Hi].
      destruct (pickRandom_index _ _ _ Hi) as [Hr' Hpick].
      eexists. split; [exact Hr'|]. by apply onStart_free.
Qed.

Lemma C9_last_played_reset_witness :
  let st := run twoTracks (init false) in
  reachable st /\
  lastPlayedUrlRef (refs st) = Some "blob:1" /\
  lastPlayedUrlRef (refs (onStop st)) = lastPlayedUrlRef (refs st) /\
  lastPlayedUrlRef (refs (clearFiles st)) = None.
Proof.
  intros st.
  assert (H : reachable st)
    by (apply reachable_run; [apply twoTracks_ok|constructor]).
  assert (P : lastPlayedUrlRef (refs st) = Some "blob:1") by (by vm_compute).
  destruct (C9_last_played_reset st H) as (G1 & G2 & _).
  exact (conj H (conj P (conj G1 G2))).
Defined.

(** * Further properties *)

(** ** Formatting a time *)

Lemma floor_unique (y : Q) (z : Z) :
  (inject_Z z <= y)%Q -> (y < inject_Z (z + 1))%Q -> Num.floor y = z.
Proof.
  intros H1 H2. unfold Num.floor.
  pose proof (Qfloor_le y) as F1. pose proof (Qlt_floor y) as F2.
  assert (inject_Z z < inject_Z (Qfloor y + 1))%Q as G1 by lra.
  assert (inject_Z (Qfloor y) < inject_Z (z + 1))%Q as G2 by lra.
  rewrite <- Zlt_Qlt in G1, G2. lia.
Qed.

Lemma floor_sub_Z (x : Q) (k : Z) :
  Num.floor (x - inject_Z k) = Num.floor x - k.
Proof.
  apply floor_unique.
  - pose proof (Qfloor_le x) as F. unfold Num.floor, Z.sub.
    rewrite inject_Z_plus, inject_Z_opp. lra.
  - pose proof (Qlt_floor x) as F. unfold Num.floor.
    replace (Qfloor x - k + 1) with ((Qfloor x + 1) + - k) by lia.
    rewrite inject_Z_plus, inject_Z_opp. lra.
Qed.

Lemma floor_div_60 (s : Q) :
  Num.floor (s / inject_Z 60) = Num.floor s / 60.
Proof.
  destruct s as [a b]. unfold Num.floor, Qfloor, Qdiv, Qmult, Qinv.
  cbn [Qnum Qden inject_Z]. rewrite Z.mul_1_r, Pos2Z.inj_mul.
  by rewrite Z.div_div by lia.
Qed.

Lemma padStart_seconds (n : nat) :
  (n < 60)%nat ->
  padStart 2 "0" (pretty (Z.of_nat n)) =
  if (n <? 10)%nat then "0" +:+ pretty (Z.of_nat n) else pretty (Z.of_nat n).
Proof.
  intros Hn. do 60 (destruct n as [|n]; [by vm_compute|]). lia.
Qed.

(** X1.  [formatTime] of a double [s] with [0 <= s < 2^53] shows the
    whole minutes, a colon, and the remaining whole seconds on two
    digits: the seconds shown are below 60 and minutes and seconds add up
    to the floor of the input.  (The quotient [s / 60] is rounded to a
    double before its floor is taken; for a double [s] in this range the
    rounding never reaches the next integer.)  A non-finite input shows
    as "0:00". *)
Theorem formatTime_minutes_seconds (s : Q) :
  Num.double s -> (0 <= s)%Q -> (s < inject_Z (2 ^ 53))%Q ->
  let total := Num.floor s in
  let m := total / 60 in
  let sec := total mod 60 in
  formatTime (Finite s) =
    pretty m +:+ ":" +:+
    (if sec <? 10 then "0" +:+ pretty sec else pretty sec) /\
  0 <= m /\ 0 <= sec < 60 /\ 60 * m + sec = total /\
  formatTime NonFinite = "0:00".
Proof.
  intros Hd Hs Hb total m sec.
  assert (Ht : 0 <= total).
  { subst total. unfold Num.floor. change 0 with (Qfloor 0).
    by apply Qfloor_resp_le. }
  assert (Hsec : 0 <= sec < 60) by (subst sec; apply Z.mod_pos_bound; lia).
  assert (Hsum : 60 * m + sec = total)
    by (subst m sec; symmetry; apply Z.div_mod; lia).
  assert (Hm : 0 <= m) by (subst m; apply Z.div_pos; lia).
  split_and!; try done; try lia.
  unfold formatTime.
  assert (Hmins : Num.floor (Num.round64 (s / inject_Z 60)) = m).
  { unfold Num.floor at 1. rewrite floor_div60_double; [|done|done|].
    - apply floor_div_60.
    - by rewrite pow2_Z. }
  rewrite Hmins.
  assert (Hq : (0 <= s / inject_Z 60)%Q).
  { unfold Qdiv. apply Qmult_le_0_compat; [done|]. by vm_compute. }
  assert (Hrem : Num.floor (Num.rem s (inject_Z 60)) = sec).
  { unfold Num.rem, Num.trunc.
    apply Qle_bool_iff in Hq. rewrite Hq.
    change (Qfloor (s / inject_Z 60)) with (Num.floor (s / inject_Z 60)).
    rewrite floor_div_60. fold total. fold m.
    rewrite <- inject_Z_mult, floor_sub_Z. fold total. lia. }
  rewrite Hrem.
  replace sec with (Z.of_nat (Z.to_nat sec)) by lia.
  rewrite padStart_seconds by lia.
  destruct (Nat.ltb_spec (Z.to_nat sec) 10), (Z.ltb_spec (Z.of_nat (Z.to_nat sec)) 10);
    try lia; done.
Qed.

Lemma formatTime_minutes_seconds_witness :
  Num.double (125 # 1) /\ (0 <= 125 # 1)%Q /\
  (125 # 1 < inject_Z (2 ^ 53))%Q /\
  formatTime (Finite (125 # 1)) = "2:05".
Proof.
  assert (Hd : Num.double (125 # 1)) by (by vm_compute).
  assert (H : (0 <= 125 # 1)%Q) by (unfold Qle; cbn; lia).
  assert (Hb : (125 # 1 < inject_Z (2 ^ 53))%Q) by (by vm_compute).
  split_and!; [exact Hd|exact H|exact Hb|].
  destruct (formatTime_minutes_seconds (125 # 1) Hd H Hb) as [E _].
  exact E.
Defined.

(** ** The gap formula *)

Lemma clamp_proper (x y lo hi : Q) :
  (lo <= hi)%Q -> (x == y)%Q -> (Num.clamp x lo hi == Num.clamp y lo hi)%Q.
Proof.
  intros Hlh E.
  destruct (Qlt_le_dec x lo) as [L|L].
  - rewrite !clamp_below by lra. done.
  - destruct (Qlt_le_dec hi x) as [G|G].
    + rewrite !clamp_above by lra. done.
    + rewrite !clamp_inside by lra. done.
Qed.

(** X3.  The two gap bounds may be given in either order, and equal bounds
    within [0, 3600] fix the gap whatever the draw. *)
Theorem gapDuration_order_insensitive (a b r : Q) :
  (gapDuration a b r == gapDuration b a r)%Q /\
  ((0 <= a)%Q -> (a <= inject_Z 3600)%Q -> (gapDuration a a r == a)%Q).
Proof.
  split.
  - unfold gapDuration. apply clamp_proper; [done|].
    destruct (min_spec a b) as (? & ? & [E1|E1]), (min_spec b a) as (? & ? & [E2|E2]),
      (max_spec a b) as (? & ? & [E3|E3]), (max_spec b a) as (? & ? & [E4|E4]);
      rewrite E1, E2, E3, E4 in *; try lra.
    all: assert (a == b)%Q as E by lra; rewrite E; lra.
  - intros H0 H1. unfold gapDuration.
    destruct (min_spec a a) as (_ & _ & [E1|E1]), (max_spec a a) as (_ & _ & [E2|E2]);
      rewrite E1, E2; rewrite clamp_inside; lra.
Qed.

(** ** The silent container, whatever the duration *)

Lemma dataSize_proper (x y : Q) : (x == y)%Q -> dataSize x = dataSize y.
Proof.
  intros E. unfold dataSize, frameCount.
  by rewrite (round64_comp _ (y * inject_Z sampleRate)) by (by rewrite E).
Qed.

Lemma le32_bytes (x : Z) : Forall (fun b => 0 <= b < 256) (le32 x).
Proof.
  unfold le32. change 255 with (Z.ones 8).
  repeat (apply Forall_cons_2;
          [rewrite Z.land_ones by lia; apply Z.mod_pos_bound; lia|]).
  apply Forall_nil_2.
Qed.

Lemma pcmHeader_bytes (n : Z) : Forall (fun b => 0 <= b < 256) (pcmHeader n).
Proof.
  unfold pcmHeader.
  repeat (apply Forall_app_2; [first [apply le32_bytes
                                     | repeat (apply Forall_cons_2; [lia|]);
                                       apply Forall_nil_2]|]).
  apply le32_bytes.
Qed.

(** X4.  [makeSilenceWavUrl] saturates: a duration of 3600 seconds or more
    gives the container of 3600 seconds (317520044 bytes), and a duration
    of zero or less gives the bare 44-byte header. *)
Theorem makeSilenceWavUrl_saturates (d : Q) (st : State) :
  ((inject_Z 3600 <= d)%Q ->
   silenceContainer d st = silenceContainer (inject_Z 3600) st /\
   exists blob, silenceContainer d st = Some blob /\
                Z.of_nat (length (blobBytes blob)) = 317520044) /\
  ((d <= 0)%Q ->
   silenceContainer d st =
     Some {| blobBytes := pcmHeader 0; blobType := "audio/wav" |}).
Proof.
  split.
  - intros H.
    assert (E : dataSize (Num.clamp d 0 (inject_Z 3600)) = 317520000).
    { rewrite (dataSize_proper _ (inject_Z 3600)); [by vm_compute|].
      by apply clamp_above. }
    assert (E' : dataSize (Num.clamp (inject_Z 3600) 0 (inject_Z 3600))
                 = 317520000) by (by vm_compute).
    rewrite !silenceContainer_eq, E, E'. split; [done|].
    eexists. split; [done|]. cbn [blobBytes].
    rewrite length_app, length_replicate, length_pcmHeader. lia.
  - intros H.
    assert (E : dataSize (Num.clamp d 0 (inject_Z 3600)) = 0).
    { rewrite (dataSize_proper _ 0); [by vm_compute|]. by apply clamp_below. }
    rewrite silenceContainer_eq, E. cbn [Z.to_nat replicate].
    by rewrite app_nil_r.
Qed.

(** X5.  Whatever duration [makeSilenceWavUrl] is called with, the container
    is consistent: every byte is a byte, the RIFF chunk size is the
    length minus 8, the data chunk size is the length minus 44 and a
    whole number of 2-byte frames, the byte rate is 88200 with block
    align 2, all samples are zero, and the container never exceeds
    317520044 bytes. *)
Theorem silenceContainer_well_formed (d : Q) (st : State) :
  exists blob,
    silenceContainer d st = Some blob /\
    let bytes := blobBytes blob in
    let n := Z.of_nat (length bytes) in
    Forall (fun b => 0 <= b < 256) bytes /\
    44 <= n <= 317520044 /\ (n - 44) mod 2 = 0 /\
    getUint32 4 bytes = Some (n - 8) /\
    getUint32 40 bytes = Some (n - 44) /\
    getUint32 28 bytes = Some 88200 /\
    getUint16 32 bytes = Some 2 /\
    drop 44 bytes = replicate (Z.to_nat (n - 44)) 0.
Proof.
  rewrite silenceContainer_eq. eexists. split; [done|].
  cbn [blobBytes].
  set (c := Num.clamp d 0 (inject_Z 3600)).
  assert (Hds : 0 <= dataSize c <= 317520000 /\ dataSize c mod 2 = 0).
  { destruct (clamp_bounds d 0 (inject_Z 3600)) as [C0 C1]; [done|]. fold c in C0, C1.
    destruct (dataSize_in_range c C0 C1) as (_ & E & B & _).
    rewrite E. split; [lia|]. by rewrite Z.mul_comm, Z.mod_mul by lia. }
  destruct Hds as [Hb Hev].
  set (ds := dataSize c) in *. clearbody ds.
  assert (Hlen : Z.of_nat (length (pcmHeader ds ++ replicate (Z.to_nat ds) 0))
                 = 44 + ds).
  { rewrite length_app, length_replicate, length_pcmHeader. lia. }
  rewrite Hlen. split_and!.
  - apply Forall_app_2; [apply pcmHeader_bytes|].
    apply Forall_replicate. lia.
  - lia.
  - lia.
  - replace (44 + ds - 44) with ds by lia. done.
  - change (getUint32 4 (pcmHeader ds ++ replicate (Z.to_nat ds) 0))
      with (getUint32 0 (le32 (36 + ds))).
    rewrite le32_decode by (change (2 ^ 32) with 4294967296; lia).
    f_equal. lia.
  - change (getUint32 40 (pcmHeader ds ++ replicate (Z.to_nat ds) 0))
      with (getUint32 0 (le32 ds)).
    rewrite le32_decode by (change (2 ^ 32) with 4294967296; lia).
    f_equal. lia.
  - done.
  - done.
  - rewrite drop_app_length' by (symmetry; apply length_pcmHeader).
    f_equal. lia.
Qed.

(** ** Transitions and the object URL registry *)

Lemma keeps_refl n st : keeps n st st.
Proof. unfold keeps. split_and!; done. Qed.

Lemma keeps_trans n st1 st2 st3 :
  keeps n st1 st2 -> keeps n st2 st3 -> keeps n st1 st3.
Proof.
  intros (N1 & M1 & L1 & P1 & T1) (N2 & M2 & L2 & P2 & T2).
  unfold keeps. split_and!.
  - lia.
  - congruence.
  - intros k Hk Hp Ht. rewrite L2.
    + apply L1; [done..|]. destruct Ht as [Ht|Ht]; [by left|right; by apply T2].
    + done.
    + intros E. by apply P1 in E.
    + destruct Ht as [Ht|Ht]; [|by right].
      left. intros Hin. by apply T1 in Hin.
  - intros k Hk Hp. by apply P1, P2.
  - intros k Hk Ht. by apply T1, T2.
Qed.

(** A transition that at most registers fresh URLs. *)
Lemma keeps_intro n st st' :
  (nextUrl (host st) <= nextUrl (host st'))%nat ->
  hasMediaSession (host st') = hasMediaSession (host st) ->
  (forall k, minted n k ->
             objectUrls (host st') !! k = objectUrls (host st) !! k) ->
  pendingRevokeRef (refs st') = pendingRevokeRef (refs st) ->
  tracks (ui st') = tracks (ui st) ->
  keeps n st st'.
Proof.
  intros HN HM HL HP HT. unfold keeps. rewrite HP, HT. split_and!; try done.
  intros k Hk _ _. by apply HL.
Qed.

Ltac keeps_same := apply keeps_intro; st_cases; done.

Lemma keeps_pauseAudio n st : keeps n st (pauseAudio st).
Proof. keeps_same. Qed.

Lemma keeps_setRunning n b st : keeps n st (setRunning b st).
Proof. keeps_same. Qed.

Lemma keeps_playSrc n rd u opts acc st :
  (revokeOnEnd opts = true -> ~ minted n u) ->
  keeps n st (playSrc rd u opts acc st).
Proof.
  intros Hu.
  destruct (playSrc_frame rd u opts acc st)
    as (T & _ & _ & _ & _ & _ & _ & _ & _ & _ & _ & _ & _ & _ & N & _ & M).
  destruct (audioRef (refs st)) as [a|] eqn:Ha.
  - destruct (playSrc_started rd u opts acc st a Ha)
      as (_ & _ & P & O & _).
    unfold keeps. rewrite T, N, M, P, O. split_and!; try done.
    + intros k Hk Hp _. unfold cleanupPendingRevoke.
      destruct (pendingRevokeRef (refs st)) as [p|]; [|done].
      destruct (truthy (Some p)); [|done].
      st_unfold. st_simpl. rewrite lookup_delete_ne; [done|congruence].
    + intros k Hk.
      destruct acc, (revokeOnEnd opts); cbn [andb];
        try (destruct (truthy _); by intros).
      intros [= <-]. by destruct Hu.
  - unfold playSrc. rewrite Ha. apply keeps_refl.
Qed.

Lemma keeps_playRandomTrack n rd r acc st :
  keeps n st (playRandomTrack rd r acc st).
Proof.
  unfold playRandomTrack.
  destruct (length (r_tracks rd) =? 0)%nat; [apply keeps_refl|].
  destruct (pickRandom _ r) as [t|]; [|apply keeps_refl].
  eapply keeps_trans; [|by apply keeps_playSrc].
  keeps_same.
Qed.

Lemma not_minted_next n m : (n <= m)%nat -> ~ minted n (blobUrl m).
Proof. intros H (k & Hk & E). apply blobUrl_inj in E. lia. Qed.

Lemma keeps_playSilenceThenNext n rd r now acc st :
  (n <= nextUrl (host st))%nat ->
  keeps n st (playSilenceThenNext rd r now acc st).
Proof.
  intros Hn. unfold playSilenceThenNext.
  destruct (makeSilenceWavUrl_total
              (gapDuration (r_minGapSec rd) (r_maxGapSec rd) r) st)
    as (blob & _ & ->).
  st_unfold. st_simpl.
  eapply keeps_trans;
    [|apply keeps_playSrc; intros _; by apply not_minted_next].
  apply keeps_intro; [st_cases; try done; lia|st_cases; done| |
                      st_cases; done|st_cases; done].
  intros k Hk. st_cases; apply lookup_insert_ne; intros E;
    apply (not_minted_next n (nextUrl (host st)) Hn); by rewrite E.
Qed.

Lemma keeps_animationFrame n id now st : keeps n st (animationFrame id now st).
Proof.
  unfold animationFrame. destruct (frames (host st) !! id); [|apply keeps_refl].
  unfold tick. keeps_same.
Qed.

Lemma keeps_onStop n st : keeps n st (onStop st).
Proof. unfold onStop. keeps_same. Qed.

(** The files loop registers fresh URLs only, each for its file. *)
Lemma collectNewTracks_registry pool fs : forall acc st acc' st',
  collectNewTracks pool fs acc st = (acc', st') ->
  hasMediaSession (host st') = hasMediaSession (host st) /\
  (forall k, minted (nextUrl (host st)) k ->
             objectUrls (host st') !! k = objectUrls (host st) !! k) /\
  (forall t, t ∈ acc' ->
     t ∈ acc \/
     (exists f, f ∈ fs /\ name t = fileName f /\
                objectUrls (host st') !! url t = Some (fileBlob f)) /\
     ~ minted (nextUrl (host st)) (url t)).
Proof.
  induction fs as [|f fs IH]; intros acc st acc' st' H;
    cbn [collectNewTracks] in H.
  - simplify_eq. split_and!; try done. intros t Ht. by left.
  - destruct (existsb _ pool); cbn [negb] in H.
    + apply IH in H as (M & L & R). split_and!; try done.
      intros t Ht. destruct (R t Ht) as [?|((f' & Hf & ? & ?) & ?)]; [by left|].
      right. split; [|done]. exists f'. split; [by right|done].
    + st_unfold. st_simpl.
      apply IH in H as (M & L & R). st_simpl.
      split_and!; try done.
      * intros k Hk. rewrite L by (eapply minted_mono; [|exact Hk]; lia).
        apply lookup_insert_ne. intros E.
        apply (not_minted_next (nextUrl (host st)) (nextUrl (host st)));
          [lia|by rewrite E].
      * intros t Ht. destruct (R t Ht) as [Hin|((f' & Hf & Hn & Hl) & Hm)].
        -- apply elem_of_app in Hin as [?|Hin]; [by left|].
           apply list_elem_of_singleton in Hin. subst t. cbn [url name].
           right. split; [|by apply not_minted_next].
           exists f. split; [by left|]. split; [done|].
           rewrite L by (eexists; split; [|done]; lia).
           apply lookup_insert_eq.
        -- right. split.
           ++ exists f'. split; [by right|done].
           ++ intros Hx. apply Hm. eapply minted_mono; [|exact Hx]. lia.
Qed.

Lemma keeps_onFiles n files st :
  (n <= nextUrl (host st))%nat -> keeps n st (onFiles files st).
Proof.
  intros Hn. unfold onFiles. destruct files as [fs|]; [|apply keeps_refl].
  destruct (length fs =? 0)%nat; [apply keeps_refl|].
  destruct (collectNewTracks _ fs [] st) as [newTracks st'] eqn:E.
  pose proof E as E'.
  apply collectNewTracks_spec in E
    as (H1 & H2 & _ & _ & H5 & _ & _ & H8 & _).
  apply collectNewTracks_registry in E' as (M & L & R).
  unfold keeps. st_simpl. rewrite H1, H2. split_and!; try done.
  - intros k Hk _ _. apply L. eapply minted_mono; [|exact Hk]. done.
  - intros k Hk. rewrite fmap_app, elem_of_app. intros [?|Hin]; [done|].
    exfalso. revert Hin. apply H8; [|apply not_elem_of_nil].
    eapply minted_mono; [|exact Hk]. done.
Qed.

Lemma keeps_clearFiles n st : keeps n st (clearFiles st).
Proof.
  unfold clearFiles.
  destruct (revokeAll_spec (tracks (ui st)) st)
    as (H1 & H2 & H3 & H4 & H5 & H6 & H7 & H8).
  set (s := revokeAll (tracks (ui st)) st) in *. clearbody s.
  unfold keeps. split_and!.
  - st_cases; lia.
  - st_cases; done.
  - intros k Hk Hp [Ht|Ht].
    + rewrite <- H7 by done. st_cases; done.
    + exfalso. revert Ht. st_cases; apply not_elem_of_nil.
  - intros k Hk. st_cases; by rewrite H2.
  - intros k Hk. st_cases; intros Hx; by apply elem_of_nil in Hx.
Qed.

Lemma keeps_step n op st :
  (n <= nextUrl (host st))%nat -> keeps n st (step op st).
Proof.
  intros Hn.
  assert (Hpa : (n <= nextUrl (host (pauseAudio st)))%nat)
    by (by destruct (pauseAudio_frame st) as (_ & _ & _ & _ & -> & _)).
  destruct op; cbn [step].
  - by apply keeps_onFiles.
  - apply keeps_clearFiles.
  - unfold onStart. destruct (_ || _); [apply keeps_refl|].
    destruct (audioRef _); [|apply keeps_setRunning].
    eapply keeps_trans; [apply keeps_setRunning|apply keeps_playRandomTrack].
  - apply keeps_onStop.
  - unfold skipTrack. destruct (_ || _); [apply keeps_refl|].
    eapply keeps_trans; [apply keeps_pauseAudio|].
    destruct (currentIsSilenceRef _);
      [apply keeps_playRandomTrack|by apply keeps_playSilenceThenNext].
  - unfold onEnded. destruct (audioRef _); [|apply keeps_refl].
    destruct (negb _); [apply keeps_refl|].
    destruct (currentIsSilenceRef _).
    + eapply keeps_trans; [|apply keeps_playRandomTrack]. keeps_same.
    + by apply keeps_playSilenceThenNext.
  - unfold onTimeUpdate. keeps_same.
  - unfold onLoadedMetadata. keeps_same.
  - apply keeps_animationFrame.
  - unfold onChangeMinGap. keeps_same.
  - unfold onChangeMaxGap. keeps_same.
  - unfold onChangeVolume. keeps_same.
  - unfold glitchTimeout. keeps_same.
  - unfold msPlay. keeps_same.
  - unfold msPause. destruct (negb _); [apply keeps_refl|].
    eapply keeps_trans; [apply keeps_pauseAudio|apply keeps_setRunning].
  - unfold msNextTrack. destruct (negb _); [apply keeps_refl|].
    destruct (audioRef _); [|apply keeps_refl].
    eapply keeps_trans; [apply keeps_pauseAudio|].
    destruct (currentIsSilenceRef _);
      [apply keeps_playRandomTrack|by apply keeps_playSilenceThenNext].
  - unfold msPreviousTrack. destruct (negb _); [apply keeps_refl|].
    destruct (audioRef _); [|apply keeps_refl].
    eapply keeps_trans; [apply keeps_pauseAudio|].
    by apply keeps_playSilenceThenNext.
Qed.

Lemma keeps_run n ops : forall st,
  (n <= nextUrl (host st))%nat -> keeps n st (run ops st).
Proof.
  unfold run. induction ops as [|op ops IH]; intros st Hn; cbn [fold_left].
  - apply keeps_refl.
  - pose proof (keeps_step n op st Hn) as K.
    eapply keeps_trans; [exact K|]. apply IH.
    destruct K as (N & _). lia.
Qed.

(** ** What the operations do to the pool and to [running] *)

Lemma playSrc_running rd u opts acc st :
  running (ui (playSrc rd u opts acc st)) = true -> running (ui st) = true.
Proof.
  destruct (audioRef (refs st)) as [a|] eqn:Ha.
  - destruct (playSrc_started rd u opts acc st a Ha) as (_ & -> & _).
    by destruct acc.
  - unfold playSrc. by rewrite Ha.
Qed.

Lemma playRandomTrack_pool rd r acc st :
  tracks (ui (playRandomTrack rd r acc st)) = tracks (ui st) /\
  (running (ui (playRandomTrack rd r acc st)) = true ->
   running (ui st) = true).
Proof.
  unfold playRandomTrack.
  destruct (length (r_tracks rd) =? 0)%nat; [done|].
  destruct (pickRandom _ r) as [t|]; [|done].
  split.
  - match goal with
    | |- context [playSrc ?rd ?u ?o ?a ?s] =>
        destruct (playSrc_frame rd u o a s) as (T & _); by rewrite T
    end.
  - intros H%playSrc_running. exact H.
Qed.

Lemma playSilenceThenNext_pool rd r now acc st :
  Inv st ->
  tracks (ui (playSilenceThenNext rd r now acc st)) = tracks (ui st) /\
  (running (ui (playSilenceThenNext rd r now acc st)) = true ->
   running (ui st) = true).
Proof.
  intros HI.
  destruct (playSilenceThenNext_refs rd r now acc st)
    as (_ & _ & _ & _ & _ & _ & _ & T).
  destruct (playSilenceThenNext_started rd r now acc st HI) as (_ & R & _).
  split; [done|]. rewrite R. by destruct acc.
Qed.

Lemma setRunning_ui b st :
  tracks (ui (setRunning b st)) = tracks (ui st) /\
  running (ui (setRunning b st)) = b.
Proof. split; st_cases; try done. by apply Bool.eqb_prop. Qed.

Lemma animationFrame_ui id now st :
  tracks (ui (animationFrame id now st)) = tracks (ui st) /\
  running (ui (animationFrame id now st)) = running (ui st).
Proof. unfold animationFrame, tick. split; st_cases; done. Qed.

(** What one operation does to the pool and to [running]: the pool stays,
    or is emptied while the player stops, or grows by registration; and
    only Start on a non-empty pool, or a media-session action, sets
    [running]. *)
Lemma step_pool op st :
  Inv st ->
  (tracks (ui (step op st)) = tracks (ui st) \/
   (tracks (ui (step op st)) = [] /\ running (ui (step op st)) = false) \/
   (exists fs new, op = Files (Some fs) /\
      tracks (ui (step op st)) = tracks (ui st) ++ new)) /\
  (running (ui (step op st)) = true ->
   running (ui st) = true \/
   ((exists r a, op = Start r a) /\ tracks (ui st) <> []) \/
   hasMediaSession (host st) = true).
Proof.
  intros HI.
  destruct (pauseAudio_frame st) as (U & _).
  pose proof (Inv_pauseAudio _ HI) as HIp.
  destruct op; cbn [step].
  - destruct (onFiles_frame files st) as [_ R]. rewrite R.
    split; [|by left]. destruct files as [fs|]; [|by left].
    destruct (onFiles_tracks fs st) as (new & -> & _). right. right.
    by exists fs, new.
  - destruct (clearFiles_frame st) as (_ & R & T). rewrite R, T.
    split; [right; by left|done].
  - unfold onStart.
    change (r_running (render (ui st))) with (running (ui st)).
    change (r_tracks (render (ui st))) with (tracks (ui st)).
    destruct (running (ui st)) eqn:Hr; [by split; [left|left]|]. cbn [orb].
    destruct (Nat.eqb_spec (length (tracks (ui st))) 0) as [E|E];
      [rewrite Hr; by split; [left|]|].
    assert (Hne : tracks (ui st) <> []) by (intros E'; by rewrite E' in E).
    destruct (setRunning_ui true st) as [T R].
    destruct (audioRef _).
    + destruct (playRandomTrack_pool (render (ui st)) r accepted
                  (setRunning true st)) as [T' _].
      rewrite T', T. split; [by left|]. intros _. right. left. eauto.
    + rewrite T. split; [by left|]. intros _. right. left. eauto.
  - rewrite onStop_tracks, onStop_running.
    split; [by left|done].
  - unfold skipTrack. destruct (_ || _); [by split; [left|left]|].
    destruct (currentIsSilenceRef _).
    + destruct (playRandomTrack_pool (render (ui st)) r accepted
                  (pauseAudio st)) as [T R].
      rewrite T, U. split; [by left|]. intros H%R. rewrite U in H. by left.
    + destruct (playSilenceThenNext_pool (render (ui st)) r now accepted
                  (pauseAudio st) HIp) as [T R].
      rewrite T, U. split; [by left|]. intros H%R. rewrite U in H. by left.
  - unfold onEnded. destruct (audioRef _); [|by split; [left|left]].
    destruct (negb _); [by split; [left|left]|].
    destruct (currentIsSilenceRef _).
    + destruct (playRandomTrack_pool (render (ui st)) r accepted
                  (setSilenceRemainingMs 0 st)) as [T R].
      rewrite T. split; [by left|]. intros H%R. by left.
    + destruct (playSilenceThenNext_pool (render (ui st)) r now accepted
                  st HI) as [T R].
      rewrite T. split; [by left|]. intros H%R. by left.
  - unfold onTimeUpdate. st_cases; by split; [left|left].
  - unfold onLoadedMetadata. st_cases; by split; [left|left].
  - destruct (animationFrame_ui id now st) as [-> ->]. by split; [left|left].
  - by split; [left|left].
  - by split; [left|left].
  - by split; [left|left].
  - by split; [left|left].
  - unfold msPlay. destruct (hasMediaSession (host st)) eqn:M; cbn [negb];
      [|by split; [left|left]].
    split; [left; st_cases; done|]. intros _. by right; right.
  - unfold msPause. destruct (hasMediaSession (host st)) eqn:M; cbn [negb];
      [|by split; [left|left]].
    split; [left; st_cases; done|]. intros _. by right; right.
  - unfold msNextTrack. destruct (hasMediaSession (host st)) eqn:M;
      cbn [negb]; [|by split; [left|left]].
    split; [|intros _; by right; right].
    destruct (audioRef _); [|by left].
    destruct (currentIsSilenceRef _).
    + destruct (playRandomTrack_pool (mediaHandlers st) r accepted
                  (pauseAudio st)) as [T _]. rewrite T, U. by left.
    + destruct (playSilenceThenNext_pool (mediaHandlers st) r now accepted
                  (pauseAudio st) HIp) as [T _]. rewrite T, U. by left.
  - unfold msPreviousTrack. destruct (hasMediaSession (host st)) eqn:M;
      cbn [negb]; [|by split; [left|left]].
    split; [|intros _; by right; right].
    destruct (audioRef _); [|by left].
    destruct (playSilenceThenNext_pool (mediaHandlers st) r now accepted
                (pauseAudio st) HIp) as [T _]. rewrite T, U. by left.
Qed.

(** ** Registration *)

(** A track [onFiles] adds has its URL registered. *)
Lemma onFiles_new (fs : list File) (st : State) (t : Track) :
  t ∈ tracks (ui (onFiles (Some fs) st)) ->
  t ∈ tracks (ui st) \/
  is_Some (objectUrls (host (onFiles (Some fs) st)) !! url t).
Proof.
  unfold onFiles. destruct (length fs =? 0)%nat; [by left|].
  destruct (collectNewTracks _ fs [] st) as [newTracks st'] eqn:E.
  pose proof E as E'.
  apply collectNewTracks_spec in E as (H1 & _).
  apply collectNewTracks_registry in E' as (_ & _ & R).
  st_simpl. rewrite H1. rewrite elem_of_app. intros [?|Hin]; [by left|].
  destruct (R t Hin) as [Hnil|((f & _ & _ & L) & _)];
    [by apply elem_of_nil in Hnil|].
  right. by rewrite L.
Qed.

(** X6.  Every track in the pool after [onFiles] either was there before,
    or belongs to one of the files handed in: it carries that file's name,
    its URL is registered to that file's blob, and the URL is none of
    those the host had minted before. *)
Theorem onFiles_registers (fs : list File) (st : State) (t : Track) :
  t ∈ tracks (ui (onFiles (Some fs) st)) ->
  t ∈ tracks (ui st) \/
  ((exists f, f ∈ fs /\ name t = fileName f /\
      objectUrls (host (onFiles (Some fs) st)) !! url t =
        Some (fileBlob f)) /\
   ~ minted (nextUrl (host st)) (url t)).
Proof.
  unfold onFiles. destruct (length fs =? 0)%nat; [by left|].
  destruct (collectNewTracks _ fs [] st) as [newTracks st'] eqn:E.
  pose proof E as E'.
  apply collectNewTracks_spec in E as (H1 & _).
  apply collectNewTracks_registry in E' as (_ & _ & R).
  st_simpl. rewrite H1. rewrite elem_of_app. intros [?|Hin]; [by left|].
  destruct (R t Hin) as [Hnil|?]; [|by right].
  by apply elem_of_nil in Hnil.
Qed.

Lemma onFiles_registers_witness :
  let t := {| name := "a.mp3"; url := "blob:0" |} in
  let st' := onFiles (Some [sampleFile "a.mp3"]) (init false) in
  t ∈ tracks (ui st') /\
  (t ∈ tracks (ui (init false)) \/
   ((exists f, f ∈ [sampleFile "a.mp3"] /\ name t = fileName f /\
       objectUrls (host st') !! url t = Some (fileBlob f)) /\
    ~ minted (nextUrl (host (init false))) (url t))).
Proof.
  intros t st'.
  assert (H : t ∈ tracks (ui st')) by (vm_compute; apply list_elem_of_here).
  split; [exact H|].
  exact (onFiles_registers [sampleFile "a.mp3"] (init false) t H).
Defined.

(** X7.  In every reachable state the URL of every track in the pool is
    registered with the host: no operation revokes the URL of a track it
    keeps. *)
Theorem track_urls_registered (st : State) (t : Track) :
  reachable st -> t ∈ tracks (ui st) ->
  is_Some (objectUrls (host st) !! url t).
Proof.
  intros H. revert t. induction H as [b|op st Hst IH _]; intros t Ht.
  - by apply elem_of_nil in Ht.
  - pose proof (reachable_Inv _ Hst) as HI.
    destruct (decide (url t ∈ (url <$> tracks (ui st)))) as [Hold|Hnew].
    + pose proof Hold as Hold'.
      apply list_elem_of_fmap in Hold' as (t0 & E & Ht0).
      pose proof (inv_minted _ HI) as Hm. rewrite Forall_forall in Hm.
      destruct (keeps_step (nextUrl (host st)) op st (le_n _))
        as (_ & _ & L & _).
      rewrite L.
      * rewrite E. by apply IH.
      * rewrite E. by apply Hm.
      * intros Hp. by destruct (inv_pending _ HI _ Hp) as (_ & ? & _).
      * right. apply list_elem_of_fmap. by exists t.
    + destruct (step_pool op st HI) as [[T|[[T _]|(fs & new & -> & _)]] _].
      * rewrite T in Ht. exfalso. apply Hnew, list_elem_of_fmap. by exists t.
      * rewrite T in Ht. by apply elem_of_nil in Ht.
      * cbn [step] in *.
        destruct (onFiles_new fs st t Ht) as [Hin|L]; [|done].
        exfalso. apply Hnew, list_elem_of_fmap. by exists t.
Qed.

Lemma track_urls_registered_witness :
  let st := run twoTracks (init false) in
  let t := {| name := "b.mp3"; url := "blob:1" |} in
  reachable st /\ t ∈ tracks (ui st) /\
  is_Some (objectUrls (host st) !! url t).
Proof.
  intros st t.
  assert (R : reachable st)
    by (apply reachable_run; [apply twoTracks_ok|constructor]).
  assert (H : t ∈ tracks (ui st))
    by (vm_compute; apply list_elem_of_further, list_elem_of_here).
  exact (conj R (conj H (track_urls_registered st t R H))).
Defined.

(** ** Running and the pool *)

(** X9.  On a host without a media session, the player is running only
    while the pool holds a track. *)
Theorem running_needs_pool (st : State) :
  reachable st -> hasMediaSession (host st) = false ->
  running (ui st) = true -> tracks (ui st) <> [].
Proof.
  induction 1 as [b|op st Hst IH _]; [done|].
  pose proof (reachable_Inv _ Hst) as HI.
  destruct (keeps_step 0 op st (Nat.le_0_l _)) as (_ & M & _).
  rewrite M. intros HM Hr.
  destruct (step_pool op st HI) as [HT HR].
  destruct (HR Hr) as [Hr0|[[_ Hne]|HM']]; [| |congruence].
  - specialize (IH HM Hr0).
    destruct HT as [->|[[_ F]|(fs & new & _ & ->)]]; [done|congruence|].
    intros E. by apply app_eq_nil in E as [? _].
  - destruct HT as [->|[[_ F]|(fs & new & _ & ->)]]; [done|congruence|].
    intros E. by apply app_eq_nil in E as [? _].
Qed.

Lemma running_needs_pool_witness :
  let st := run twoTracks (init false) in
  reachable st /\ hasMediaSession (host st) = false /\
  running (ui st) = true /\ tracks (ui st) <> [].
Proof.
  intros st.
  assert (R : reachable st)
    by (apply reachable_run; [apply twoTracks_ok|constructor]).
  assert (M : hasMediaSession (host st) = false) by (by vm_compute).
  assert (Hr : running (ui st) = true) by (by vm_compute).
  exact (conj R (conj M (conj Hr (running_needs_pool st R M Hr)))).
Defined.

(** ** Progress callbacks *)

(** X10.  In every reachable state at most one progress callback is
    scheduled with the host, and [rafRef] names it. *)
Theorem one_frame_scheduled (st : State) (id1 id2 : positive) :
  reachable st ->
  is_Some (frames (host st) !! id1) -> is_Some (frames (host st) !! id2) ->
  id1 = id2 /\ rafRef (refs st) = Some id1.
Proof.
  intros Hst H1 H2. pose proof (reachable_Inv _ Hst) as HI.
  pose proof (inv_frames _ HI _ H1) as E1.
  pose proof (inv_frames _ HI _ H2) as E2.
  split; [congruence|done].
Qed.

Lemma one_frame_scheduled_witness :
  let st := run gapScenario (init false) in
  reachable st /\
  is_Some (frames (host st) !! 1%positive) /\
  (1%positive = 1%positive /\ rafRef (refs st) = Some 1%positive).
Proof.
  intros st.
  assert (R : reachable st)
    by (apply reachable_run; [apply gapScenario_ok|constructor]).
  assert (H : is_Some (frames (host st) !! 1%positive))
    by (exists true; by vm_compute).
  exact (conj R (conj H (one_frame_scheduled st 1 1 R H H))).
Defined.




(** ** The Start button *)

(** X12.  [onStart] does nothing unless [canStart] holds.  When it holds,
    in a reachable state, the first track starts at once: a track of the
    pool is selected, no silence is synthesized and no progress callback
    is scheduled, and the player is running exactly when the start of
    playback was accepted. *)
Theorem onStart_canStart (st : State) (r : Q) (accepted : bool) :
  reachable st -> Num.unit_draw r ->
  let st' := onStart r accepted st in
  (canStart st = false -> st' = st) /\
  (canStart st = true ->
   (exists t, t ∈ tracks (ui st) /\ selected st' t) /\
   running (ui st') = accepted /\
   phase st' = (if accepted then PlayingTrack else Idle) /\
   nextUrl (host st') = nextUrl (host st) /\
   frames (host st') = frames (host st)).
Proof.
  intros Hst Hr st'. pose proof (reachable_Inv _ Hst) as HI.
  unfold canStart. split.
  - intros Hc. subst st'. unfold onStart.
    change (r_running (render (ui st))) with (running (ui st)).
    change (r_tracks (render (ui st))) with (tracks (ui st)).
    destruct (running (ui st)); [done|].
    destruct (tracks (ui st)); [done|]. by cbn in Hc.
  - intros Hc. apply andb_prop in Hc as [Hlen Hrun].
    apply Nat.ltb_lt in Hlen. apply Bool.negb_true_iff in Hrun.
    assert (Hne : tracks (ui st) <> [])
      by (intros E; rewrite E in Hlen; cbn in Hlen; lia).
    destruct (onStart_selects r accepted st HI Hrun Hne Hr)
      as (t & Hin & _ & Hsel).
    fold st' in Hsel. split; [by exists t|].
    assert (Hrun' : running (ui st') = accepted /\
                    nextUrl (host st') = nextUrl (host st) /\
                    frames (host st') = frames (host st)).
    { subst st'. rewrite onStart_unfold by done.
      pose proof (Inv_setRunning true _ HI) as HI'.
      assert (Hlast : forall u,
                lastPlayedUrlRef (refs (setRunning true st)) = Some u ->
                truthy (Some u) = true).
      { intros u Hu. rewrite setRunning_last in Hu.
        eapply minted_truthy. by apply (inv_last _ HI). }
      destruct (playRandomTrack_selects (render (ui st)) r accepted
                  (setRunning true st) Hlast (inv_urls _ HI) Hne Hr)
        as (t' & _ & _ & ->).
      match goal with
      | |- context [playSrc ?rd ?u ?o ?a ?s] =>
          destruct (playSrc_frame rd u o a s)
            as (_ & _ & _ & _ & _ & _ & _ & _ & _ & _ & _ & _ & _ &
                F & N & _);
          destruct (inv_audio _ HI') as [a' Ha'];
          destruct (playSrc_started rd u o a s a' Ha') as (_ & R & _)
      end.
      rewrite R, F, N. destruct (setRunning_ui true st) as [_ R'].
      split_and!.
      - st_simpl. rewrite R'. by destruct accepted.
      - st_cases; done.
      - st_cases; done. }
    destruct Hrun' as (R & N & F). split_and!; try done.
    unfold phase. rewrite R. destruct Hsel as (_ & _ & -> & _). done.
Qed.

Lemma onStart_canStart_witness :
  let st := run [Files (Some [sampleFile "a.mp3"])] (init false) in
  let st' := onStart (1 # 2) true st in
  reachable st /\ Num.unit_draw (1 # 2) /\
  (canStart st = false -> st' = st) /\
  (canStart st = true ->
   (exists t, t ∈ tracks (ui st) /\ selected st' t) /\
   running (ui st') = true /\
   phase st' = PlayingTrack /\
   nextUrl (host st') = nextUrl (host st) /\
   frames (host st') = frames (host st)).
Proof.
  intros st st'.
  assert (R : reachable st).
  { apply reachable_run; [|constructor].
    apply Forall_cons_2; [exact I|apply Forall_nil_2]. }
  exact (conj R (conj unit_draw_half
                   (onStart_canStart st (1 # 2) true R unit_draw_half))).
Defined.

(** ** Volume *)

Ltac vol_frame H :=
  destruct H as (V1 & V2 & V3); unfold VolumeInv;
  split_and!; st_cases; try done;
  try (intros ? ?; simplify_eq; st_simpl; eauto; fail).

Lemma Vol_setRunning b st : VolumeInv st -> VolumeInv (setRunning b st).
Proof. intros H. vol_frame H. Qed.

Lemma Vol_pauseAudio st : VolumeInv st -> VolumeInv (pauseAudio st).
Proof. intros H. vol_frame H. Qed.

Lemma Vol_playSrc rd u opts acc st :
  VolumeInv st -> volume_ok (r_volume rd) ->
  VolumeInv (playSrc rd u opts acc st).
Proof.
  intros H Hrd. unfold playSrc.
  destruct (audioRef (refs st)) as [a|] eqn:Ha; [|done].
  destruct acc.
  - destruct (match title opts with Some t => _ | None => _ end),
      (revokeOnEnd opts), (truthy (title opts)); vol_frame H.
  - vol_frame H.
Qed.

Lemma Vol_playRandomTrack rd r acc st :
  VolumeInv st -> volume_ok (r_volume rd) ->
  VolumeInv (playRandomTrack rd r acc st).
Proof.
  intros H Hrd. unfold playRandomTrack.
  destruct (length (r_tracks rd) =? 0)%nat; [done|].
  destruct (pickRandom _ r) as [t|]; [|done].
  apply Vol_playSrc; [|done]. vol_frame H.
Qed.

Lemma Vol_playSilenceThenNext rd r now acc st :
  VolumeInv st -> volume_ok (r_volume rd) ->
  VolumeInv (playSilenceThenNext rd r now acc st).
Proof.
  intros H Hrd. unfold playSilenceThenNext.
  destruct (makeSilenceWavUrl_total
              (gapDuration (r_minGapSec rd) (r_maxGapSec rd) r) st)
    as (blob & _ & ->).
  st_unfold. st_simpl.
  apply Vol_playSrc; [|done].
  destruct (rafRef (refs st)); vol_frame H.
Qed.

Lemma Vol_animationFrame id now st :
  VolumeInv st -> VolumeInv (animationFrame id now st).
Proof. intros H. unfold animationFrame, tick. vol_frame H. Qed.

Lemma Vol_onStop st : VolumeInv st -> VolumeInv (onStop st).
Proof. intros H. unfold onStop. vol_frame H. Qed.

Lemma Vol_onFiles files st : VolumeInv st -> VolumeInv (onFiles files st).
Proof.
  intros H. unfold onFiles. destruct files as [fs|]; [|done].
  destruct (length fs =? 0)%nat; [done|].
  destruct (collectNewTracks _ fs [] st) as [newTracks st'] eqn:E.
  apply collectNewTracks_spec in E as (H1 & H2 & H3 & _).
  unfold VolumeInv. st_simpl. by rewrite H1, H2, H3.
Qed.

Lemma Vol_clearFiles st : VolumeInv st -> VolumeInv (clearFiles st).
Proof.
  intros H. unfold clearFiles.
  destruct (revokeAll_spec (tracks (ui st)) st) as (H1 & H2 & H3 & _).
  assert (H' : VolumeInv (revokeAll (tracks (ui st)) st))
    by (unfold VolumeInv; by rewrite H1, H2, H3).
  clear H H1 H2 H3.
  set (s := revokeAll (tracks (ui st)) st) in *. clearbody s.
  vol_frame H'.
Qed.

Lemma Vol_step op st : VolumeInv st -> VolumeInv (step op st).
Proof.
  intros H.
  assert (Vr : volume_ok (r_volume (render (ui st)))) by apply H.
  assert (Vm : volume_ok (r_volume (mediaHandlers st))) by apply H.
  destruct op; cbn [step].
  - by apply Vol_onFiles.
  - by apply Vol_clearFiles.
  - unfold onStart. destruct (_ || _); [done|].
    destruct (audioRef _); [|by apply Vol_setRunning].
    apply Vol_playRandomTrack; [by apply Vol_setRunning|done].
  - by apply Vol_onStop.
  - unfold skipTrack. destruct (_ || _); [done|].
    destruct (currentIsSilenceRef _).
    + apply Vol_playRandomTrack; [by apply Vol_pauseAudio|done].
    + apply Vol_playSilenceThenNext; [by apply Vol_pauseAudio|done].
  - unfold onEnded. destruct (audioRef _); [|done].
    destruct (negb _); [done|]. destruct (currentIsSilenceRef _).
    + apply Vol_playRandomTrack; [|done]. clear Vr Vm. vol_frame H.
    + by apply Vol_playSilenceThenNext.
  - unfold onTimeUpdate. clear Vr Vm. vol_frame H.
  - unfold onLoadedMetadata. clear Vr Vm. vol_frame H.
  - by apply Vol_animationFrame.
  - unfold onChangeMinGap. clear Vr Vm. vol_frame H.
  - unfold onChangeMaxGap. clear Vr Vm. vol_frame H.
  - destruct H as (V1 & V2 & V3).
    unfold onChangeVolume. unfold VolumeInv. st_simpl. split_and!; try done.
    apply clamp_bounds. done.
  - unfold glitchTimeout. clear Vr Vm. vol_frame H.
  - unfold msPlay. destruct (negb (hasMediaSession _)); [done|].
    clear Vr Vm. vol_frame H.
  - unfold msPause. destruct (negb (hasMediaSession _)); [done|].
    by apply Vol_setRunning, Vol_pauseAudio.
  - unfold msNextTrack. destruct (negb (hasMediaSession _)); [done|].
    destruct (audioRef _); [|done].
    destruct (currentIsSilenceRef _).
    + apply Vol_playRandomTrack; [by apply Vol_pauseAudio|done].
    + apply Vol_playSilenceThenNext; [by apply Vol_pauseAudio|done].
  - unfold msPreviousTrack. destruct (negb (hasMediaSession _)); [done|].
    destruct (audioRef _); [|done].
    apply Vol_playSilenceThenNext; [by apply Vol_pauseAudio|done].
Qed.

Lemma Vol_onVolumeInput v st : VolumeInv st -> VolumeInv (onVolumeInput v st).
Proof.
  intros (V1 & V2 & V3).
  pose proof (clamp_bounds v 0 1 ltac:(done)) as C.
  unfold onVolumeInput, volumeEffect, onChangeVolume, VolumeInv. st_simpl.
  destruct (audioRef (refs st)) as [a|] eqn:Ha; st_simpl; split_and!;
    try done.
  - intros ? ?. by simplify_eq.
  - intros ? ?. congruence.
Qed.

Lemma Vol_init b : VolumeInv (init b).
Proof.
  unfold VolumeInv, volume_ok. cbn. split_and!; try done.
  intros a ?. by simplify_eq.
Qed.

Lemma Vol_play evs : forall st, VolumeInv st -> VolumeInv (play evs st).
Proof.
  unfold play. induction evs as [|ev evs IH]; intros st H; [done|].
  cbn [fold_left]. apply IH. destruct ev; cbn [fire].
  - by apply Vol_step.
  - by apply Vol_onVolumeInput.
Qed.

(** X13.  Whatever operations and slider movements a mounted component
    has seen, with whatever numbers typed into the slider's input, the
    volume state and the volume of the audio element lie between 0 and
    1; and right after a slider movement the audio element has the
    clamped value. *)
Theorem volume_in_range (evs : list Event) (mediaSession : bool) (a : Audio) :
  let st := play evs (init mediaSession) in
  audioRef (refs st) = Some a ->
  volume_ok (volume (ui st)) /\ volume_ok (audioVolume a) /\
  forall v,
    audioVolume <$> audioRef (refs (onVolumeInput v st)) =
      Some (Num.clamp v 0 1) /\
    volume (ui (onVolumeInput v st)) = Num.clamp v 0 1.
Proof.
  intros st Ha.
  destruct (Vol_play evs (init mediaSession) (Vol_init _)) as (V1 & _ & V3).
  fold st in V1, V3. split_and!; [done|by apply V3|].
  intros v. unfold onVolumeInput, volumeEffect, onChangeVolume. st_simpl.
  by rewrite Ha.
Qed.

Lemma volume_in_range_witness :
  let evs := [VolumeInput 7; Operation (Files (Some [sampleFile "a.mp3"]));
              Operation (Start (1 # 2) true)] in
  let st := play evs (init false) in
  let a := {| src := "blob:0"; paused := false; audioVolume := 1 |} in
  audioRef (refs st) = Some a /\
  volume_ok (volume (ui st)) /\ volume_ok (audioVolume a) /\
  forall v,
    audioVolume <$> audioRef (refs (onVolumeInput v st)) =
      Some (Num.clamp v 0 1) /\
    volume (ui (onVolumeInput v st)) = Num.clamp v 0 1.
Proof.
  intros evs st a.
  assert (H : audioRef (refs st) = Some a) by (by vm_compute).
  exact (conj H (volume_in_range evs false a H)).
Defined.

(** ** Clearing the pool *)

(** X14.  [clearFiles] in a reachable state: the pool is empty and every
    URL it held is revoked, while every other URL keeps its registry
    entry; the player is idle and paused with no progress callback left;
    the last-played reference is reset.  The pending-release slot, the
    current-music reference and the displayed position are left as they
    are. *)
Theorem clearFiles_clears (st : State) :
  reachable st ->
  let st' := clearFiles st in
  tracks (ui st') = [] /\
  (forall t, t ∈ tracks (ui st) -> objectUrls (host st') !! url t = None) /\
  (forall u, u ∉ (url <$> tracks (ui st)) ->
     objectUrls (host st') !! u = objectUrls (host st) !! u) /\
  phase st' = Idle /\
  paused <$> audioRef (refs st') = Some true /\
  lastPlayedUrlRef (refs st') = None /\
  rafRef (refs st') = None /\ frames (host st') = ∅ /\
  silenceRemainingMs (ui st') = 0%Q /\
  pendingRevokeRef (refs st') = pendingRevokeRef (refs st) /\
  currentMusicUrlRef (refs st') = currentMusicUrlRef (refs st) /\
  currentTime (ui st') = currentTime (ui st) /\
  duration (ui st') = duration (ui st).
Proof.
  intros Hst st'. pose proof (reachable_Inv _ Hst) as HI.
  pose proof (Inv_clearFiles _ HI) as HI'. fold st' in HI'.
  destruct (clearFiles_frame st) as (L & R & T). fold st' in L, R, T.
  assert (Hraf : rafRef (refs st') = None)
    by (subst st'; unfold clearFiles; st_cases; done).
  assert (Hreg : forall u,
            objectUrls (host st') !! u =
            objectUrls (host (revokeAll (tracks (ui st)) st)) !! u).
  { intros u. subst st'. unfold clearFiles.
    set (s := revokeAll (tracks (ui st)) st). clearbody s.
    st_cases; done. }
  assert (Hrest :
    paused <$> audioRef (refs st') = Some true /\
    silenceRemainingMs (ui st') = 0%Q /\
    pendingRevokeRef (refs st') = pendingRevokeRef (refs st) /\
    currentMusicUrlRef (refs st') = currentMusicUrlRef (refs st) /\
    currentTime (ui st') = currentTime (ui st) /\
    duration (ui st') = duration (ui st)).
  { destruct (inv_audio _ HI) as [a Ha].
    destruct (revokeAll_spec (tracks (ui st)) st) as (H1 & H2 & _).
    subst st'. unfold clearFiles.
    set (s := revokeAll (tracks (ui st)) st) in *. clearbody s.
    rewrite <- H1, <- H2. rewrite <- H2 in Ha. clear H1 H2.
    split_and!; st_cases; try done; congruence. }
  destruct Hrest as (P & S & Pd & C & Ct & D).
  destruct (revokeAll_spec (tracks (ui st)) st)
    as (_ & _ & _ & _ & _ & _ & H7 & H8).
  split_and!; try done.
  - intros t Ht. rewrite Hreg. apply H8, list_elem_of_fmap. by exists t.
  - intros u Hu. rewrite Hreg. by apply H7.
  - unfold phase. by rewrite R.
  - apply map_empty. intros id.
    destruct (frames (host st') !! id) as [c|] eqn:E; [|done].
    pose proof (inv_frames _ HI' id (ex_intro _ c E)). congruence.
Qed.

Lemma clearFiles_clears_witness :
  let st := run gapScenario (init false) in
  let st' := clearFiles st in
  reachable st /\
  tracks (ui st') = [] /\
  (forall t, t ∈ tracks (ui st) -> objectUrls (host st') !! url t = None) /\
  (forall u, u ∉ (url <$> tracks (ui st)) ->
     objectUrls (host st') !! u = objectUrls (host st) !! u) /\
  phase st' = Idle /\
  paused <$> audioRef (refs st') = Some true /\
  lastPlayedUrlRef (refs st') = None /\
  rafRef (refs st') = None /\ frames (host st') = ∅ /\
  silenceRemainingMs (ui st') = 0%Q /\
  pendingRevokeRef (refs st') = pendingRevokeRef (refs st) /\
  currentMusicUrlRef (refs st') = currentMusicUrlRef (refs st) /\
  currentTime (ui st') = currentTime (ui st) /\
  duration (ui st') = duration (ui st).
Proof.
  intros st st'.
  assert (R : reachable st)
    by (apply reachable_run; [apply gapScenario_ok|constructor]).
  exact (conj R (clearFiles_clears st R)).
Defined.

(** ** Unmounting *)



(** ** Media-session actions *)

Ltac sync_frame H := unfold Sync in *; st_cases; done.

Lemma Sync_setRunning b st : Sync st -> Sync (setRunning b st).
Proof. intros H. sync_frame H. Qed.

Lemma Sync_pauseAudio st : Sync st -> Sync (pauseAudio st).
Proof. intros H. sync_frame H. Qed.

Lemma Sync_playSrc rd u opts acc st :
  Sync st -> Sync (playSrc rd u opts acc st).
Proof.
  intros H. unfold playSrc.
  destruct (audioRef (refs st)) as [a|] eqn:Ha; [|done].
  destruct acc.
  - destruct (match title opts with Some t => _ | None => _ end),
      (revokeOnEnd opts), (truthy (title opts)); sync_frame H.
  - sync_frame H.
Qed.

Lemma Sync_playRandomTrack rd r acc st :
  Sync st -> Sync (playRandomTrack rd r acc st).
Proof.
  intros H. unfold playRandomTrack.
  destruct (length (r_tracks rd) =? 0)%nat; [done|].
  destruct (pickRandom _ r) as [t|]; [|done].
  by apply Sync_playSrc.
Qed.

Lemma Sync_playSilenceThenNext rd r now acc st :
  Sync st -> Sync (playSilenceThenNext rd r now acc st).
Proof.
  intros H. unfold playSilenceThenNext.
  destruct (makeSilenceWavUrl_total
              (gapDuration (r_minGapSec rd) (r_maxGapSec rd) r) st)
    as (blob & _ & ->).
  st_unfold. st_simpl.
  apply Sync_playSrc. destruct (rafRef (refs st)); sync_frame H.
Qed.

Lemma Sync_onFiles files st : Sync st -> Sync (onFiles files st).
Proof.
  intros H. unfold onFiles. destruct files as [fs|]; [|done].
  destruct (length fs =? 0)%nat; [done|].
  destruct (collectNewTracks _ fs [] st) as [newTracks st'] eqn:E.
  apply collectNewTracks_spec in E as (H1 & H2 & H3 & _).
  unfold Sync in *. st_simpl. by rewrite H1, H3.
Qed.

Lemma Sync_clearFiles st : Sync st -> Sync (clearFiles st).
Proof.
  intros H. unfold clearFiles.
  destruct (revokeAll_spec (tracks (ui st)) st) as (H1 & H2 & H3 & _).
  assert (H' : Sync (revokeAll (tracks (ui st)) st))
    by (unfold Sync in *; by rewrite H1, H3).
  clear H H1 H2 H3.
  set (s := revokeAll (tracks (ui st)) st) in *. clearbody s.
  sync_frame H'.
Qed.

Lemma Sync_step op st : Sync st -> Sync (step op st).
Proof.
  intros H. destruct op; cbn [step].
  - by apply Sync_onFiles.
  - by apply Sync_clearFiles.
  - unfold onStart. destruct (_ || _); [done|].
    destruct (audioRef _); [|by apply Sync_setRunning].
    by apply Sync_playRandomTrack, Sync_setRunning.
  - unfold onStop. sync_frame H.
  - unfold skipTrack. destruct (_ || _); [done|].
    destruct (currentIsSilenceRef _).
    + by apply Sync_playRandomTrack, Sync_pauseAudio.
    + by apply Sync_playSilenceThenNext, Sync_pauseAudio.
  - unfold onEnded. destruct (audioRef _); [|done].
    destruct (negb _); [done|]. destruct (currentIsSilenceRef _).
    + by apply Sync_playRandomTrack.
    + by apply Sync_playSilenceThenNext.
  - unfold onTimeUpdate. sync_frame H.
  - unfold onLoadedMetadata. sync_frame H.
  - unfold animationFrame, tick. sync_frame H.
  - done.
  - done.
  - done.
  - done.
  - unfold msPlay. destruct (negb (hasMediaSession _)); [done|].
    sync_frame H.
  - unfold msPause. destruct (negb (hasMediaSession _)); [done|].
    by apply Sync_setRunning, Sync_pauseAudio.
  - unfold msNextTrack. destruct (negb (hasMediaSession _)); [done|].
    destruct (audioRef _); [|done].
    destruct (currentIsSilenceRef _).
    + by apply Sync_playRandomTrack, Sync_pauseAudio.
    + by apply Sync_playSilenceThenNext, Sync_pauseAudio.
  - unfold msPreviousTrack. destruct (negb (hasMediaSession _)); [done|].
    destruct (audioRef _); [|done].
    by apply Sync_playSilenceThenNext, Sync_pauseAudio.
Qed.

Lemma reachable_Sync st : reachable st -> Sync st.
Proof. induction 1 as [b|op st _ IH _]; [done|by apply Sync_step]. Qed.

(** X16.  In every reachable state the media-session handlers hold the
    current value of [running].  So on a host with a media session the
    play action leaves the player running exactly when the start of
    playback was accepted, and the pause action leaves it idle and
    paused. *)
Theorem media_session_play_pause (st : State) (accepted : bool) :
  reachable st -> hasMediaSession (host st) = true ->
  r_running (mediaHandlers st) = running (ui st) /\
  running (ui (msPlay accepted st)) = accepted /\
  paused <$> audioRef (refs (msPlay accepted st)) =
    (if accepted then Some false else paused <$> audioRef (refs st)) /\
  running (ui (msPause st)) = false /\
  paused <$> audioRef (refs (msPause st)) = Some true.
Proof.
  intros Hst HM. pose proof (reachable_Inv _ Hst) as HI.
  pose proof (reachable_Sync _ Hst) as HS. unfold Sync in HS.
  destruct (inv_audio _ HI) as [a Ha].
  split; [done|].
  unfold msPlay, msPause. rewrite HM. cbn [negb]. rewrite HS.
  destruct (running (ui st)) eqn:Hr, accepted; cbn [negb];
    split_and!; st_cases; try done; try congruence.
  all: match goal with
       | E : Bool.eqb _ _ = true |- _ => apply Bool.eqb_prop in E
       end; congruence.
Qed.

Lemma media_session_play_pause_witness :
  let st := run twoTracks (init true) in
  reachable st /\ hasMediaSession (host st) = true /\
  r_running (mediaHandlers st) = running (ui st) /\
  running (ui (msPlay false st)) = false /\
  paused <$> audioRef (refs (msPlay false st)) =
    paused <$> audioRef (refs st) /\
  running (ui (msPause st)) = false /\
  paused <$> audioRef (refs (msPause st)) = Some true.
Proof.
  intros st.
  assert (R : reachable st)
    by (apply reachable_run; [apply twoTracks_ok|constructor]).
  assert (M : hasMediaSession (host st) = true) by (by vm_compute).
  exact (conj R (conj M (media_session_play_pause st false R M))).
Defined.

(** X17.  While the player runs and the media-session handlers hold the
    callbacks of the current render, the next-track action does what the
    skip button does. *)
Theorem msNextTrack_skipTrack (st : State) (r now : Q) (accepted : bool) :
  hasMediaSession (host st) = true -> running (ui st) = true ->
  mediaHandlers st = render (ui st) ->
  msNextTrack r now accepted st = skipTrack r now accepted st.
Proof.
  intros HM Hr Hh. unfold msNextTrack, skipTrack.
  rewrite HM, Hh. cbn [negb].
  change (r_running (render (ui st))) with (running (ui st)). rewrite Hr.
  cbn [negb orb].
  destruct (audioRef (refs st)) as [a|] eqn:Ha.
  - rewrite bool_decide_eq_true_2 by done. done.
  - rewrite bool_decide_eq_false_2 by (by intros [? ?]). done.
Qed.

Lemma msNextTrack_skipTrack_witness :
  let st := run twoTracks (init true) in
  hasMediaSession (host st) = true /\ running (ui st) = true /\
  mediaHandlers st = render (ui st) /\
  msNextTrack (1 # 2) 0 true st = skipTrack (1 # 2) 0 true st.
Proof.
  intros st.
  assert (M : hasMediaSession (host st) = true) by (by vm_compute).
  assert (Hr : running (ui st) = true) by (by vm_compute).
  assert (Hh : mediaHandlers st = render (ui st)) by (by vm_compute).
  exact (conj M (conj Hr (conj Hh
           (msNextTrack_skipTrack st (1 # 2) 0 true M Hr Hh)))).
Defined.

(** ** The life of a silence URL *)

(** X18.  A track ends while the player runs and the start of the gap is
    accepted: the player is in the gap, playing a freshly registered
    silence URL that sits in the pending-release slot.  When that gap
    ends, a track of the pool is selected, and the silence URL is revoked
    and leaves the slot, whether or not the start of the track is
    accepted. *)
Theorem gap_url_released (st : State) (r1 now1 r2 now2 : Q)
    (accepted : bool) :
  reachable st -> Num.unit_draw r1 -> Num.unit_draw r2 ->
  phase st = PlayingTrack -> tracks (ui st) <> [] ->
  let u := blobUrl (nextUrl (host st)) in
  let st1 := onEnded r1 now1 true st in
  let st2 := onEnded r2 now2 accepted st1 in
  (phase st1 = PlayingGap /\
   src <$> audioRef (refs st1) = Some u /\
   is_Some (objectUrls (host st1) !! u) /\
   pendingRevokeRef (refs st1) = Some u) /\
  (phase st2 = (if accepted then PlayingTrack else Idle) /\
   (exists t, t ∈ tracks (ui st) /\ selected st2 t) /\
   objectUrls (host st2) !! u = None /\
   pendingRevokeRef (refs st2) = None /\
   silenceRemainingMs (ui st2) = 0%Q).
Proof.
  intros Hst Hr1 Hr2 Hph Hne u st1 st2.
  pose proof (reachable_Inv _ Hst) as HI.
  destruct (inv_audio _ HI) as [a Ha].
  unfold phase in Hph.
  destruct (running (ui st)) eqn:Hrun; [|done].
  destruct (currentIsSilenceRef (refs st)) eqn:Hsil; [done|].
  assert (E1 : st1 = playSilenceThenNext (render (ui st)) r1 now1 true st).
  { subst st1. unfold onEnded. rewrite Ha.
    change (r_running (render (ui st))) with (running (ui st)).
    by rewrite Hrun, Hsil. }
  assert (Hst1 : reachable st1)
    by (apply (reachable_step (Ended r1 now1 true)); done).
  pose proof (reachable_Inv _ Hst1) as HI1.
  destruct (playSilenceThenNext_started (render (ui st)) r1 now1 true st HI)
    as (S1 & S2 & S3 & S4 & _).
  destruct (playSilenceThenNext_refs (render (ui st)) r1 now1 true st)
    as (_ & _ & _ & Q4 & _ & _ & _ & Q8).
  rewrite <- E1 in S1, S2, S3, S4, Q4, Q8. fold u in S1, S3, S4.
  rewrite silenceContainer_eq in S3.
  assert (Hrun1 : running (ui st1) = true) by congruence.
  split.
  { split_and!; try done; try (unfold phase; by rewrite Hrun1, Q4).
    all: by rewrite S3. }
  destruct (inv_audio _ HI1) as [a1 Ha1].
  set (s1 := setSilenceRemainingMs 0 st1).
  assert (E2 : st2 = playRandomTrack (render (ui st1)) r2 accepted s1).
  { subst st2. unfold onEnded. rewrite Ha1.
    change (r_running (render (ui st1))) with (running (ui st1)).
    by rewrite Hrun1, Q4. }
  assert (Hlast : forall v,
            lastPlayedUrlRef (refs s1) = Some v -> truthy (Some v) = true).
  { intros v Hv. eapply minted_truthy. by apply (inv_last _ HI1). }
  assert (Hne1 : r_tracks (render (ui st1)) <> [])
    by (change (r_tracks (render (ui st1))) with (tracks (ui st1));
        by rewrite Q8).
  destruct (playRandomTrack_selects (render (ui st1)) r2 accepted s1
              Hlast (inv_urls _ HI1) Hne1 Hr2)
    as (t & Hin & _ & Heq).
  rewrite <- E2 in Heq.
  change (r_tracks (render (ui st1))) with (tracks (ui st1)) in Hin.
  rewrite Q8 in Hin.
  set (s2 := setLastPlayedUrl (Some (url t))
               (setCurrentMusicUrl (Some (url t))
                  (setCurrentIsSilence false s1))) in *.
  assert (Ha2 : audioRef (refs s2) = Some a1) by done.
  destruct (playSrc_started (render (ui st1)) (url t)
              {| revokeOnEnd := false; title := Some (name t) |}
              accepted s2 a1 Ha2) as (_ & P2 & P3 & P4 & _).
  destruct (playSrc_frame (render (ui st1)) (url t)
              {| revokeOnEnd := false; title := Some (name t) |}
              accepted s2)
    as (_ & _ & _ & _ & F5 & _ & _ & F8 & _).
  rewrite <- Heq in P2, P3, P4, F5, F8.
  assert (Hsel : selected st2 t).
  { rewrite Heq. apply playSrc_track. by exists a1. }
  assert (Hp2 : pendingRevokeRef (refs s2) = Some u) by done.
  split_and!.
  - unfold phase. rewrite P2, F8. subst s2 s1. st_simpl. rewrite Hrun1.
    by destruct accepted.
  - by exists t.
  - rewrite P4. unfold cleanupPendingRevoke. rewrite Hp2.
    change (truthy (Some u)) with true. cbn iota. st_unfold. st_simpl.
    apply lookup_delete_eq.
  - rewrite P3, Hp2. cbn [revokeOnEnd]. rewrite andb_false_r.
    by change (truthy (Some u)) with true.
  - by rewrite F5.
Qed.

Lemma gap_url_released_witness :
  let st := run twoTracks (init false) in
  let u := blobUrl (nextUrl (host st)) in
  let st1 := onEnded (1 # 2) 0 true st in
  let st2 := onEnded (1 # 2) 0 true st1 in
  reachable st /\ Num.unit_draw (1 # 2) /\
  phase st = PlayingTrack /\ tracks (ui st) <> [] /\
  (phase st1 = PlayingGap /\
   src <$> audioRef (refs st1) = Some u /\
   is_Some (objectUrls (host st1) !! u) /\
   pendingRevokeRef (refs st1) = Some u) /\
  (phase st2 = PlayingTrack /\
   (exists t, t ∈ tracks (ui st) /\ selected st2 t) /\
   objectUrls (host st2) !! u = None /\
   pendingRevokeRef (refs st2) = None /\
   silenceRemainingMs (ui st2) = 0%Q).
Proof.
  intros st u st1 st2.
  assert (R : reachable st)
    by (apply reachable_run; [apply twoTracks_ok|constructor]).
  assert (P : phase st = PlayingTrack) by (by vm_compute).
  assert (N : tracks (ui st) <> []) by (by vm_compute).
  exact (conj R (conj unit_draw_half (conj P (conj N
           (gap_url_released st (1 # 2) 0 (1 # 2) 0 true R
              unit_draw_half unit_draw_half P N))))).
Defined.

(** ** The glitch effect *)




(** ** A URL nothing refers to *)

Ltac unowned_frame H :=
  destruct H as (U1 & U2 & U3 & U4 & U5); unfold unowned;
  split_and!; st_cases; try done; try congruence.

Lemma unowned_setRunning u b st : unowned u st -> unowned u (setRunning b st).
Proof. intros H. unowned_frame H. Qed.

Lemma unowned_pauseAudio u st : unowned u st -> unowned u (pauseAudio st).
Proof. intros H. unowned_frame H. Qed.

Lemma unowned_playSrc u rd v opts acc st :
  unowned u st -> (revokeOnEnd opts = true -> v <> u) ->
  unowned u (playSrc rd v opts acc st).
Proof.
  intros H Hv. unfold playSrc.
  destruct (audioRef (refs st)) as [a|] eqn:Ha; [|done].
  destruct acc.
  - destruct (match title opts with Some t => _ | None => _ end),
      (revokeOnEnd opts) eqn:Er, (truthy (title opts)); unowned_frame H.
    all: intros ?; simplify_eq; by apply Hv.
  - unowned_frame H.
Qed.

Lemma unowned_playRandomTrack u rd r acc st :
  unowned u st -> u ∉ (url <$> r_tracks rd) ->
  unowned u (playRandomTrack rd r acc st).
Proof.
  intros H Hrd. unfold playRandomTrack.
  destruct (length (r_tracks rd) =? 0)%nat; [done|].
  destruct (pickRandom _ r) as [t|] eqn:Hpick; [|done].
  assert (Ht : t ∈ r_tracks rd).
  { apply pickRandom_elem in Hpick. destruct (_ && _); [|done].
    by apply list_elem_of_filter in Hpick as [_ ?]. }
  assert (Hu : url t <> u).
  { intros <-. apply Hrd, list_elem_of_fmap. by exists t. }
  apply unowned_playSrc; [|done].
  destruct H as (U1 & U2 & U3 & U4 & U5). unfold unowned. st_simpl.
  split_and!; try done. congruence.
Qed.

Lemma unowned_playSilenceThenNext u rd r now acc st :
  unowned u st -> unowned u (playSilenceThenNext rd r now acc st).
Proof.
  intros H. unfold playSilenceThenNext.
  destruct (makeSilenceWavUrl_total
              (gapDuration (r_minGapSec rd) (r_maxGapSec rd) r) st)
    as (blob & _ & ->).
  st_unfold. st_simpl.
  assert (Hfresh : blobUrl (nextUrl (host st)) <> u).
  { destruct H as (U1 & _). intros E. symmetry in E.
    by apply minted_fresh in U1. }
  apply unowned_playSrc; [|done].
  destruct H as (U1 & U2 & U3 & U4 & U5). unfold unowned.
  destruct (rafRef (refs st)); st_unfold; st_simpl; split_and!; try done.
  all: eapply minted_mono; [|exact U1]; lia.
Qed.

Lemma unowned_onFiles u files st :
  unowned u st -> unowned u (onFiles files st).
Proof.
  intros H. unfold onFiles. destruct files as [fs|]; [|done].
  destruct (length fs =? 0)%nat; [done|].
  destruct (collectNewTracks _ fs [] st) as [newTracks st'] eqn:E.
  apply collectNewTracks_spec in E
    as (H1 & H2 & H3 & _ & H5 & _ & _ & H8 & _).
  destruct H as (U1 & U2 & U3 & U4 & U5). unfold unowned. st_simpl.
  rewrite H1, H2, H3. split_and!; try done.
  - eapply minted_mono; [|exact U1]. done.
  - rewrite fmap_app, elem_of_app. intros [?|Hin]; [done|].
    revert Hin. apply H8; [done|apply not_elem_of_nil].
Qed.

Lemma unowned_clearFiles u st : unowned u st -> unowned u (clearFiles st).
Proof.
  intros H. unfold clearFiles.
  destruct (revokeAll_spec (tracks (ui st)) st)
    as (H1 & H2 & H3 & _ & H5 & _).
  assert (H' : unowned u (revokeAll (tracks (ui st)) st))
    by (unfold unowned in *; by rewrite H1, H2, H3, H5).
  clear H H1 H2 H3 H5.
  set (s := revokeAll (tracks (ui st)) st) in *. clearbody s.
  destruct H' as (U1 & U2 & U3 & U4 & U5). unfold unowned.
  split_and!; st_cases; try done; try congruence.
  all: apply not_elem_of_nil.
Qed.

Lemma unowned_step u op st : unowned u st -> unowned u (step op st).
Proof.
  intros H.
  assert (Hr : u ∉ (url <$> r_tracks (render (ui st)))) by apply H.
  assert (Hm : u ∉ (url <$> r_tracks (mediaHandlers st))) by apply H.
  destruct op; cbn [step].
  - by apply unowned_onFiles.
  - by apply unowned_clearFiles.
  - unfold onStart. destruct (_ || _); [done|].
    destruct (audioRef _); [|by apply unowned_setRunning].
    apply unowned_playRandomTrack; [by apply unowned_setRunning|done].
  - unfold onStop. clear Hr Hm. unowned_frame H.
  - unfold skipTrack. destruct (_ || _); [done|].
    destruct (currentIsSilenceRef _).
    + apply unowned_playRandomTrack; [by apply unowned_pauseAudio|done].
    + by apply unowned_playSilenceThenNext, unowned_pauseAudio.
  - unfold onEnded. destruct (audioRef _); [|done].
    destruct (negb _); [done|]. destruct (currentIsSilenceRef _).
    + apply unowned_playRandomTrack; [|done]. clear Hr Hm. unowned_frame H.
    + by apply unowned_playSilenceThenNext.
  - unfold onTimeUpdate. clear Hr Hm. unowned_frame H.
  - unfold onLoadedMetadata. clear Hr Hm. unowned_frame H.
  - unfold animationFrame, tick. clear Hr Hm. unowned_frame H.
  - unfold onChangeMinGap. clear Hr Hm. unowned_frame H.
  - unfold onChangeMaxGap. clear Hr Hm. unowned_frame H.
  - unfold onChangeVolume. clear Hr Hm. unowned_frame H.
  - unfold glitchTimeout. clear Hr Hm. unowned_frame H.
  - unfold msPlay. destruct (negb (hasMediaSession _)); [done|].
    clear Hr Hm. unowned_frame H.
  - unfold msPause. destruct (negb (hasMediaSession _)); [done|].
    by apply unowned_setRunning, unowned_pauseAudio.
  - unfold msNextTrack. destruct (negb (hasMediaSession _)); [done|].
    destruct (audioRef _); [|done].
    assert (Hm' : u ∉ (url <$> r_tracks (mediaHandlers st))) by done.
    destruct (currentIsSilenceRef _).
    + apply unowned_playRandomTrack; [by apply unowned_pauseAudio|done].
    + by apply unowned_playSilenceThenNext, unowned_pauseAudio.
  - unfold msPreviousTrack. destruct (negb (hasMediaSession _)); [done|].
    destruct (audioRef _); [|done].
    by apply unowned_playSilenceThenNext, unowned_pauseAudio.
Qed.

Lemma unowned_run u ops : forall st, unowned u st -> unowned u (run ops st).
Proof.
  unfold run. induction ops as [|op ops IH]; intros st H; [done|].
  cbn [fold_left]. by apply IH, unowned_step.
Qed.

(** The unmount cleanup leaves the registry entry of such a URL alone. *)
Lemma unmount_unowned u st :
  unowned u st ->
  objectUrls (host (unmount st)) !! u = objectUrls (host st) !! u.
Proof.
  intros (_ & U2 & U3 & _). unfold unmount.
  set (s1 := cleanupPendingRevoke st).
  assert (H1 : currentMusicUrlRef (refs s1) = currentMusicUrlRef (refs st) /\
               objectUrls (host s1) !! u = objectUrls (host st) !! u).
  { subst s1. unfold cleanupPendingRevoke.
    destruct (pendingRevokeRef (refs st)) as [p|] eqn:Hp; [|done].
    destruct (truthy (Some p)); [|done]. st_unfold. st_simpl.
    split; [done|]. apply lookup_delete_ne. congruence. }
  clearbody s1. destruct H1 as (C1 & O1). rewrite C1.
  destruct (currentMusicUrlRef (refs st)) as [c|] eqn:Hc; [|done].
  destruct (truthy (Some c)); [|done]. st_unfold. st_simpl.
  rewrite <- O1. apply lookup_delete_ne. congruence.
Qed.

(** X8.  The silence URL of a gap whose start of playback was rejected
    is lost for good: after any operations, the component holds no
    reference to it, and the unmount cleanup leaves it registered. *)
Theorem rejected_gap_url_leaks (st : State) (rd : Render) (r now : Q)
    (ops : list Op) :
  reachable st ->
  let u := blobUrl (nextUrl (host st)) in
  let st' := run ops (playSilenceThenNext rd r now false st) in
  unowned u st' /\
  is_Some (objectUrls (host st') !! u) /\
  is_Some (objectUrls (host (unmount st')) !! u).
Proof.
  intros Hst u st'. pose proof (reachable_Inv _ Hst) as HI.
  set (st0 := playSilenceThenNext rd r now false st) in *.
  destruct (playSilenceThenNext_started rd r now false st HI)
    as (_ & _ & L & P & _).
  destruct (playSilenceThenNext_refs rd r now false st)
    as (_ & _ & _ & _ & C & _ & N & T).
  fold st0 in L, P, C, N, T. fold u in L.
  rewrite silenceContainer_eq in L.
  assert (Hu : minted (nextUrl (host st0)) u)
    by (rewrite N; exists (nextUrl (host st)); split; [lia|done]).
  assert (Hnt : u ∉ (url <$> tracks (ui st0)))
    by (rewrite T; apply not_elem_of_minted, (inv_minted _ HI)).
  assert (Hms : u ∉ (url <$> r_tracks (mediaHandlers st0))).
  { pose proof (not_elem_of_minted _ _ (inv_minted _ HI)) as H1.
    pose proof (not_elem_of_minted _ _ (inv_minted_ms _ HI)) as H2.
    fold u in H1, H2.
    assert (E : mediaHandlers st0 = mediaHandlers st \/
                r_tracks (mediaHandlers st0) = tracks (ui st)).
    { subst st0. unfold playSilenceThenNext.
      destruct (makeSilenceWavUrl_total
                  (gapDuration (r_minGapSec rd) (r_maxGapSec rd) r) st)
        as (blob & _ & ->).
      destruct (inv_audio _ HI) as [a Ha].
      unfold playSrc. st_cases; (by left) || (by right). }
    destruct E as [-> | ->]; done. }
  assert (H0 : unowned u st0).
  { unfold unowned. split_and!; try done; by rewrite ?P, ?C. }
  pose proof (unowned_run u ops st0 H0) as H'. fold st' in H'.
  assert (Hreg : is_Some (objectUrls (host st') !! u)).
  { destruct (keeps_run (nextUrl (host st0)) ops st0 (le_n _))
      as (_ & _ & KL & _).
    subst st'. rewrite KL; [by rewrite L|done| |by left]. by rewrite P. }
  split_and!; [done|done|]. by rewrite unmount_unowned.
Qed.

Lemma rejected_gap_url_leaks_witness :
  let st := run twoTracks (init false) in
  let u := blobUrl (nextUrl (host st)) in
  let st' :=
    run [Stop; ClearFiles]
      (playSilenceThenNext (render (ui st)) (1 # 2) 0 false st) in
  reachable st /\
  unowned u st' /\
  is_Some (objectUrls (host st') !! u) /\
  is_Some (objectUrls (host (unmount st')) !! u).
Proof.
  intros st u st'.
  assert (R : reachable st)
    by (apply reachable_run; [apply twoTracks_ok|constructor]).
  exact (conj R (rejected_gap_url_leaks st (render (ui st)) (1 # 2) 0
                   [Stop; ClearFiles] R)).
Defined.

(** ** The track list *)

(** X22.  In every reachable state the keys of the rendered track list
    are pairwise distinct and at most one item is marked as current; and
    while a track plays, the item of the selected track is the one
    marked. *)
Theorem isCurrent_unique (st : State) (t1 t2 : Track) :
  reachable st -> t1 ∈ tracks (ui st) -> t2 ∈ tracks (ui st) ->
  NoDup (url <$> tracks (ui st)) /\
  (isCurrent st t1 = true -> isCurrent st t2 = true -> t1 = t2) /\
  (phase st = PlayingTrack -> selected st t1 -> isCurrent st t1 = true).
Proof.
  intros Hst H1 H2. pose proof (reachable_Inv _ Hst) as HI.
  pose proof (inv_urls _ HI) as Hnd. split_and!; [done| |].
  - unfold isCurrent. intros C1 C2.
    repeat (apply andb_prop in C1 as [C1 ?]).
    repeat (apply andb_prop in C2 as [C2 ?]).
    apply bool_decide_eq_true_1 in C1, C2.
    assert (E : url t1 = url t2) by congruence.
    apply list_elem_of_lookup in H1 as [i Hi], H2 as [j Hj].
    assert (i = j).
    { eapply NoDup_lookup; [exact Hnd| |].
      - by rewrite list_lookup_fmap, Hi.
      - by rewrite list_lookup_fmap, Hj, E. }
    congruence.
  - unfold phase, isCurrent. intros Hp (_ & Hc & Hs & _).
    destruct (running (ui st)); [|done].
    rewrite Hs, bool_decide_eq_true_2 by done. done.
Qed.

Lemma isCurrent_unique_witness :
  let st := run twoTracks (init false) in
  let t := {| name := "b.mp3"; url := "blob:1" |} in
  reachable st /\ t ∈ tracks (ui st) /\
  NoDup (url <$> tracks (ui st)) /\
  (isCurrent st t = true -> isCurrent st t = true -> t = t) /\
  (phase st = PlayingTrack -> selected st t -> isCurrent st t = true).
Proof.
  intros st t.
  assert (R : reachable st)
    by (apply reachable_run; [apply twoTracks_ok|constructor]).
  assert (H : t ∈ tracks (ui st))
    by (vm_compute; apply list_elem_of_further, list_elem_of_here).
  exact (conj R (conj H (isCurrent_unique st t t R H H))).
Defined.

(** ** The icon generator *)

Import GenIcons.

(** What the loop returns when no read fails: the first of the largest
    PNG entries it visited, unless the image it started with is at least
    as large as all of them. *)
Lemma loop_inr ico n : forall i acc r,
  loop ico n i acc = inr r ->
  (r = acc /\
   forall j e, (i <= j < i + n)%nat -> pngAt ico j e ->
     exists b, acc = Some b /\ area (image ico e) <= area b) \/
  (exists k e,
     (i <= k < i + n)%nat /\ pngAt ico k e /\ r = Some (image ico e) /\
     (forall b, acc = Some b -> area b < area (image ico e)) /\
     forall j e', (i <= j < i + n)%nat -> pngAt ico j e' ->
       area (image ico e') <= area (image ico e) /\
       (area (image ico e') = area (image ico e) -> (k <= j)%nat)).
Proof.
  induction n as [|n IH]; intros i acc r H; cbn [loop] in H.
  - left. split; [congruence|]. intros j e Hj. lia.
  - destruct (readEntry ico i) as [e|] eqn:He; [|done].
    destruct (isPng ico (offset e)) eqn:Hpng; cbn [negb] in H.
    + set (new := image ico e) in *.
      destruct (match acc with Some b => area b <? area new | None => true end)
        eqn:Hb.
      * (* the entry becomes the best *)
        apply IH in H as [[-> Hall]|(k & ek & Hk & Hpk & -> & Hacc & Hall)].
        -- right. exists i, e. (split; [lia|]); (split; [done|]); (split; [done|]); split.
           ++ intros b ->. by apply Z.ltb_lt in Hb.
           ++ intros j e' Hj Hp.
              destruct (decide (j = i)) as [->|Hne].
              ** destruct Hp as [Hp _]. rewrite He in Hp. simplify_eq.
                 split; [lia|]. lia.
              ** destruct (Hall j e' ltac:(lia) Hp) as (b & [= <-] & Hle).
                 split; [done|lia].
        -- right. exists k, ek. specialize (Hacc new eq_refl).
           (split; [lia|]); (split; [done|]); (split; [done|]); split.
           ++ intros b ->. apply Z.ltb_lt in Hb. lia.
           ++ intros j e' Hj Hp.
              destruct (decide (j = i)) as [->|Hne].
              ** destruct Hp as [Hp _]. rewrite He in Hp. simplify_eq.
                 fold new. split; lia.
              ** apply (Hall j e'); [lia|done].
      * (* the best so far stays *)
        destruct acc as [b|]; [|done]. apply Z.ltb_ge in Hb.
        apply IH in H as [[-> Hall]|(k & ek & Hk & Hpk & -> & Hacc & Hall)].
        -- left. split; [done|]. intros j e' Hj Hp.
           destruct (decide (j = i)) as [->|Hne].
           ** destruct Hp as [Hp _]. rewrite He in Hp. simplify_eq.
              by exists b.
           ** apply (Hall j e'); [lia|done].
        -- right. exists k, ek. specialize (Hacc b eq_refl).
           (split; [lia|]); (split; [done|]); (split; [done|]); split.
           ++ by intros ? [= <-].
           ++ intros j e' Hj Hp.
              destruct (decide (j = i)) as [->|Hne].
              ** destruct Hp as [Hp _]. rewrite He in Hp. simplify_eq.
                 fold new. split; lia.
              ** apply (Hall j e'); [lia|done].
    + apply IH in H as [[-> Hall]|(k & ek & Hk & Hpk & -> & Hacc & Hall)].
      * left. split; [done|]. intros j e' Hj Hp.
        destruct (decide (j = i)) as [->|Hne].
        -- destruct Hp as [Hp Hp']. rewrite He in Hp. simplify_eq. congruence.
        -- apply (Hall j e'); [lia|done].
      * right. exists k, ek. (split; [lia|]); (split; [done|]); (split; [done|]); (split; [done|]).
        intros j e' Hj Hp.
        destruct (decide (j = i)) as [->|Hne].
        -- destruct Hp as [Hp Hp']. rewrite He in Hp. simplify_eq. congruence.
        -- apply (Hall j e'); [lia|done].
Qed.

(** The loop fails exactly when it meets an entry it cannot read. *)
Lemma loop_inl ico n : forall i acc,
  (exists j, (i <= j < i + n)%nat /\ readEntry ico j = None) ->
  loop ico n i acc = inl RangeError.
Proof.
  induction n as [|n IH]; intros i acc (j & Hj & Hn); [lia|].
  cbn [loop]. destruct (readEntry ico i) as [e|] eqn:He; [|done].
  assert (Hex : exists j, (S i <= j < S i + n)%nat /\ readEntry ico j = None).
  { exists j. split; [|done]. destruct (decide (j = i)) as [->|?]; [congruence|lia]. }
  destruct (negb _); [by apply IH|].
  by apply IH.
Qed.

Lemma loop_readable ico n : forall i acc,
  (forall j, (i <= j < i + n)%nat -> is_Some (readEntry ico j)) ->
  exists r, loop ico n i acc = inr r.
Proof.
  induction n as [|n IH]; intros i acc Hall; cbn [loop]; [by eexists|].
  destruct (Hall i ltac:(lia)) as [e ->].
  destruct (negb _); apply IH; intros j Hj; apply Hall; lia.
Qed.

Lemma getUint32_is_Some off (v : list Z) :
  (off + 4 <= length v)%nat -> is_Some (getUint32 off v).
Proof.
  intros H. unfold getUint32.
  destruct (lookup_lt_is_Some_2 v off ltac:(lia)) as [b0 ->].
  destruct (lookup_lt_is_Some_2 v (off + 1) ltac:(lia)) as [b1 ->].
  destruct (lookup_lt_is_Some_2 v (off + 2) ltac:(lia)) as [b2 ->].
  destruct (lookup_lt_is_Some_2 v (off + 3) ltac:(lia)) as [b3 ->].
  by eexists.
Qed.

Lemma getUint16_is_Some off (v : list Z) :
  (off + 2 <= length v)%nat <-> is_Some (getUint16 off v).
Proof.
  unfold getUint16. split.
  - intros H.
    destruct (lookup_lt_is_Some_2 v off ltac:(lia)) as [b0 ->].
    destruct (lookup_lt_is_Some_2 v (off + 1) ltac:(lia)) as [b1 ->].
    by eexists.
  - intros [x Hx].
    destruct (v !! off) as [b0|] eqn:E0; [|done]. cbn [mbind option_bind] in Hx.
    destruct (v !! (off + 1)%nat) as [b1|] eqn:E1; [|done].
    apply lookup_lt_Some in E1. lia.
Qed.

(** An entry is readable exactly when its sixteen bytes lie in the
    file. *)
Lemma readEntry_is_Some ico i :
  is_Some (readEntry ico i) <-> (6 + i * 16 + 16 <= length ico)%nat.
Proof.
  unfold readEntry, getUint8. split.
  - intros [e He].
    destruct (ico !! (6 + i * 16 + 0)%nat) as [w|]; [|done]. cbn [mbind option_bind] in He.
    destruct (ico !! (6 + i * 16 + 1)%nat) as [h|]; [|done]. cbn [mbind option_bind] in He.
    destruct (getUint32 (6 + i * 16 + 8) ico) as [s|]; [|done]. cbn [mbind option_bind] in He.
    destruct (getUint32 (6 + i * 16 + 12) ico) as [o|] eqn:Ho; [|done].
    unfold getUint32 in Ho.
    destruct (ico !! (6 + i * 16 + 12)%nat); [|done]. cbn [mbind option_bind] in Ho.
    destruct (ico !! (6 + i * 16 + 12 + 1)%nat); [|done]. cbn [mbind option_bind] in Ho.
    destruct (ico !! (6 + i * 16 + 12 + 2)%nat); [|done]. cbn [mbind option_bind] in Ho.
    destruct (ico !! (6 + i * 16 + 12 + 3)%nat) eqn:E3; [|done].
    apply lookup_lt_Some in E3. lia.
  - intros H.
    destruct (lookup_lt_is_Some_2 ico (6 + i * 16 + 0) ltac:(lia)) as [w ->].
    destruct (lookup_lt_is_Some_2 ico (6 + i * 16 + 1) ltac:(lia)) as [h ->].
    destruct (getUint32_is_Some (6 + i * 16 + 8) ico ltac:(lia)) as [s ->].
    destruct (getUint32_is_Some (6 + i * 16 + 12) ico ltac:(lia)) as [o ->].
    by eexists.
Qed.

Lemma byteAt_Some ico z b :
  byteAt ico z = Some b -> 0 <= z /\ ico !! Z.to_nat z = Some b.
Proof.
  unfold byteAt. destruct (Z.ltb_spec z 0); [done|]. by split.
Qed.

(** A PNG entry of eight bytes or more yields a buffer that starts with
    the signature. *)
Lemma isPng_signature ico e :
  isPng ico (offset e) = true -> 8 <= size e ->
  take 8 (buffer (image ico e)) = pngSignature.
Proof.
  intros Hpng Hsize. unfold isPng in Hpng.
  repeat (apply andb_prop in Hpng as [Hpng ?]).
  repeat match goal with
  | H : bool_decide _ = true |- _ =>
      apply bool_decide_eq_true_1, byteAt_Some in H as [? H]
  end.
  assert (Hoff : 0 <= offset e) by lia.
  cbn [image buffer]. unfold subarray.
  replace (offset e + size e - offset e) with (size e) by lia.
  rewrite take_take. replace (8 `min` Z.to_nat (size e))%nat with 8%nat by lia.
  set (l := drop (Z.to_nat (offset e)) ico).
  assert (Hl : forall k, (0 <= k)%Z ->
            l !! Z.to_nat k = ico !! Z.to_nat (offset e + k)).
  { intros k Hk. subst l. rewrite lookup_drop. f_equal. lia. }
  pose proof (Hl 0 ltac:(lia)) as L0. pose proof (Hl 1 ltac:(lia)) as L1.
  pose proof (Hl 2 ltac:(lia)) as L2. pose proof (Hl 3 ltac:(lia)) as L3.
  pose proof (Hl 4 ltac:(lia)) as L4. pose proof (Hl 5 ltac:(lia)) as L5.
  pose proof (Hl 6 ltac:(lia)) as L6. pose proof (Hl 7 ltac:(lia)) as L7.
  clearbody l. clear Hl.
  repeat match goal with
  | H : ico !! _ = Some _ |- _ => rewrite H in *; clear H
  end.
  change (Z.to_nat 0) with 0%nat in *. change (Z.to_nat 1) with 1%nat in *.
  change (Z.to_nat 2) with 2%nat in *. change (Z.to_nat 3) with 3%nat in *.
  change (Z.to_nat 4) with 4%nat in *. change (Z.to_nat 5) with 5%nat in *.
  change (Z.to_nat 6) with 6%nat in *. change (Z.to_nat 7) with 7%nat in *.
  do 8 (destruct l as [|? l]; [by simplify_eq/=|]).
  by simplify_eq/=.
Qed.

Lemma best_valid ico c :
  validHeader ico c ->
  best ico =
    match loop ico (Z.to_nat c) 0 None with
    | inl f => inl f
    | inr None => inl NoPngImage
    | inr (Some b) => inr b
    end.
Proof.
  intros (H0 & H1 & H2 & Hc). unfold best. rewrite H0, H1, H2.
  destruct (Z.eqb_spec c 0); [done|]. done.
Qed.

(** X20.  When [main] gets its image, the header was valid and the image
    is that of a directory entry whose data starts with the PNG
    signature: among all such entries it has the largest area, and it is
    the first of those with that area.  An entry of eight bytes or more
    gives a buffer that starts with the signature; and when the file
    consists of bytes, width and height lie between 1 and 256. *)
Theorem best_largest_png (ico : list Z) (b : Image) :
  best ico = inr b ->
  basePng ico = inr (buffer b) /\
  exists count k e,
    validHeader ico count /\ (k < Z.to_nat count)%nat /\
    pngAt ico k e /\ b = image ico e /\
    (8 <= size e -> take 8 (buffer b) = pngSignature) /\
    (Forall byte ico ->
     1 <= width b <= 256 /\ 1 <= height b <= 256 /\
     Forall byte (buffer b)) /\
    forall j e', (j < Z.to_nat count)%nat -> pngAt ico j e' ->
      area (image ico e') <= area b /\
      (area (image ico e') = area b -> (k <= j)%nat).
Proof.
  intros H. split; [unfold basePng; by rewrite H|].
  assert (Hv : exists c, validHeader ico c).
  { unfold best in H.
    destruct (getUint16 0 ico) as [r|] eqn:E0; [|done].
    destruct (getUint16 2 ico) as [t|] eqn:E2; [|done].
    destruct (getUint16 4 ico) as [c|] eqn:E4; [|done].
    destruct (Z.eqb_spec r 0) as [->|]; [|done].
    destruct (Z.eqb_spec t 1) as [->|]; [|done].
    destruct (Z.eqb_spec c 0) as [->|]; [done|].
    by exists c. }
  destruct Hv as [c Hv]. rewrite (best_valid _ _ Hv) in H.
  destruct (loop ico (Z.to_nat c) 0 None) as [f|[b'|]] eqn:Hl; [done| |done].
  simplify_eq.
  apply loop_inr in Hl as [[? _]|(k & e & Hk & Hp & Hr & _ & Hall)]; [done|].
  simplify_eq. exists c, k, e.
  split; [done|]. split; [lia|]. split; [done|]. split; [done|].
  split; [|split].
  - intros Hs. apply isPng_signature; [apply Hp|done].
  - intros Hb. destruct Hp as [He _].
    unfold readEntry, getUint8 in He.
    destruct (ico !! (6 + k * 16 + 0)%nat) as [w|] eqn:Ew; [|done].
    cbn [mbind option_bind] in He.
    destruct (ico !! (6 + k * 16 + 1)%nat) as [h|] eqn:Eh; [|done].
    cbn [mbind option_bind] in He.
    destruct (getUint32 (6 + k * 16 + 8) ico); [|done].
    cbn [mbind option_bind] in He.
    destruct (getUint32 (6 + k * 16 + 12) ico); [|done].
    cbn [mbind option_bind] in He.
    simplify_eq. rewrite Forall_lookup in Hb.
    pose proof (Hb _ _ Ew) as Bw. pose proof (Hb _ _ Eh) as Bh.
    unfold byte in Bw, Bh. cbn [image width height buffer wByte hByte].
    split_and!.
    + destruct (Z.eqb_spec w 0); lia.
    + destruct (Z.eqb_spec w 0); lia.
    + destruct (Z.eqb_spec h 0); lia.
    + destruct (Z.eqb_spec h 0); lia.
    + unfold subarray. apply Forall_take, Forall_drop.
      by apply Forall_lookup.
  - intros j e' Hj Hp'. apply Hall; [lia|done].
Qed.

Lemma best_largest_png_witness :
  let b := image sampleIco
             {| wByte := 16; hByte := 16; size := 8; offset := 22 |} in
  best sampleIco = inr b /\
  basePng sampleIco = inr (buffer b) /\
  exists count k e,
    validHeader sampleIco count /\ (k < Z.to_nat count)%nat /\
    pngAt sampleIco k e /\ b = image sampleIco e /\
    (8 <= size e -> take 8 (buffer b) = pngSignature) /\
    (Forall byte sampleIco ->
     1 <= width b <= 256 /\ 1 <= height b <= 256 /\
     Forall byte (buffer b)) /\
    forall j e', (j < Z.to_nat count)%nat -> pngAt sampleIco j e' ->
      area (image sampleIco e') <= area b /\
      (area (image sampleIco e') = area b -> (k <= j)%nat).
Proof.
  intros b.
  assert (H : best sampleIco = inr b) by (by vm_compute).
  exact (conj H (best_largest_png sampleIco b H)).
Defined.

(** X21.  Every way [main] fails before it has an image.  A file shorter
    than the six header bytes is a [RangeError]; six bytes or more with a
    reserved field other than 0, a type other than 1 or a count of 0 is
    an invalid header.  With a valid header, a directory that does not
    fit in the file is a [RangeError], even when an entry before the cut
    is a PNG image; a directory that fits gives an image as soon as one
    entry is a PNG image, and the missing-PNG error exactly when none
    is. *)
Theorem best_failures (ico : list Z) :
  ((length ico < 6)%nat -> best ico = inl RangeError) /\
  ((6 <= length ico)%nat -> (forall c, ~ validHeader ico c) ->
   best ico = inl InvalidIcoHeader) /\
  forall c, validHeader ico c ->
    ((length ico < 6 + 16 * Z.to_nat c)%nat -> best ico = inl RangeError) /\
    ((6 + 16 * Z.to_nat c <= length ico)%nat ->
     (best ico = inl NoPngImage <->
      forall j e, (j < Z.to_nat c)%nat -> readEntry ico j = Some e ->
                  isPng ico (offset e) = false) /\
     ((exists j e, (j < Z.to_nat c)%nat /\ pngAt ico j e) ->
      exists b, best ico = inr b)).
Proof.
  split_and!.
  - intros Hlen. unfold best.
    destruct (getUint16 0 ico); [|done]. destruct (getUint16 2 ico); [|done].
    destruct (getUint16 4 ico) eqn:E4; [|done].
    assert (H : is_Some (getUint16 4 ico)) by (by rewrite E4).
    apply getUint16_is_Some in H. lia.
  - intros Hlen Hinv. unfold best.
    destruct (proj1 (getUint16_is_Some 0 ico) ltac:(lia)) as [r E0].
    destruct (proj1 (getUint16_is_Some 2 ico) ltac:(lia)) as [t E2].
    destruct (proj1 (getUint16_is_Some 4 ico) ltac:(lia)) as [c E4].
    rewrite E0, E2, E4.
    destruct (Z.eqb_spec r 0) as [->|]; [|done].
    destruct (Z.eqb_spec t 1) as [->|]; [|done].
    destruct (Z.eqb_spec c 0) as [->|]; [done|].
    by destruct (Hinv c).
  - intros c Hv. rewrite (best_valid _ _ Hv).
    assert (H6 : (6 <= length ico)%nat).
    { destruct Hv as (_ & _ & E4 & _).
      assert (H : is_Some (getUint16 4 ico)) by (by rewrite E4).
      apply getUint16_is_Some in H. lia. }
    split.
    + intros Hlen.
      rewrite loop_inl; [done|]. exists (Z.to_nat c - 1)%nat.
      split; [lia|].
      destruct (readEntry ico (Z.to_nat c - 1)) eqn:E; [|done].
      assert (H : is_Some (readEntry ico (Z.to_nat c - 1)))
        by (by rewrite E).
      apply readEntry_is_Some in H. lia.
    + intros Hlen.
      destruct (loop_readable ico (Z.to_nat c) 0 None) as [r Hr].
      { intros j Hj. apply readEntry_is_Some. lia. }
      rewrite Hr.
      apply loop_inr in Hr
        as [[-> Hnone]|(k & e & Hk & Hp & -> & _ & _)].
      * split.
        -- split; [|done]. intros _ j e Hj He.
           destruct (isPng ico (offset e)) eqn:Hpng; [|done].
           destruct (Hnone j e ltac:(lia) (conj He Hpng)) as (? & ? & _).
           done.
        -- intros (j & e & Hj & Hp).
           destruct (Hnone j e ltac:(lia) Hp) as (? & ? & _). done.
      * split.
        -- split; [done|]. intros Hall. destruct Hp as [He Hpng].
           rewrite (Hall k e) in Hpng; [done|lia|done].
        -- intros _. by eexists.
Qed.
